(** * Trip visualizer: itinerary helpers, storage codec and geocoding gateway

    A shallow embedding of the TypeScript sources

    - [types]       (Location, ItineraryItem, Trip),
    - [itinerary helpers] (filterItemsByType, getItemsByDateRange,
                     getAllLocations, calculateTripBounds, getRouteLocations,
                     generateId),
    - [storage]     (serializeTrips, deserializeTrips, saveTrips, loadTrips,
                     clearStorage, saveCurrentTripId, loadCurrentTripId),
    - [geocoding]   (waitForRateLimit, geocodeAddress, reverseGeocode),

    together with the part of the JavaScript runtime they run on: values and
    exceptions, [Array.prototype.sort], [Date] with its ISO text, [JSON] on
    text, [localStorage] with its quota, and timers.  Definitions come first,
    the facts about them after.

    Modelling conventions.
    - A JS [number] is an IEEE 754 double.  Every finite double is a whole
      number of units of [2 ^ -1074], the smallest positive double, so the
      coordinate of a typed record is that whole number ([double], a [Z]):
      the order of doubles is the order of [Z], and [Math.min] and
      [Math.max] are [Z.min] and [Z.max].  At the level of runtime values a
      [number] may also be [NaN], an infinity or the negative zero.
      [Number::toString] (the shortest digits that read back as the same
      double) and the number literals of JSON (correctly rounded) are
      written out on this representation.
    - A [Date] of a typed record is its time value, the number of
      milliseconds since the epoch ([Z]).  At the level of runtime values a
      date may also be the Invalid Date.
    - A JS string is a [string] of 8-bit code units.
    - A function that may throw returns a [result]; [try]/[catch] is a match
      on it.  Code that acts on the browser takes and returns a [World]. *)

From stdpp Require Import gmap strings list.
From Stdlib Require Import ZArith Lia String Ascii List Permutation Sorted Bool.
From Stdlib Require Decimal DecimalString DecimalFacts DecimalPos.
Import ListNotations.

Local Open Scope string_scope.
Local Open Scope list_scope.
Local Open Scope Z_scope.

(* ===================================================================== *)
(** * Domain model (types) *)
(* ===================================================================== *)

(** A finite double, as its whole number of units of [2 ^ -1074]: one is
    [2 ^ 1074], one half is [2 ^ 1073], and a coordinate of 35.6595 degrees
    is the units of the double nearest to 35.6595. *)
Definition double := Z.

(** Time value of a [Date]: milliseconds since 1970-01-01T00:00:00Z. *)
Definition Date := Z.

Record Location := {
  lat : double;
  lng : double;
  address : string
}.

Inductive ItemType := flight | accommodation | activity.

Inductive ActivityType := restaurant | tour | attraction | other.

Record BaseItem := {
  id : string;
  tripId : string;
  startDate : Date;
  endDate : option Date;
  notes : option string
}.

Record Flight := {
  flight_base : BaseItem;
  origin : Location;
  destination : Location;
  departureTime : Date;
  arrivalTime : Date;
  airline : option string;
  flightNumber : option string;
  confirmationNumber : option string
}.

Record Accommodation := {
  accommodation_base : BaseItem;
  accommodation_name : string;
  accommodation_location : Location;
  checkIn : Date;
  checkOut : Date;
  bookingReference : option string
}.

Record Activity := {
  activity_base : BaseItem;
  activity_name : string;
  activity_location : Location;
  activityType : ActivityType;
  time : option string
}.

(** [ItineraryItem = Flight | Accommodation | Activity]; the [type] field of
    the source is the constructor. *)
Inductive ItineraryItem :=
| IFlight (f : Flight)
| IAccommodation (a : Accommodation)
| IActivity (a : Activity).

Definition item_type (item : ItineraryItem) : ItemType :=
  match item with
  | IFlight _ => flight
  | IAccommodation _ => accommodation
  | IActivity _ => activity
  end.

Definition item_base (item : ItineraryItem) : BaseItem :=
  match item with
  | IFlight f => flight_base f
  | IAccommodation a => accommodation_base a
  | IActivity a => activity_base a
  end.

Record Trip := {
  trip_id : string;
  trip_name : string;
  trip_startDate : Date;
  trip_endDate : Date;
  items : list ItineraryItem;
  createdAt : Date;
  updatedAt : Date
}.

(* ===================================================================== *)
(** * Runtime: Array.prototype.sort *)
(* ===================================================================== *)

(** [Array.prototype.sort(compareFn)] is a stable sort (ECMAScript 2019).
    For a consistent comparator its result is determined; it is computed
    here by a stable insertion sort. *)
Section ArraySort.
Context {A : Type} (compareFn : A -> A -> Z).

Fixpoint sort_insert (x : A) (l : list A) : list A :=
  match l with
  | [] => [x]
  | y :: l' => if compareFn x y <=? 0 then x :: y :: l' else y :: sort_insert x l'
  end.

Definition Array_sort (l : list A) : list A := fold_right sort_insert [] l.
End ArraySort.

(** The comparator [(a, b) => key(a) - key(b)] and the order it sorts by. *)
Definition by_key {A : Type} (key : A -> Z) (a b : A) : Z := key a - key b.

Definition key_le {A : Type} (key : A -> Z) (a b : A) : Prop := key a <= key b.

(* ===================================================================== *)
(** * Itinerary helpers *)
(* ===================================================================== *)

Definition ItemType_eqb (a b : ItemType) : bool :=
  match a, b with
  | flight, flight | accommodation, accommodation | activity, activity => true
  | _, _ => false
  end.

(** [items.filter(item => item.type === type)] *)
Definition filterItemsByType (items : list ItineraryItem) (type : ItemType) : list ItineraryItem :=
  List.filter (fun item => ItemType_eqb (item_type item) type) items.

(** [item.startDate >= startDate && item.startDate <= endDate] *)
Definition getItemsByDateRange (items : list ItineraryItem) (start_ end_ : Date) : list ItineraryItem :=
  List.filter (fun item =>
    (start_ <=? startDate (item_base item)) && (startDate (item_base item) <=? end_)) items.

(** [Array.prototype.push]: the element is appended at the end. *)
Definition push {A} (arr : list A) (x : A) : list A := arr ++ [x].

(** [getAllLocations]: [items.forEach] pushing onto [locations]. *)
Definition getAllLocations (items : list ItineraryItem) : list Location :=
  fold_left (fun locations item =>
    match item with
    | IFlight f => push (push locations (origin f)) (destination f)
    | IAccommodation a => push locations (accommodation_location a)
    | IActivity a => push locations (activity_location a)
    end) items [].

(** Modelled from the spec: Leaflet's [LatLngBounds], an external library.
    A box is its south-west and north-east corners; [extend] folds a point
    in with [Math.min] / [Math.max]; the constructor extends an empty box by
    its two corners, the first one seeding a degenerate box. *)
Record LatLngBounds := {
  south : double;
  west : double;
  north : double;
  east : double
}.

Definition extend (bounds : LatLngBounds) (p : double * double) : LatLngBounds :=
  {| south := Z.min (fst p) (south bounds);
     west := Z.min (snd p) (west bounds);
     north := Z.max (fst p) (north bounds);
     east := Z.max (snd p) (east bounds) |}.

Definition new_LatLngBounds (corner1 corner2 : double * double) : LatLngBounds :=
  extend {| south := fst corner1; west := snd corner1;
            north := fst corner1; east := snd corner1 |} corner2.

(** [calculateTripBounds] *)
Definition calculateTripBounds (items : list ItineraryItem) : option LatLngBounds :=
  let locations := getAllLocations items in
  match locations with
  | [] => None
  | loc0 :: _ =>
      let bounds := new_LatLngBounds (lat loc0, lng loc0) (lat loc0, lng loc0) in
      Some (fold_left (fun bounds loc => extend bounds (lat loc, lng loc)) locations bounds)
  end.

(** [a.startDate.getTime() - b.startDate.getTime()] *)
Definition byStartDate (a b : ItineraryItem) : Z :=
  startDate (item_base a) - startDate (item_base b).

(** [getRouteLocations] *)
Definition getRouteLocations (items : list ItineraryItem) : list Location :=
  let sortedItems := Array_sort byStartDate items in
  fold_left (fun route item =>
    match item with
    | IFlight f => push (push route (origin f)) (destination f)
    | IActivity a => push route (activity_location a)
    | IAccommodation _ => route
    end) sortedItems [].

(** What one item adds to the route, in the words of the specification:
    a Flight its origin then its destination, an Activity its Location, an
    Accommodation nothing. *)
Definition routeContribution (item : ItineraryItem) : list Location :=
  match item with
  | IFlight f => [origin f; destination f]
  | IActivity a => [activity_location a]
  | IAccommodation _ => []
  end.

(** What one item adds to [allLocations], in the words of the
    specification. *)
Definition locationsOf (item : ItineraryItem) : list Location :=
  match item with
  | IFlight f => [origin f; destination f]
  | IAccommodation a => [accommodation_location a]
  | IActivity a => [activity_location a]
  end.

Definition count_type (type : ItemType) (items : list ItineraryItem) : nat :=
  length (filterItemsByType items type).

Definition msPerDay : Z := 86400000.

(** The calendar day of a timestamp, as a day number, in the timezone of the
    itinerary: [tz] is the offset of that timezone from UTC, in
    milliseconds. *)
Definition dayOf (tz : Z) (t : Date) : Z := (t + tz) / msPerDay.

Definition itemDay (tz : Z) (item : ItineraryItem) : Z :=
  dayOf tz (startDate (item_base item)).

(** Adds an item to the group of its day; a new day goes last. *)
Fixpoint group_add (d : Z) (item : ItineraryItem)
    (groups : list (Z * list ItineraryItem)) : list (Z * list ItineraryItem) :=
  match groups with
  | [] => [(d, [item])]
  | (d', g) :: rest =>
      if d =? d' then (d', push g item) :: rest
      else (d', g) :: group_add d item rest
  end.

(** The items grouped by calendar day, days in order of first appearance. *)
Definition groupItems (tz : Z) (items : list ItineraryItem) : list (Z * list ItineraryItem) :=
  fold_left (fun groups item => group_add (itemDay tz item) item groups) items [].

Definition byDay (a b : Z * list ItineraryItem) : Z := fst a - fst b.

(** Modelled from the spec: [groupByDay], whose source (the date helpers of
    the repository) is not among the files.  Each item's primary start
    timestamp is truncated to its calendar day; the items are grouped by day;
    the distinct days are then sorted ascending; within each day the items
    are sorted by start time ascending, with a stable sort, so that ties keep
    their insertion order. *)
Definition groupByDay (tz : Z) (items : list ItineraryItem) : list (Z * list ItineraryItem) :=
  map (fun g => (fst g, Array_sort byStartDate (snd g)))
      (Array_sort byDay (groupItems tz items)).

(** The items of one calendar day, in input order. *)
Definition itemsOfDay (tz : Z) (d : Z) (items : list ItineraryItem) : list ItineraryItem :=
  List.filter (fun item => itemDay tz item =? d) items.

(** The primary start timestamp, [item.startDate.getTime()]. *)
Definition startKey (item : ItineraryItem) : Z := startDate (item_base item).

Definition startsAt (t : Date) (item : ItineraryItem) : bool := startKey item =? t.

Definition startsBefore (a b : ItineraryItem) : Prop := startKey a <= startKey b.

Definition is_accommodation (item : ItineraryItem) : bool :=
  ItemType_eqb (item_type item) accommodation.

(** A box [b] covers a location. *)
Definition covers (b : LatLngBounds) (loc : Location) : Prop :=
  south b <= lat loc <= north b /\ west b <= lng loc <= east b.

(** Box [b1] lies inside box [b2]. *)
Definition inside (b1 b2 : LatLngBounds) : Prop :=
  south b2 <= south b1 /\ north b1 <= north b2 /\
  west b2 <= west b1 /\ east b1 <= east b2.

(** The groups built so far, for the items seen so far. *)
Definition groups_of (tz : Z) (items : list ItineraryItem)
    (G : list (Z * list ItineraryItem)) : Prop :=
  NoDup (map fst G) /\
  (forall d g, In (d, g) G -> g = itemsOfDay tz d items /\ g <> []) /\
  (forall item, In item items -> In (itemDay tz item) (map fst G)).


(* ===================================================================== *)
(** * Runtime: values, exceptions *)
(* ===================================================================== *)

Arguments String.append !s1 s2 : simpl nomatch.

#[local] Set Warnings "-register-all".

(** A JS number: [NaN], an infinity, the negative zero, or a finite double
    given as its whole number of units of [2 ^ -1074]. *)
Inductive number :=
| NaN
| Infinity (negative : bool)
| NegativeZero
| Finite (d : double).

(** The values that the storage and geocoding code handles: primitives,
    [Date] objects (with their time value; [None] is the Invalid Date),
    arrays, and plain objects as their own enumerable properties in
    insertion order. *)
Inductive value :=
| VUndefined
| VNull
| VBool (b : bool)
| VNumber (n : number)
| VString (s : string)
| VDate (tv : option Z)
| VArray (elems : list value)
| VObject (props : list (string * value)).

Inductive ErrorKind := Error | TypeError | SyntaxError | RangeError | DOMException.

(** What a [throw] carries: an instance of [Error] (or of a subclass, or a
    [DOMException]) with its [name] and [message], or any other value. *)
Inductive thrown :=
| ErrorObject (kind : ErrorKind) (name : string) (message : string)
| NonError (v : value).

(** The outcome of a computation that may throw. *)
Inductive result (A : Type) :=
| Ok (a : A)
| Throw (e : thrown).

Arguments Ok {A} a.
Arguments Throw {A} e.

Definition bind {A B} (m : result A) (k : A -> result B) : result B :=
  match m with
  | Ok a => k a
  | Throw e => Throw e
  end.

Notation "x <- m ;; k" := (bind m (fun x => k))
  (at level 100, m at next level, right associativity).

(** [arr.map(f)] for a callback that may throw: left to right, the first
    exception ends the loop. *)
Section MapM.
Context {A B : Type} (f : A -> result B).

Fixpoint mapM (l : list A) : result (list B) :=
  match l with
  | [] => Ok []
  | a :: l' => b <- f a ;; bs <- mapM l' ;; Ok (b :: bs)
  end.
End MapM.

Definition new_Error (message : string) : thrown := ErrorObject Error "Error" message.
Definition new_TypeError (message : string) : thrown := ErrorObject TypeError "TypeError" message.
Definition new_SyntaxError (message : string) : thrown := ErrorObject SyntaxError "SyntaxError" message.
Definition new_RangeError (message : string) : thrown := ErrorObject RangeError "RangeError" message.

(** [error instanceof Error]: every error class, [DOMException] included,
    inherits from [Error.prototype]. *)
Definition instanceof_Error (e : thrown) : bool :=
  match e with
  | ErrorObject _ _ _ => true
  | NonError _ => false
  end.

Definition instanceof_DOMException (e : thrown) : bool :=
  match e with
  | ErrorObject DOMException _ _ => true
  | _ => false
  end.

Definition error_name (e : thrown) : string :=
  match e with
  | ErrorObject _ name _ => name
  | NonError _ => ""
  end.

Definition error_message (e : thrown) : string :=
  match e with
  | ErrorObject _ _ message => message
  | NonError _ => ""
  end.

(* ===================================================================== *)
(** * Runtime: digits and numbers as text *)
(* ===================================================================== *)

Definition digit_char (d : Z) : ascii := ascii_of_N (48 + Z.to_N d).

Definition is_digit (c : ascii) : bool :=
  let n := N_of_ascii c in ((48 <=? n) && (n <=? 57))%N.

Definition digit_val (c : ascii) : Z := Z.of_N (N_of_ascii c) - 48.

(** [n] written with exactly [w] decimal digits (zero padded), in front of
    [rest]. *)
Fixpoint pad_digits (w : nat) (n : Z) (rest : string) : string :=
  match w with
  | O => rest
  | S w' => pad_digits w' (n / 10) (String (digit_char (n mod 10)) rest)
  end.

(** Reads exactly [w] decimal digits. *)
Fixpoint read_digits (w : nat) (acc : Z) (s : string) : option (Z * string) :=
  match w with
  | O => Some (acc, s)
  | S w' =>
      match s with
      | String c r => if is_digit c then read_digits w' (10 * acc + digit_val c) r else None
      | EmptyString => None
      end
  end.

(** The longest prefix of decimal digits, and what follows it. *)
Fixpoint span_digits (s : string) : string * string :=
  match s with
  | String c r =>
      if is_digit c then let (ds, rest) := span_digits r in (String c ds, rest)
      else (EmptyString, s)
  | EmptyString => (EmptyString, EmptyString)
  end.

(** [Number::toString] on an integer below [10 ^ 21] in absolute value (an
    array index, a time value): its decimal digits without leading zeros, a
    minus sign in front when negative. *)
Definition Number_toString (n : Z) : string :=
  match n with
  | Z0 => "0"
  | Zpos p => DecimalString.NilZero.string_of_uint (Pos.to_uint p)
  | Zneg p => String "-" (DecimalString.NilZero.string_of_uint (Pos.to_uint p))
  end.

(* ===================================================================== *)
(** * Runtime: doubles, their text and their literals *)
(* ===================================================================== *)

(** [Number.isFinite] *)
Definition isFinite (x : number) : bool :=
  match x with
  | NaN | Infinity _ => false
  | NegativeZero | Finite _ => true
  end.

(** The double that an integer is, when it is one. *)
Definition of_integer (n : Z) : double := Z.shiftl n 1074.

(** The integer part of a double, towards zero. *)
Definition truncate (d : double) : Z := Z.quot d (2 ^ 1074).

(** [Number.MAX_VALUE], [(2 ^ 53 - 1) * 2 ^ 971]. *)
Definition max_double : double := Z.shiftl (2 ^ 53 - 1) 2045.

(** The integers that are doubles: at most [Number.MAX_VALUE] in absolute
    value, and with at most 53 significant bits. *)
Definition is_double (d : Z) : bool :=
  let a := Z.abs d in
  (a <=? max_double) &&
  ((a <? 2 ^ 53) || (Z.shiftl (Z.shiftr a (Z.log2 a - 52)) (Z.log2 a - 52) =? a)).

(** The integer nearest to [a / b], the even one of two that are equally
    near ([0 <= a], [0 < b]). *)
Definition round_div (a b : Z) : Z :=
  let q := a / b in
  let r := a mod b in
  if 2 * r <? b then q
  else if b <? 2 * r then q + 1
  else if Z.even q then q else q + 1.

(** The double nearest to [p / q], ties to even, in units ([0 <= p],
    [0 < q]): below [2 ^ 53] units the doubles are one unit apart; from
    there on, a double with [n] for the whole part of its units is a
    multiple of [2 ^ s] units, [s] being [log2 n - 52].  The result may
    exceed [max_double]. *)
Definition nearest_double (p q : Z) : Z :=
  let n := Z.shiftl p 1074 / q in
  if n <? 2 ^ 53 then round_div (Z.shiftl p 1074) q
  else
    let s := Z.log2 n - 52 in
    if s <=? 1074 then Z.shiftl (round_div (Z.shiftl p (1074 - s)) q) s
    else Z.shiftl (round_div p (Z.shiftl q (s - 1074))) s.

(** The Number value of the decimal [M * 10 ^ E] with its sign
    ([0 <= M]): the nearest double; an infinity beyond [max_double]; a zero
    that keeps the sign. *)
Definition decimal_number (negative : bool) (M E : Z) : number :=
  let k := if 0 <=? E then nearest_double (M * 10 ^ E) 1
           else nearest_double M (10 ^ (- E)) in
  if k =? 0 then (if negative then NegativeZero else Finite 0)
  else if max_double <? k then Infinity negative
  else Finite (if negative then - k else k).

Fixpoint count_digits (fuel : nat) (n : Z) : Z :=
  match fuel with
  | O => 1
  | S fuel' => if n <? 10 then 1 else 1 + count_digits fuel' (n / 10)
  end.

(** The number of decimal digits of a positive integer. *)
Definition num_digits (n : Z) : Z := count_digits (Z.to_nat (Z.log2 n)) n.

(** The decimal [s * 10 ^ e] reads as the double [d]. *)
Definition reads_as (d : double) (s e : Z) : bool :=
  (0 <? s) && match decimal_number false s e with
              | Finite d' => d' =? d
              | _ => false
              end.

(** An exponent [e] with [d] below [10 ^ e]: [d] is below [2 ^ l] for the
    [l] of the definition, and [l * log10 2 < e]. *)
Definition decimal_bound (d : double) : Z :=
  let l := Z.log2 d + 1 - 1074 in
  (if 0 <=? l then l * 30103 / 100000 else l * 30102 / 100000) + 1.

(** [Number::toString], the choice of the digits: the decimal [s * 10 ^ e]
    with the fewest digits that reads as [d], and of two such the one nearer
    to [d] (the even one when they are equally near).  The exponents are
    tried from the largest down; at each one the candidates are the two
    multiples of [10 ^ e] around [d].  Seventeen digits are enough for every
    double; should the search end without a result, the exact decimal
    expansion of [d] is taken. *)
Fixpoint shortest_from (fuel : nat) (d : double) (e : Z) : Z * Z :=
  match fuel with
  | O => (5 ^ 1074 * d, - 1074)
  | S fuel' =>
      let lo := if 0 <=? e then Z.shiftr d 1074 / 10 ^ e
                else Z.shiftr (10 ^ (- e) * d) 1074 in
      let hi := lo + 1 in
      match reads_as d lo e, reads_as d hi e with
      | true, true =>
          let nearest := if 0 <=? e then round_div d (10 ^ e * 2 ^ 1074)
                         else round_div (10 ^ (- e) * d) (2 ^ 1074) in
          (if nearest =? lo then lo else hi, e)
      | true, false => (lo, e)
      | false, true => (hi, e)
      | false, false => shortest_from fuel' d (e - 1)
      end
  end.

Definition shortest (d : double) : Z * Z := shortest_from 24 d (decimal_bound d).

(** The exponent part, [e+x] or [e-x]. *)
Definition exponent_text (x : Z) (rest : string) : string :=
  String "e" (String (if x <? 0 then "-"%char else "+"%char)
    (pad_digits (Z.to_nat (num_digits (Z.abs x))) (Z.abs x) rest)).

(** [Number::toString], the layout of the digits [s] (there are [k] of
    them) for the value [s * 10 ^ (n - k)]: plain digits up to 21 of them,
    a decimal point within the digits, [0.] and up to five zeros in front of
    them, or the exponent form. *)
Definition decimal_text (s e : Z) (rest : string) : string :=
  let k := num_digits s in
  let n := e + k in
  if (k <=? n) && (n <=? 21) then pad_digits (Z.to_nat n) (s * 10 ^ (n - k)) rest
  else if (0 <? n) && (n <=? 21) then
    pad_digits (Z.to_nat n) (s / 10 ^ (k - n))
      (String "." (pad_digits (Z.to_nat (k - n)) (s mod 10 ^ (k - n)) rest))
  else if (-6 <? n) && (n <=? 0) then
    String "0" (String "." (pad_digits (Z.to_nat (k - n)) s rest))
  else if k =? 1 then pad_digits 1 s (exponent_text (n - 1) rest)
  else pad_digits 1 (s / 10 ^ (k - 1))
         (String "." (pad_digits (Z.to_nat (k - 1)) (s mod 10 ^ (k - 1))
            (exponent_text (n - 1) rest))).

(** [Number::toString] on a finite double, in front of [rest]. *)
Definition double_text (d : double) (rest : string) : string :=
  if d =? 0 then String "0" rest
  else
    let '(s, e) := shortest (Z.abs d) in
    if d <? 0 then String "-" (decimal_text s e rest) else decimal_text s e rest.

(** [Number.prototype.toString], [ToString] of a number. *)
Definition Number_prototype_toString (x : number) : string :=
  match x with
  | NaN => "NaN"
  | Infinity negative => if negative then "-Infinity" else "Infinity"
  | NegativeZero => "0"
  | Finite d => double_text d ""
  end.

Fixpoint digits_value (acc : Z) (s : string) : Z :=
  match s with
  | EmptyString => acc
  | String c r => digits_value (10 * acc + digit_val c) r
  end.

(** The fraction of a number literal: a point and at least one digit. *)
Definition parse_fraction (s : string) : option (string * string) :=
  match s with
  | String "."%char r =>
      let '(f, r') := span_digits r in
      match f with EmptyString => None | _ => Some (f, r') end
  | _ => Some (EmptyString, s)
  end.

Definition parse_exponent_digits (r : string) : option (Z * string) :=
  let '(negative, r1) :=
    match r with
    | String "-"%char r' => (true, r')
    | String "+"%char r' => (false, r')
    | _ => (false, r)
    end in
  let '(x, r2) := span_digits r1 in
  match x with
  | EmptyString => None
  | _ => Some (if negative then - digits_value 0 x else digits_value 0 x, r2)
  end.

(** The exponent of a number literal: [e] or [E], a sign or none, and at
    least one digit. *)
Definition parse_exponent (s : string) : option (Z * string) :=
  match s with
  | String "e"%char r => parse_exponent_digits r
  | String "E"%char r => parse_exponent_digits r
  | _ => Some (0, s)
  end.

(** The integer digits of a number literal: a lone [0], or digits that do
    not start with [0]. *)
Definition valid_int (int : string) : bool :=
  match int with
  | EmptyString => false
  | String "0"%char (String _ _) => false
  | _ => true
  end.

(** A number literal without its sign, as a decimal: the integer digits, a
    fraction or none, an exponent or none.  The result [(M, E, rest)] stands
    for [M * 10 ^ E]. *)
Definition parse_decimal (s : string) : option (Z * Z * string) :=
  let '(int, s2) := span_digits s in
  if valid_int int then
    match parse_fraction s2 with
    | None => None
    | Some (frac, s3) =>
        match parse_exponent s3 with
        | None => None
        | Some (x, s4) =>
            Some (digits_value 0 (int ++ frac), x - Z.of_nat (String.length frac), s4)
        end
    end
  else None.

(** A number literal of JSON and its Number value: a minus sign or none,
    then the decimal. *)
Definition parse_literal (s : string) : option (number * string) :=
  match s with
  | String "-"%char r =>
      match parse_decimal r with
      | Some (M, E, rest) => Some (decimal_number true M E, rest)
      | None => None
      end
  | _ =>
      match parse_decimal s with
      | Some (M, E, rest) => Some (decimal_number false M E, rest)
      | None => None
      end
  end.

(* ===================================================================== *)
(** * Runtime: Date *)
(* ===================================================================== *)

(** A time value is a number of milliseconds since the epoch, at most
    8.64e15 in absolute value ([TimeClip]). *)
Definition maxTime : Z := 8640000000000000.

Definition TimeClip (tv : Z) : option Z :=
  if Z.abs tv <=? maxTime then Some tv else None.

Definition validTime (tv : Z) : Prop := - maxTime <= tv <= maxTime.

(** Year, month (1 to 12) and day of the month of a day number (days since
    1970-01-01), in the proleptic Gregorian calendar: [YearFromTime],
    [MonthFromTime] and [DateFromTime] of ECMAScript. *)
Definition civil_from_days (z : Z) : Z * Z * Z :=
  let z := z + 719468 in
  let era := z / 146097 in
  let doe := z mod 146097 in
  let yoe := (doe - doe / 1460 + doe / 36524 - doe / 146096) / 365 in
  let doy := doe - (365 * yoe + yoe / 4 - yoe / 100) in
  let mp := (5 * doy + 2) / 153 in
  let d := doy - (153 * mp + 2) / 5 + 1 in
  let m := if mp <? 10 then mp + 3 else mp - 9 in
  let y := yoe + era * 400 + (if m <=? 2 then 1 else 0) in
  (y, m, d).

(** [MakeDay]: the day number of a calendar date. *)
Definition days_from_civil (y m d : Z) : Z :=
  let y := y - (if m <=? 2 then 1 else 0) in
  let era := y / 400 in
  let yoe := y mod 400 in
  let mp := if 2 <? m then m - 3 else m + 9 in
  let doy := (153 * mp + 2) / 5 + d - 1 in
  let doe := yoe * 365 + yoe / 4 - yoe / 100 + doy in
  era * 146097 + doe - 719468.

Definition InLeapYear (y : Z) : bool :=
  (y mod 4 =? 0) && (negb (y mod 100 =? 0) || (y mod 400 =? 0)).

Definition DaysInMonth (y m : Z) : Z :=
  if m =? 2 then (if InLeapYear y then 29 else 28)
  else if (m =? 4) || (m =? 6) || (m =? 9) || (m =? 11) then 30 else 31.

(** [MakeTime] and [MakeDate]. *)
Definition MakeTime (h mi s ms : Z) : Z := h * 3600000 + mi * 60000 + s * 1000 + ms.

Definition MakeDate (day time : Z) : Z := day * msPerDay + time.

(** The year of the ISO format: four digits from 0 to 9999, otherwise a sign
    and six digits. *)
Definition year_text (y : Z) (rest : string) : string :=
  if (0 <=? y) && (y <=? 9999) then pad_digits 4 y rest
  else String (if y <? 0 then "-"%char else "+"%char) (pad_digits 6 (Z.abs y) rest).

(** [Date.prototype.toISOString] on a valid time value:
    [YYYY-MM-DDTHH:mm:ss.sssZ]. *)
Definition toISOString (tv : Z) : string :=
  let day := tv / msPerDay in
  let t := tv mod msPerDay in
  let '(y, m, d) := civil_from_days day in
  year_text y
    (String "-" (pad_digits 2 m
    (String "-" (pad_digits 2 d
    (String "T" (pad_digits 2 (t / 3600000)
    (String ":" (pad_digits 2 ((t / 60000) mod 60)
    (String ":" (pad_digits 2 ((t / 1000) mod 60)
    (String "." (pad_digits 3 (t mod 1000) "Z")))))))))))).

Definition expect_char (c : ascii) (s : string) : option string :=
  match s with
  | String c' r => if Ascii.eqb c c' then Some r else None
  | EmptyString => None
  end.

Definition parse_year (s : string) : option (Z * string) :=
  match s with
  | String "+" r => read_digits 6 0 r
  | String "-" r =>
      match read_digits 6 0 r with
      | Some (y, r') => if y =? 0 then None else Some (- y, r')
      | None => None
      end
  | _ => read_digits 4 0 s
  end.

(** [Date.parse] on the format that [toISOString] writes (the date-time
    form with milliseconds, in UTC).  The other forms that ECMAScript
    accepts, and the formats that an implementation may accept beyond them,
    are not in the model: they read as [NaN] here. *)
Definition Date_parse (s : string) : option Z :=
  '(y, s) ← parse_year s;
  s ← expect_char "-" s;
  '(m, s) ← read_digits 2 0 s;
  s ← expect_char "-" s;
  '(d, s) ← read_digits 2 0 s;
  s ← expect_char "T" s;
  '(h, s) ← read_digits 2 0 s;
  s ← expect_char ":" s;
  '(mi, s) ← read_digits 2 0 s;
  s ← expect_char ":" s;
  '(sec, s) ← read_digits 2 0 s;
  s ← expect_char "." s;
  '(ms, s) ← read_digits 3 0 s;
  s ← expect_char "Z" s;
  match s with
  | EmptyString =>
      if (1 <=? m) && (m <=? 12) && (1 <=? d) && (d <=? DaysInMonth y m)
         && (h <=? 23) && (mi <=? 59) && (sec <=? 59)
      then TimeClip (MakeDate (days_from_civil y m d) (MakeTime h mi sec ms))
      else None
  | _ => None
  end.

(** [Date.prototype.toISOString]: a [RangeError] on the Invalid Date. *)
Definition Date_toISOString (tv : option Z) : result string :=
  match tv with
  | Some t => Ok (toISOString t)
  | None => Throw (new_RangeError "Invalid time value")
  end.

(** [Date.prototype.toJSON]: [null] on the Invalid Date, otherwise
    [toISOString()]. *)
Definition Date_toJSON (tv : option Z) : value :=
  match tv with
  | Some t => VString (toISOString t)
  | None => VNull
  end.

(* ===================================================================== *)
(** * Runtime: objects *)
(* ===================================================================== *)

(** [obj[k]] on the own properties of a plain object: [undefined] when the
    key is absent. *)
Fixpoint obj_get (k : string) (props : list (string * value)) : value :=
  match props with
  | [] => VUndefined
  | (k', v) :: rest => if String.eqb k k' then v else obj_get k rest
  end.

(** Defining property [k]: an existing key keeps its place and takes the new
    value, a new key goes last. *)
Fixpoint obj_set (k : string) (v : value) (props : list (string * value))
    : list (string * value) :=
  match props with
  | [] => [(k, v)]
  | (k', v') :: rest =>
      if String.eqb k k' then (k', v) :: rest else (k', v') :: obj_set k v rest
  end.

(** The object literal [{...base, k1: v1, ..., kn: vn}]. *)
Definition obj_assign (base : list (string * value)) (fields : list (string * value))
    : list (string * value) :=
  fold_left (fun acc kv => obj_set (fst kv) (snd kv) acc) fields base.

(* ===================================================================== *)
(** * Runtime: JSON.stringify *)
(* ===================================================================== *)

Definition hex_char (n : N) : ascii :=
  if (n <? 10)%N then ascii_of_N (48 + n) else ascii_of_N (87 + n).

Definition hex_val (c : ascii) : option N :=
  let n := N_of_ascii c in
  if ((48 <=? n) && (n <=? 57))%N then Some (n - 48)%N
  else if ((97 <=? n) && (n <=? 102))%N then Some (n - 87)%N
  else if ((65 <=? n) && (n <=? 70))%N then Some (n - 55)%N
  else None.

(** [QuoteJSONString]: the two-character escapes, [\u00xx] for the other
    control characters, every other code unit as it is. *)
Definition escape_char (c : ascii) (rest : string) : string :=
  match c with
  | "034"%char => String "\" (String "034" rest)
  | "\"%char => String "\" (String "\" rest)
  | "008"%char => String "\" (String "b" rest)
  | "012"%char => String "\" (String "f" rest)
  | "010"%char => String "\" (String "n" rest)
  | "013"%char => String "\" (String "r" rest)
  | "009"%char => String "\" (String "t" rest)
  | _ =>
      let n := N_of_ascii c in
      if (n <? 32)%N then
        String "\" (String "u" (String "0" (String "0"
          (String (hex_char (n / 16)) (String (hex_char (n mod 16)) rest)))))
      else String c rest
  end.

Fixpoint escape (s : string) (rest : string) : string :=
  match s with
  | EmptyString => rest
  | String c s' => escape_char c (escape s' rest)
  end.

Definition QuoteJSONString (s : string) (rest : string) : string :=
  String "034" (escape s (String "034" rest)).

Fixpoint join_comma (parts : list string) : string :=
  match parts with
  | [] => ""
  | p :: ps =>
      match ps with
      | [] => p
      | _ :: _ => p ++ String "," (join_comma ps)
      end
  end.

Fixpoint cat_somes {A} (l : list (option A)) : list A :=
  match l with
  | [] => []
  | Some a :: l' => a :: cat_somes l'
  | None :: l' => cat_somes l'
  end.

(** [arr.map((e, i) => ...)] with the index, for a callback that may throw. *)
Fixpoint mapMi {A B} (f : nat -> A -> result B) (i : nat) (l : list A) : result (list B) :=
  match l with
  | [] => Ok []
  | a :: l' => b <- f i a ;; bs <- mapMi f (S i) l' ;; Ok (b :: bs)
  end.

Definition index_key (i : nat) : string := Number_toString (Z.of_nat i).

(** [SerializeJSONProperty] of ECMAScript, without indentation: the value is
    first replaced by the result of its [toJSON] method (only [Date] objects
    have one here), then by the result of the replacer; [undefined] is
    skipped in an object and written [null] in an array; a number that is
    not finite is written [null], and the negative zero [0].  [fuel] bounds
    the depth of the recursion, as the call stack does. *)
Fixpoint SerializeJSONProperty (fuel : nat)
    (replacer : string -> value -> result value)
    (key : string) (v : value) : result (option string) :=
  match fuel with
  | O => Throw (new_RangeError "Maximum call stack size exceeded")
  | S fuel' =>
      let v1 := match v with VDate tv => Date_toJSON tv | _ => v end in
      v2 <- replacer key v1 ;;
      match v2 with
      | VUndefined => Ok None
      | VNull => Ok (Some "null")
      | VBool b => Ok (Some (if b then "true" else "false"))
      | VNumber n =>
          Ok (Some (if isFinite n then Number_prototype_toString n else "null"))
      | VString s => Ok (Some (QuoteJSONString s ""))
      | VDate _ => Ok (Some "{}")
      | VArray elems =>
          parts <- mapMi (fun i e =>
                     r <- SerializeJSONProperty fuel' replacer (index_key i) e ;;
                     Ok (match r with Some s => s | None => "null" end)) 0 elems ;;
          Ok (Some (String "[" (join_comma parts ++ "]")))
      | VObject props =>
          parts <- mapM (fun kv =>
                     r <- SerializeJSONProperty fuel' replacer (fst kv) (snd kv) ;;
                     Ok (option_map (fun s => QuoteJSONString (fst kv) (String ":" s)) r))
                   props ;;
          Ok (Some (String "{" (join_comma (cat_somes parts) ++ "}")))
      end
  end.

Definition callStackLimit : nat := 1000.

(** [JSON.stringify(v, replacer)]: a string, or [undefined]. *)
Definition JSON_stringify (v : value) (replacer : string -> value -> result value)
    : result value :=
  r <- SerializeJSONProperty callStackLimit replacer "" v ;;
  Ok (match r with Some s => VString s | None => VUndefined end).

(* ===================================================================== *)
(** * Runtime: JSON.parse *)
(* ===================================================================== *)

Definition is_ws (c : ascii) : bool :=
  match c with
  | " "%char | "009"%char | "010"%char | "013"%char => true
  | _ => false
  end.

Fixpoint skip_ws (s : string) : string :=
  match s with
  | String c r => if is_ws c then skip_ws r else s
  | EmptyString => EmptyString
  end.

Definition cons_char (c : ascii) (r : option (string * string)) : option (string * string) :=
  match r with
  | Some (s, rest) => Some (String c s, rest)
  | None => None
  end.

(** The characters of a string literal, after its opening quote, up to its
    closing quote.  A [\u] escape above [00ff] has no code unit in the model
    and is refused. *)
Fixpoint parse_chars (s : string) : option (string * string) :=
  match s with
  | EmptyString => None
  | String c r =>
      match c with
      | "034"%char => Some (EmptyString, r)
      | "\"%char =>
          match r with
          | String e r' =>
              match e with
              | "034"%char => cons_char "034" (parse_chars r')
              | "\"%char => cons_char "\" (parse_chars r')
              | "/"%char => cons_char "/" (parse_chars r')
              | "b"%char => cons_char "008" (parse_chars r')
              | "f"%char => cons_char "012" (parse_chars r')
              | "n"%char => cons_char "010" (parse_chars r')
              | "r"%char => cons_char "013" (parse_chars r')
              | "t"%char => cons_char "009" (parse_chars r')
              | "u"%char =>
                  match r' with
                  | String h1 (String h2 (String h3 (String h4 r''))) =>
                      match hex_val h1, hex_val h2, hex_val h3, hex_val h4 with
                      | Some 0%N, Some 0%N, Some n3, Some n4 =>
                          cons_char (ascii_of_N (16 * n3 + n4)) (parse_chars r'')
                      | _, _, _, _ => None
                      end
                  | _ => None
                  end
              | _ => None
              end
          | EmptyString => None
          end
      | _ => if (N_of_ascii c <? 32)%N then None else cons_char c (parse_chars r)
      end
  end.

Definition Z_of_digits (ds : string) : option Z :=
  match DecimalString.NilZero.uint_of_string ds with
  | Some d => Some (Z.of_N (N.of_uint d))
  | None => None
  end.

(** A number literal, as [JSON.parse] reads it. *)
Definition parse_number (s : string) : option (value * string) :=
  match parse_literal s with
  | Some (n, rest) => Some (VNumber n, rest)
  | None => None
  end.

Definition starts_with (c : ascii) (s : string) : bool :=
  match s with
  | String c' _ => Ascii.eqb c' c
  | EmptyString => false
  end.

Definition tail (s : string) : string :=
  match s with
  | String _ r => r
  | EmptyString => EmptyString
  end.

Fixpoint expect_string (lit : string) (s : string) : option string :=
  match lit with
  | EmptyString => Some s
  | String c lit' =>
      match s with
      | String c' s' => if Ascii.eqb c c' then expect_string lit' s' else None
      | EmptyString => None
      end
  end.

(** The JSON grammar, by recursive descent; [fuel] bounds the number of
    nested calls. Members with the same key: the last value wins, at the
    place of the first. *)
Fixpoint parse_value (fuel : nat) (s : string) {struct fuel} : option (value * string) :=
  match fuel with
  | O => None
  | S fuel' =>
      match skip_ws s with
      | EmptyString => None
      | String c r =>
          match c with
          | "n"%char => r' ← expect_string "ull" r; Some (VNull, r')
          | "t"%char => r' ← expect_string "rue" r; Some (VBool true, r')
          | "f"%char => r' ← expect_string "alse" r; Some (VBool false, r')
          | "034"%char => '(str, r') ← parse_chars r; Some (VString str, r')
          | "["%char =>
              if starts_with "]" (skip_ws r) then Some (VArray [], tail (skip_ws r))
              else '(elems, r') ← parse_elements fuel' r; Some (VArray elems, r')
          | "{"%char =>
              if starts_with "}" (skip_ws r) then Some (VObject [], tail (skip_ws r))
              else '(members, r') ← parse_members fuel' r;
                   Some (VObject (obj_assign [] members), r')
          | _ => parse_number (String c r)
          end
      end
  end
with parse_elements (fuel : nat) (s : string) {struct fuel} : option (list value * string) :=
  match fuel with
  | O => None
  | S fuel' =>
      '(v, r) ← parse_value fuel' s;
      match skip_ws r with
      | String ","%char r' => '(vs, r'') ← parse_elements fuel' r'; Some (v :: vs, r'')
      | String "]"%char r' => Some ([v], r')
      | _ => None
      end
  end
with parse_members (fuel : nat) (s : string) {struct fuel}
    : option (list (string * value) * string) :=
  match fuel with
  | O => None
  | S fuel' =>
      match skip_ws s with
      | String "034"%char r =>
          '(k, r1) ← parse_chars r;
          match skip_ws r1 with
          | String ":"%char r2 =>
              '(v, r3) ← parse_value fuel' r2;
              match skip_ws r3 with
              | String ","%char r4 =>
                  '(ms, r5) ← parse_members fuel' r4; Some ((k, v) :: ms, r5)
              | String "}"%char r4 => Some ([(k, v)], r4)
              | _ => None
              end
          | _ => None
          end
      | _ => None
      end
  end.

(** [JSON.parse(text)]: a [SyntaxError] when the text is not JSON. *)
Definition JSON_parse (text : string) : result value :=
  match parse_value (2 * String.length text + 2) text with
  | Some (v, rest) =>
      match skip_ws rest with
      | EmptyString => Ok v
      | _ => Throw (new_SyntaxError "Unexpected non-whitespace character after JSON")
      end
  | None => Throw (new_SyntaxError "Unexpected token in JSON")
  end.

(* ===================================================================== *)
(** * Runtime: conversions, property access, spread *)
(* ===================================================================== *)

Definition has_key (k : string) (props : list (string * value)) : bool :=
  existsb (fun kv => String.eqb k (fst kv)) props.

(** [ToString] as [ToPrimitive] reaches it from [new Date(v)]: an array is
    joined with commas ([null] and [undefined] elements are empty); a plain
    object is ["[object Object]"], unless it has an own [toString] property,
    which, coming from JSON, is not callable and makes the conversion throw.
    (A [Date] inside an array does not come from [JSON.parse]; its text is
    implementation-defined and not in the ISO format.) *)
Fixpoint ToString (v : value) : result string :=
  match v with
  | VUndefined => Ok "undefined"
  | VNull => Ok "null"
  | VBool b => Ok (if b then "true" else "false")
  | VNumber n => Ok (Number_prototype_toString n)
  | VString s => Ok s
  | VDate _ => Ok "[object Date]"
  | VArray elems =>
      parts <- mapM (fun e =>
                 match e with
                 | VUndefined | VNull => Ok ""
                 | _ => ToString e
                 end) elems ;;
      Ok (join_comma parts)
  | VObject props =>
      if has_key "toString" props
      then Throw (new_TypeError "Cannot convert object to primitive value")
      else Ok "[object Object]"
  end.

(** [new Date(v)]: the time value of a [Date]; [Date.parse] of a string;
    [ToNumber] of another primitive, clipped to the range of time values and
    truncated to an integer; for an array or an object, [Date.parse] of its
    [ToString]. *)
Definition new_Date (v : value) : result value :=
  match v with
  | VDate tv => Ok (VDate tv)
  | VString s => Ok (VDate (Date_parse s))
  | VUndefined => Ok (VDate None)
  | VNull => Ok (VDate (TimeClip 0))
  | VBool b => Ok (VDate (TimeClip (if b then 1 else 0)))
  | VNumber (Finite d) =>
      Ok (VDate (if Z.abs d <=? of_integer maxTime then Some (truncate d) else None))
  | VNumber NegativeZero => Ok (VDate (Some 0))
  | VNumber _ => Ok (VDate None)
  | VArray _ | VObject _ => s <- ToString v ;; Ok (VDate (Date_parse s))
  end.

(** [ToBoolean] *)
Definition ToBoolean (v : value) : bool :=
  match v with
  | VUndefined | VNull => false
  | VBool b => b
  | VNumber (Finite d) => negb (d =? 0)
  | VNumber NegativeZero | VNumber NaN => false
  | VNumber (Infinity _) => true
  | VString s => negb (String.eqb s "")
  | VDate _ | VArray _ | VObject _ => true
  end.

(** [v.k] for a key [k] that no prototype defines (the keys read by the
    storage code are of this kind): a [TypeError] on [undefined] and [null],
    the own property of a plain object, [undefined] otherwise. *)
Definition Get (v : value) (k : string) : result value :=
  match v with
  | VUndefined | VNull =>
      Throw (new_TypeError ("Cannot read properties of undefined or null, reading " ++ k))
  | VObject props => Ok (obj_get k props)
  | _ => Ok VUndefined
  end.

(** [v.map(f)]: [v] must be an array; on anything else [v.map] is not a
    function (or [v] has no properties at all). *)
Definition Array_map (f : value -> result value) (v : value) : result value :=
  match v with
  | VArray elems => elems' <- mapM f elems ;; Ok (VArray elems')
  | _ => Throw (new_TypeError "map is not a function")
  end.

Fixpoint indexed {A} (i : nat) (l : list A) : list (string * A) :=
  match l with
  | [] => []
  | a :: l' => (index_key i, a) :: indexed (S i) l'
  end.

Fixpoint chars_of (s : string) : list value :=
  match s with
  | EmptyString => []
  | String c s' => VString (String c EmptyString) :: chars_of s'
  end.

(** [{...v}]: the own enumerable properties of [v]; the elements of an array
    and the characters of a string under their indices; nothing for the other
    primitives and for a [Date]. *)
Definition spread (v : value) : list (string * value) :=
  match v with
  | VObject props => props
  | VArray elems => indexed 0 elems
  | VString s => indexed 0 (chars_of s)
  | _ => []
  end.

(** [v === s] for a string literal [s]. *)
Definition is_string (v : value) (s : string) : bool :=
  match v with
  | VString s' => String.eqb s' s
  | _ => false
  end.

(* ===================================================================== *)
(** * Runtime: localStorage, console, alert *)
(* ===================================================================== *)

(** The part of the browser that the storage code acts on: the key-value
    store of the origin with its capacity, the error console, and the alerts
    shown to the user. *)
Record World := {
  localStorage : gmap string string;
  quota : N;
  console : list (string * thrown);
  alerts : list string
}.

Definition storage_usage (m : gmap string string) : N :=
  map_fold (fun k v n => (N.of_nat (String.length k) + N.of_nat (String.length v) + n)%N)
           0%N m.

Definition QuotaExceededError : thrown :=
  ErrorObject DOMException "QuotaExceededError" "The quota has been exceeded.".

(** [localStorage.setItem(k, v)]: [v] is converted to a string; the pair
    is stored, or nothing changes and a [QuotaExceededError] is thrown when
    the new content would not fit. *)
Definition localStorage_setItem (k : string) (v : value) (w : World) : result World :=
  text <- ToString v ;;
  let m := <[k := text]> (localStorage w) in
  if (storage_usage m <=? quota w)%N
  then Ok {| localStorage := m; quota := quota w;
             console := console w; alerts := alerts w |}
  else Throw QuotaExceededError.

(** [localStorage.getItem(k)]: [null] ([None]) when the key is absent. *)
Definition localStorage_getItem (k : string) (w : World) : result (option string) :=
  Ok (localStorage w !! k).

Definition localStorage_removeItem (k : string) (w : World) : result World :=
  Ok {| localStorage := delete k (localStorage w); quota := quota w;
        console := console w; alerts := alerts w |}.

Definition console_error (message : string) (error : thrown) (w : World) : World :=
  {| localStorage := localStorage w; quota := quota w;
     console := console w ++ [(message, error)]; alerts := alerts w |}.

Definition alert (message : string) (w : World) : World :=
  {| localStorage := localStorage w; quota := quota w;
     console := console w; alerts := alerts w ++ [message] |}.

(* ===================================================================== *)
(** * JSON values and their text *)
(* ===================================================================== *)

Fixpoint distinct (keys : list string) : bool :=
  match keys with
  | [] => true
  | k :: ks => negb (existsb (String.eqb k) ks) && distinct ks
  end.

(** The values that [JSON.parse] returns for a text that [JSON.stringify]
    wrote: no [undefined], no [Date], numbers that are finite doubles (and
    not the negative zero, which is written [0]), and objects without
    repeated keys. *)
Fixpoint is_json (v : value) : bool :=
  match v with
  | VNull | VBool _ | VString _ => true
  | VNumber (Finite d) => is_double d
  | VNumber _ => false
  | VUndefined | VDate _ => false
  | VArray elems => forallb is_json elems
  | VObject props =>
      distinct (map fst props) && forallb (fun kv => is_json (snd kv)) props
  end.

(** The text of a JSON value, without white space. *)
Fixpoint JSON_text (v : value) : string :=
  match v with
  | VUndefined | VNull => "null"
  | VBool b => if b then "true" else "false"
  | VNumber n => if isFinite n then Number_prototype_toString n else "null"
  | VString s => QuoteJSONString s ""
  | VDate _ => "{}"
  | VArray elems => String "[" (join_comma (map JSON_text elems) ++ "]")
  | VObject props =>
      String "{" (join_comma
        (map (fun kv => QuoteJSONString (fst kv) (String ":" (JSON_text (snd kv))))
             props) ++ "}")
  end.

(** What [JSON.stringify] keeps of a value when dates are written as ISO
    strings: a [Date] becomes its [toJSON], an [undefined] property is
    dropped, an [undefined] element is [null]; [NaN] and the infinities
    become [null], and the negative zero becomes zero. *)
Fixpoint dehydrate (v : value) : value :=
  match v with
  | VDate tv => Date_toJSON tv
  | VNumber (Finite d) => VNumber (Finite d)
  | VNumber NegativeZero => VNumber (Finite 0)
  | VNumber _ => VNull
  | VArray elems =>
      VArray (map (fun e => match e with VUndefined => VNull | _ => dehydrate e end) elems)
  | VObject props =>
      VObject (flat_map (fun kv =>
                 match snd kv with
                 | VUndefined => []
                 | _ => [(fst kv, dehydrate (snd kv))]
                 end) props)
  | _ => v
  end.

(** Nesting depth of a value. *)
Fixpoint value_depth (v : value) : nat :=
  match v with
  | VArray elems => S (fold_right (fun e d => Nat.max (value_depth e) d) 0%nat elems)
  | VObject props => S (fold_right (fun kv d => Nat.max (value_depth (snd kv)) d) 0%nat props)
  | _ => 0%nat
  end.

(** Number of nested calls that parsing the text of a value takes. *)
Fixpoint parse_cost (v : value) : nat :=
  match v with
  | VArray elems => S (fold_right (fun e n => S (parse_cost e + n)) 0%nat elems)
  | VObject props => S (fold_right (fun kv n => S (parse_cost (snd kv) + n)) 0%nat props)
  | _ => 1%nat
  end.

(** What may follow a value in a JSON text without white space. *)
Definition delimited (rest : string) : Prop :=
  match rest with
  | EmptyString => True
  | String c _ => c = ","%char \/ c = "]"%char \/ c = "}"%char
  end.

(** What the induction gives for the parts of an array or an object. *)
Definition parses_back (v : value) : Prop :=
  is_json v = true ->
  forall (fuel : nat) (rest : string),
    (parse_cost v <= fuel)%nat -> delimited rest ->
    parse_value fuel (JSON_text v ++ rest) = Some (v, rest).

Definition member_text (kv : string * value) : string :=
  QuoteJSONString (fst kv) (String ":" (JSON_text (snd kv))).


(** An [undefined] element of an array is written [null]. *)
Definition undefined_as_null (e : value) : value :=
  match e with
  | VUndefined => VNull
  | _ => dehydrate e
  end.

(** What [SerializeJSONProperty] returns with the date replacer. *)
Definition serialized (v : value) : option string :=
  match v with
  | VUndefined => None
  | _ => Some (JSON_text (dehydrate v))
  end.


(* ===================================================================== *)
(** * Typed records as runtime values *)
(* ===================================================================== *)

(** TypeScript types are erased: a [Trip] is a plain object holding its
    fields, an optional field that is absent has no property, and a [Date]
    field holds a [Date] object. *)
Definition opt_prop {A} (k : string) (f : A -> value) (o : option A) : list (string * value) :=
  match o with
  | Some a => [(k, f a)]
  | None => []
  end.

Definition Date_value (d : Date) : value := VDate (Some d).

Definition Location_value (l : Location) : value :=
  VObject [("lat", VNumber (Finite (lat l))); ("lng", VNumber (Finite (lng l)));
           ("address", VString (address l))].

Definition ItemType_tag (t : ItemType) : string :=
  match t with
  | flight => "flight"
  | accommodation => "accommodation"
  | activity => "activity"
  end.

Definition ActivityType_tag (t : ActivityType) : string :=
  match t with
  | restaurant => "restaurant"
  | tour => "tour"
  | attraction => "attraction"
  | other => "other"
  end.

Definition BaseItem_props (type : ItemType) (b : BaseItem) : list (string * value) :=
  [("id", VString (id b)); ("type", VString (ItemType_tag type));
   ("tripId", VString (tripId b)); ("startDate", Date_value (startDate b))]
  ++ opt_prop "endDate" Date_value (endDate b)
  ++ opt_prop "notes" VString (notes b).

Definition Item_value (item : ItineraryItem) : value :=
  match item with
  | IFlight f =>
      VObject (BaseItem_props flight (flight_base f)
        ++ [("origin", Location_value (origin f));
            ("destination", Location_value (destination f));
            ("departureTime", Date_value (departureTime f));
            ("arrivalTime", Date_value (arrivalTime f))]
        ++ opt_prop "airline" VString (airline f)
        ++ opt_prop "flightNumber" VString (flightNumber f)
        ++ opt_prop "confirmationNumber" VString (confirmationNumber f))
  | IAccommodation a =>
      VObject (BaseItem_props accommodation (accommodation_base a)
        ++ [("name", VString (accommodation_name a));
            ("location", Location_value (accommodation_location a));
            ("checkIn", Date_value (checkIn a));
            ("checkOut", Date_value (checkOut a))]
        ++ opt_prop "bookingReference" VString (bookingReference a))
  | IActivity a =>
      VObject (BaseItem_props activity (activity_base a)
        ++ [("name", VString (activity_name a));
            ("location", Location_value (activity_location a));
            ("activityType", VString (ActivityType_tag (activityType a)))]
        ++ opt_prop "time" VString (time a))
  end.

Definition Trip_value (t : Trip) : value :=
  VObject [("id", VString (trip_id t)); ("name", VString (trip_name t));
           ("startDate", Date_value (trip_startDate t));
           ("endDate", Date_value (trip_endDate t));
           ("items", VArray (map Item_value (items t)));
           ("createdAt", Date_value (createdAt t));
           ("updatedAt", Date_value (updatedAt t))].

Definition Trips_value (trips : list Trip) : value := VArray (map Trip_value trips).

(** Reading a runtime value at a TypeScript type: what typed code sees when
    it reads the declared fields.  An optional field reads as absent when the
    property is missing or [undefined]. *)
Definition as_string (v : value) : option string :=
  match v with VString s => Some s | _ => None end.

(** A coordinate is read as a finite number; the negative zero reads as
    zero, which it equals. *)
Definition as_number (v : value) : option double :=
  match v with
  | VNumber (Finite d) => Some d
  | VNumber NegativeZero => Some 0
  | _ => None
  end.

Definition as_Date (v : value) : option Date :=
  match v with VDate (Some t) => Some t | _ => None end.

Definition as_optional {A} (f : value -> option A) (v : value) : option (option A) :=
  match v with
  | VUndefined => Some None
  | _ => match f v with Some a => Some (Some a) | None => None end
  end.

Definition as_Location (v : value) : option Location :=
  match v with
  | VObject p =>
      la ← as_number (obj_get "lat" p);
      ln ← as_number (obj_get "lng" p);
      ad ← as_string (obj_get "address" p);
      Some {| lat := la; lng := ln; address := ad |}
  | _ => None
  end.

Definition as_ActivityType (v : value) : option ActivityType :=
  match v with
  | VString s =>
      if String.eqb s "restaurant" then Some restaurant
      else if String.eqb s "tour" then Some tour
      else if String.eqb s "attraction" then Some attraction
      else if String.eqb s "other" then Some other
      else None
  | _ => None
  end.

Definition as_BaseItem (p : list (string * value)) : option BaseItem :=
  i ← as_string (obj_get "id" p);
  t ← as_string (obj_get "tripId" p);
  sd ← as_Date (obj_get "startDate" p);
  ed ← as_optional as_Date (obj_get "endDate" p);
  n ← as_optional as_string (obj_get "notes" p);
  Some {| id := i; tripId := t; startDate := sd; endDate := ed; notes := n |}.

Definition as_Flight (p : list (string * value)) : option Flight :=
  b ← as_BaseItem p;
  o ← as_Location (obj_get "origin" p);
  d ← as_Location (obj_get "destination" p);
  dt ← as_Date (obj_get "departureTime" p);
  at_ ← as_Date (obj_get "arrivalTime" p);
  al ← as_optional as_string (obj_get "airline" p);
  fn ← as_optional as_string (obj_get "flightNumber" p);
  cn ← as_optional as_string (obj_get "confirmationNumber" p);
  Some {| flight_base := b; origin := o; destination := d; departureTime := dt;
          arrivalTime := at_; airline := al; flightNumber := fn;
          confirmationNumber := cn |}.

Definition as_Accommodation (p : list (string * value)) : option Accommodation :=
  b ← as_BaseItem p;
  n ← as_string (obj_get "name" p);
  l ← as_Location (obj_get "location" p);
  ci ← as_Date (obj_get "checkIn" p);
  co ← as_Date (obj_get "checkOut" p);
  br ← as_optional as_string (obj_get "bookingReference" p);
  Some {| accommodation_base := b; accommodation_name := n; accommodation_location := l;
          checkIn := ci; checkOut := co; bookingReference := br |}.

Definition as_Activity (p : list (string * value)) : option Activity :=
  b ← as_BaseItem p;
  n ← as_string (obj_get "name" p);
  l ← as_Location (obj_get "location" p);
  ty ← as_ActivityType (obj_get "activityType" p);
  tm ← as_optional as_string (obj_get "time" p);
  Some {| activity_base := b; activity_name := n; activity_location := l;
          activityType := ty; time := tm |}.

(** The variant is chosen by the discriminant [type]. *)
Definition as_Item (v : value) : option ItineraryItem :=
  match v with
  | VObject p =>
      if is_string (obj_get "type" p) "flight" then f ← as_Flight p; Some (IFlight f)
      else if is_string (obj_get "type" p) "accommodation"
           then a ← as_Accommodation p; Some (IAccommodation a)
      else if is_string (obj_get "type" p) "activity"
           then a ← as_Activity p; Some (IActivity a)
      else None
  | _ => None
  end.

Fixpoint as_all {A} (f : value -> option A) (l : list value) : option (list A) :=
  match l with
  | [] => Some []
  | v :: l' =>
      match f v, as_all f l' with
      | Some a, Some l'' => Some (a :: l'')
      | _, _ => None
      end
  end.

Definition as_array {A} (f : value -> option A) (v : value) : option (list A) :=
  match v with
  | VArray l => as_all f l
  | _ => None
  end.

Definition as_Trip (v : value) : option Trip :=
  match v with
  | VObject p =>
      i ← as_string (obj_get "id" p);
      n ← as_string (obj_get "name" p);
      sd ← as_Date (obj_get "startDate" p);
      ed ← as_Date (obj_get "endDate" p);
      its ← as_array as_Item (obj_get "items" p);
      ca ← as_Date (obj_get "createdAt" p);
      ua ← as_Date (obj_get "updatedAt" p);
      Some {| trip_id := i; trip_name := n; trip_startDate := sd; trip_endDate := ed;
              items := its; createdAt := ca; updatedAt := ua |}
  | _ => None
  end.

Definition as_Trips (v : value) : option (list Trip) := as_array as_Trip v.

(** Well-formed trips, as far as the codec needs it: every timestamp is a
    valid time value, and every coordinate is a double (the whole numbers
    that are not doubles stand for no JS number). *)
Definition wf_Location (l : Location) : Prop :=
  is_double (lat l) = true /\ is_double (lng l) = true.

Definition validOptTime (o : option Date) : Prop :=
  match o with Some t => validTime t | None => True end.

Definition wf_BaseItem (b : BaseItem) : Prop :=
  validTime (startDate b) /\ validOptTime (endDate b).

Definition wf_Item (item : ItineraryItem) : Prop :=
  wf_BaseItem (item_base item) /\
  match item with
  | IFlight f =>
      validTime (departureTime f) /\ validTime (arrivalTime f) /\
      wf_Location (origin f) /\ wf_Location (destination f)
  | IAccommodation a =>
      validTime (checkIn a) /\ validTime (checkOut a) /\
      wf_Location (accommodation_location a)
  | IActivity a => wf_Location (activity_location a)
  end.

Definition wf_Trip (t : Trip) : Prop :=
  validTime (trip_startDate t) /\ validTime (trip_endDate t) /\
  validTime (createdAt t) /\ validTime (updatedAt t) /\
  Forall wf_Item (items t).

Definition wf_Trips (trips : list Trip) : Prop := Forall wf_Trip trips.

(* ===================================================================== *)
(** * storage *)
(* ===================================================================== *)

Definition STORAGE_KEY : string := "trip-visualizer-data".

(** The replacer of [serializeTrips]:
    [if (value instanceof Date) return value.toISOString(); return value;] *)
Definition dateReplacer (key : string) (v : value) : result value :=
  match v with
  | VDate tv => s <- Date_toISOString tv ;; Ok (VString s)
  | _ => Ok v
  end.

(** [serializeTrips] *)
Definition serializeTrips (trips : list Trip) : result value :=
  JSON_stringify (Trips_value trips) dateReplacer.

(** [new Date(obj.k)] *)
Definition new_Date_of (obj : value) (k : string) : result value :=
  v <- Get obj k ;; new_Date v.

(** The callback of [trip.items.map] in [deserializeTrips]. *)
Definition reviveItem (item : value) : result value :=
  startDate' <- new_Date_of item "startDate" ;;
  endDate' <- (v <- Get item "endDate" ;;
               if ToBoolean v then new_Date_of item "endDate" else Ok VUndefined) ;;
  let baseItem := obj_assign (spread item) [("startDate", startDate'); ("endDate", endDate')] in
  type <- Get item "type" ;;
  if is_string type "flight" then
    departureTime' <- new_Date_of item "departureTime" ;;
    arrivalTime' <- new_Date_of item "arrivalTime" ;;
    Ok (VObject (obj_assign baseItem
                   [("departureTime", departureTime'); ("arrivalTime", arrivalTime')]))
  else if is_string type "accommodation" then
    checkIn' <- new_Date_of item "checkIn" ;;
    checkOut' <- new_Date_of item "checkOut" ;;
    Ok (VObject (obj_assign baseItem [("checkIn", checkIn'); ("checkOut", checkOut')]))
  else Ok (VObject baseItem).

(** The callback of [parsed.map] in [deserializeTrips]. *)
Definition reviveTrip (trip : value) : result value :=
  startDate' <- new_Date_of trip "startDate" ;;
  endDate' <- new_Date_of trip "endDate" ;;
  createdAt' <- new_Date_of trip "createdAt" ;;
  updatedAt' <- new_Date_of trip "updatedAt" ;;
  items' <- (v <- Get trip "items" ;; Array_map reviveItem v) ;;
  Ok (VObject (obj_assign (spread trip)
                 [("startDate", startDate'); ("endDate", endDate');
                  ("createdAt", createdAt'); ("updatedAt", updatedAt');
                  ("items", items')])).

(** [deserializeTrips] *)
Definition deserializeTrips (data : string) : result value :=
  parsed <- JSON_parse data ;;
  Array_map reviveTrip parsed.

(** The [try] block of [saveTrips]. *)
Definition saveTrips_try (trips : list Trip) (w : World) : result World :=
  serialized <- serializeTrips trips ;;
  localStorage_setItem STORAGE_KEY serialized w.

(** [saveTrips]: the [catch] block reports the failure. *)
Definition saveTrips (trips : list Trip) (w : World) : World :=
  match saveTrips_try trips w with
  | Ok w' => w'
  | Throw error =>
      let w1 := console_error "Failed to save trips to localStorage:" error w in
      if instanceof_DOMException error && String.eqb (error_name error) "QuotaExceededError"
      then alert "Storage quota exceeded. Please delete some trips to free up space." w1
      else w1
  end.

(** The [try] block of [loadTrips]; [!data] holds for [null] and for the
    empty string. *)
Definition loadTrips_try (w : World) : result value :=
  data <- localStorage_getItem STORAGE_KEY w ;;
  match data with
  | None => Ok (VArray [])
  | Some text => if String.eqb text "" then Ok (VArray []) else deserializeTrips text
  end.

(** [loadTrips]: the [catch] block logs the error and returns [[]]. *)
Definition loadTrips (w : World) : value * World :=
  match loadTrips_try w with
  | Ok trips => (trips, w)
  | Throw error =>
      (VArray [], console_error "Failed to load trips from localStorage:" error w)
  end.

(** [clearStorage] *)
Definition clearStorage (w : World) : World :=
  match localStorage_removeItem STORAGE_KEY w with
  | Ok w' => w'
  | Throw error => console_error "Failed to clear localStorage:" error w
  end.

(** [if (tripId)] on a string or [null]: the empty string is falsy, like
    [null]. *)
Definition truthy (tripId : option string) : bool :=
  match tripId with
  | Some s => negb (String.eqb s "")
  | None => false
  end.

(** [saveCurrentTripId]; [tripId] is a string or [null] ([None]). *)
Definition saveCurrentTripId (tripId : option string) (w : World) : World :=
  match (match tripId with
         | Some s => if truthy tripId
                     then localStorage_setItem "current-trip-id" (VString s) w
                     else localStorage_removeItem "current-trip-id" w
         | None => localStorage_removeItem "current-trip-id" w
         end) with
  | Ok w' => w'
  | Throw error => console_error "Failed to save current trip ID:" error w
  end.

(** [loadCurrentTripId] *)
Definition loadCurrentTripId (w : World) : option string * World :=
  match localStorage_getItem "current-trip-id" w with
  | Ok r => (r, w)
  | Throw error => (None, console_error "Failed to load current trip ID:" error w)
  end.

(* ===================================================================== *)
(** * The JSON form of typed trips *)
(* ===================================================================== *)

(** The items of a trip, as [JSON.parse] returns them. *)
Definition Items_json (l : list ItineraryItem) : list value :=
  map (fun item => dehydrate (Item_value item)) l.

(** The JSON form of a trip. *)
Definition Trip_json (t : Trip) : value :=
  VObject [("id", VString (trip_id t)); ("name", VString (trip_name t));
           ("startDate", VString (toISOString (trip_startDate t)));
           ("endDate", VString (toISOString (trip_endDate t)));
           ("items", VArray (Items_json (items t)));
           ("createdAt", VString (toISOString (createdAt t)));
           ("updatedAt", VString (toISOString (updatedAt t)))].

Definition Trips_json (trips : list Trip) : value := VArray (map Trip_json trips).

(** The text that [saveTrips] stores. *)
Definition storedText (trips : list Trip) : string := JSON_text (Trips_json trips).


(* ===================================================================== *)
(** * A sample itinerary *)
(* ===================================================================== *)

(** The double that a number literal denotes (zero when the text is not
    the literal of a finite number). *)
Definition degrees (literal : string) : double :=
  match parse_literal literal with
  | Some (Finite d, EmptyString) => d
  | _ => 0
  end.

(** The scenario of the specification: the trip "Japan 2024", a flight from
    NRT to HND on 2024-04-01 from 08:00Z to 18:00Z, and the activity "Shibuya
    Crossing" on 2024-04-02 at 10:00Z; a hotel is added to it. *)
Definition NRT : Location :=
  {| lat := degrees "35.7720"; lng := degrees "140.3929"; address := "Narita" |}.
Definition HND : Location :=
  {| lat := degrees "35.5494"; lng := degrees "139.7798"; address := "Haneda" |}.
Definition Shibuya : Location :=
  {| lat := degrees "35.6595"; lng := degrees "139.7005"; address := "Shibuya" |}.

Definition sampleFlight : ItineraryItem :=
  IFlight {| flight_base := {| id := "i1"; tripId := "t1"; startDate := 1711958400000;
                               endDate := Some 1711994400000; notes := None |};
             origin := NRT; destination := HND;
             departureTime := 1711958400000; arrivalTime := 1711994400000;
             airline := Some "JAL"; flightNumber := None; confirmationNumber := None |}.

Definition shibuyaCrossing : Activity :=
  {| activity_base := {| id := "i2"; tripId := "t1"; startDate := 1712052000000;
                         endDate := None; notes := Some "at dusk" |};
     activity_name := "Shibuya Crossing"; activity_location := Shibuya;
     activityType := attraction; time := None |}.

Definition sampleActivity : ItineraryItem := IActivity shibuyaCrossing.

Definition sampleHotel : ItineraryItem :=
  IAccommodation {| accommodation_base := {| id := "i3"; tripId := "t1";
                                             startDate := 1711958400000;
                                             endDate := None; notes := None |};
                    accommodation_name := "Hotel"; accommodation_location := Shibuya;
                    checkIn := 1711958400000; checkOut := 1712052000000;
                    bookingReference := None |}.

Definition japan2024 : Trip :=
  {| trip_id := "t1"; trip_name := "Japan 2024";
     trip_startDate := 1711929600000; trip_endDate := 1712707200000;
     items := [sampleFlight; sampleActivity; sampleHotel];
     createdAt := 1711900000000; updatedAt := 1711900000123 |}.

(** A store with room, and a store that is full. *)
Definition emptyWorld : World :=
  {| localStorage := ∅; quota := 5000000; console := []; alerts := [] |}.

Definition fullWorld : World :=
  {| localStorage := {[ STORAGE_KEY := "[]" ]}; quota := 30; console := []; alerts := [] |}.
(* ===================================================================== *)
(** * A store with a trip that cannot be revived *)
(* ===================================================================== *)

(** A stored trip that has no [items]: a record cut short. *)
Definition tripWithoutItems : value :=
  VObject [("id", VString "t2"); ("name", VString "Draft")].

(** A store that holds the sample trip followed by the trip without items. *)
Definition goodAndBadText : string :=
  JSON_text (VArray [Trip_json japan2024; tripWithoutItems]).

Definition goodAndBadWorld : World :=
  {| localStorage := {[ STORAGE_KEY := goodAndBadText ]}; quota := 5000000;
     console := []; alerts := [] |}.

(* ===================================================================== *)
(** * A location whose latitude is any number *)
(* ===================================================================== *)



(* ===================================================================== *)
(** * Runtime: fetch, trim *)
(* ===================================================================== *)

(** The white space of [String.prototype.trim], among the 8-bit code units:
    tab, line feed, vertical tab, form feed, carriage return, space and
    no-break space. *)
Definition is_space (c : ascii) : bool :=
  match c with
  | "009"%char | "010"%char | "011"%char | "012"%char | "013"%char
  | " "%char | "160"%char => true
  | _ => false
  end.

Fixpoint trimStart (s : string) : string :=
  match s with
  | String c r => if is_space c then trimStart r else s
  | EmptyString => EmptyString
  end.

Fixpoint trimEnd (s : string) : string :=
  match s with
  | EmptyString => EmptyString
  | String c r =>
      match trimEnd r with
      | EmptyString => if is_space c then EmptyString else String c EmptyString
      | r' => String c r'
      end
  end.

Definition trim (s : string) : string := trimEnd (trimStart s).

(** Empty, or white space only. *)
Fixpoint whitespace_only (s : string) : bool :=
  match s with
  | EmptyString => true
  | String c r => is_space c && whitespace_only r
  end.

(** An outbound request and the response to it, as far as the gateway reads
    it: [response.ok], [response.statusText] and the outcome of
    [response.json()]. *)
Record Request := {
  url : string;
  searchParams : list (string * string);
  headers : list (string * string)
}.

Record Response := {
  ok : bool;
  statusText : string;
  json : result value
}.

(** [v.length] and [v[0]] on a value read from JSON. *)
Definition Get_length (v : value) : value :=
  match v with
  | VArray elems => VNumber (Finite (of_integer (Z.of_nat (length elems))))
  | VString s => VNumber (Finite (of_integer (Z.of_nat (String.length s))))
  | VObject props => obj_get "length" props
  | _ => VUndefined
  end.

Definition Get_first (v : value) : value :=
  match v with
  | VArray elems => match elems with e :: _ => e | [] => VUndefined end
  | VString s => match s with String c _ => VString (String c EmptyString) | EmptyString => VUndefined end
  | VObject props => obj_get "0" props
  | _ => VUndefined
  end.

(** [v === 0] *)
Definition is_zero (v : value) : bool :=
  match v with
  | VNumber (Finite d) => d =? 0
  | VNumber NegativeZero => true
  | _ => false
  end.

(* ===================================================================== *)
(** * geocoding: geocodeAddress *)
(* ===================================================================== *)

Definition NOMINATIM_API : string := "https://nominatim.openstreetmap.org".
Definition USER_AGENT : string := "TripVisualizerApp/1.0".

Definition EMPTY_ADDRESS : string := "Address cannot be empty".
Definition NOT_FOUND : string := "Address not found. Please try a different address format.".

(** [try { body } catch (error) { handler }] *)
Definition try_catch {A} (body : result A) (handler : thrown -> result A) : result A :=
  match body with
  | Ok a => Ok a
  | Throw error => handler error
  end.

(** The request of [geocodeAddress] for an address. *)
Definition searchRequest (address : string) : Request :=
  {| url := NOMINATIM_API ++ "/search";
     searchParams := [("q", address); ("format", "json"); ("limit", "1")];
     headers := [("User-Agent", USER_AGENT)] |}.

Section GeocodeAddress.
(** The environment: [parseFloat], whose result is any number, [NaN]
    included, and what the network answers to a request ([fetch] rejects on
    a network failure). *)
Variable parseFloat : value -> result number.
Variable fetch : Request -> result Response.

(** [geocodeAddress].  The wait for the rate limiter, which only delays the
    request, is left to the timed model below. *)
Definition geocodeAddress (address : string) : result value :=
  if String.eqb address "" || String.eqb (trim address) ""
  then Throw (new_Error EMPTY_ADDRESS)
  else
    try_catch
      (response <- fetch (searchRequest address) ;;
       if negb (ok response)
       then Throw (new_Error ("Geocoding failed: " ++ statusText response))
       else
         data <- json response ;;
         if negb (ToBoolean data) || is_zero (Get_length data)
         then Throw (new_Error NOT_FOUND)
         else
           let result := Get_first data in
           lat' <- (v <- Get result "lat" ;; parseFloat v) ;;
           lng' <- (v <- Get result "lon" ;; parseFloat v) ;;
           address' <- Get result "display_name" ;;
           Ok (VObject [("lat", VNumber lat'); ("lng", VNumber lng');
                        ("address", address')]))
      (fun error =>
         if instanceof_Error error
         then Throw (new_Error ("Geocoding error: " ++ error_message error))
         else Throw (new_Error "Failed to geocode address")).
End GeocodeAddress.

(** The three failure conditions of the gateway, as a caller can tell them
    apart from the message of the error. *)
Inductive GeocodingFailure := EmptyAddress | AddressNotFound | TransportFailure.

Definition classify (e : thrown) : GeocodingFailure :=
  if String.eqb (error_message e) EMPTY_ADDRESS then EmptyAddress
  else if String.eqb (error_message e) ("Geocoding error: " ++ NOT_FOUND) then AddressNotFound
  else TransportFailure.

(* ===================================================================== *)
(** * geocoding: the rate limiter in time *)
(* ===================================================================== *)

Definition MIN_REQUEST_INTERVAL : Z := 1000.

(** The gateway in the event loop: the clock ([Date.now()]), the module
    variable [lastRequestTime], the callers suspended in [setTimeout] with
    the time at which each one resumes, and the outbound requests issued so
    far with their time. *)
Record Gateway := {
  now : Z;
  lastRequestTime : Z;
  timers : list (Z * nat);
  requests : list (Z * nat)
}.

(** The end of [waitForRateLimit], [lastRequestTime = Date.now()], after
    which [geocodeAddress] issues its request. *)
Definition waitForRateLimit_resume (caller : nat) (g : Gateway) : Gateway :=
  {| now := now g; lastRequestTime := now g; timers := timers g;
     requests := push (requests g) (now g, caller) |}.

(** [setTimeout(resolve, delay)]: the caller resumes [delay] milliseconds
    from now; timers are kept in the order in which they fire. *)
Definition setTimeout (caller : nat) (delay : Z) (g : Gateway) : Gateway :=
  {| now := now g; lastRequestTime := lastRequestTime g;
     timers := Array_sort (by_key fst) (push (timers g) (now g + delay, caller));
     requests := requests g |}.

(** [waitForRateLimit], up to its [await]: called by [caller] at the
    current time. *)
Definition waitForRateLimit (caller : nat) (g : Gateway) : Gateway :=
  let timeSinceLastRequest := now g - lastRequestTime g in
  if timeSinceLastRequest <? MIN_REQUEST_INTERVAL
  then setTimeout caller (MIN_REQUEST_INTERVAL - timeSinceLastRequest) g
  else waitForRateLimit_resume caller g.

(** The timers that are due fire in order, each at its time. *)
Fixpoint fire (t : Z) (pending : list (Z * nat)) (g : Gateway) : Gateway :=
  match pending with
  | [] => g
  | (due, caller) :: rest =>
      if due <=? t
      then fire t rest
             (waitForRateLimit_resume caller
                {| now := Z.max (now g) due; lastRequestTime := lastRequestTime g;
                   timers := rest; requests := requests g |})
      else g
  end.

(** Time passes: [d] milliseconds later. *)
Definition elapse (d : Z) (g : Gateway) : Gateway :=
  let t := now g + d in
  let g' := fire t (timers g) g in
  {| now := Z.max (now g') t; lastRequestTime := lastRequestTime g';
     timers := timers g'; requests := requests g' |}.

Inductive event :=
| Call (caller : nat)
| Elapse (d : Z).

Definition step (g : Gateway) (e : event) : Gateway :=
  match e with
  | Call caller => waitForRateLimit caller g
  | Elapse d => elapse d g
  end.

Definition run (events : list event) (g : Gateway) : Gateway := fold_left step events g.

(** No two consecutive requests within the minimum interval. *)
Fixpoint spaced (times : list Z) : Prop :=
  match times with
  | [] => True
  | t :: rest =>
      match rest with
      | [] => True
      | t' :: _ => MIN_REQUEST_INTERVAL <= t' - t /\ spaced rest
      end
  end.

(** The page has been open for five seconds and no request was made yet. *)
Definition idleGateway : Gateway :=
  {| now := 5000; lastRequestTime := 0; timers := []; requests := [] |}.

(** One caller, then two more while the first request is less than a second
    old. *)
Definition threeCallers : list event :=
  [Call 1; Elapse 100; Call 2; Elapse 100; Call 3; Elapse 1000].

(** Callers come one at a time: a call arrives only when no earlier caller
    is still waiting; time never goes backwards. *)
Fixpoint sequential (events : list event) (g : Gateway) : Prop :=
  match events with
  | [] => True
  | e :: rest =>
      match e with
      | Call _ => timers g = []
      | Elapse d => 0 <= d
      end /\ sequential rest (step g e)
  end.

(** The state of a gateway that serves one caller at a time: the requests
    made so far are spaced and none is later than [lastRequestTime], which is
    not in the future; at most one caller waits, and it resumes no sooner
    than the minimum interval after the last request. *)
Definition gateway_ok (g : Gateway) : Prop :=
  lastRequestTime g <= now g /\
  spaced (map fst (requests g)) /\
  Forall (fun r => fst r <= lastRequestTime g) (requests g) /\
  (length (timers g) <= 1)%nat /\
  Forall (fun tm => lastRequestTime g + MIN_REQUEST_INTERVAL <= fst tm) (timers g).
(* ===================================================================== *)
(** * geocoding: reverseGeocode *)
(* ===================================================================== *)

Definition NO_ADDRESS : string := "Unable to find address for coordinates".

(** The request of [reverseGeocode] for a pair of coordinates. *)
Definition reverseRequest (lat lng : number) : Request :=
  {| url := NOMINATIM_API ++ "/reverse";
     searchParams := [("lat", Number_prototype_toString lat);
                      ("lon", Number_prototype_toString lng);
                      ("format", "json")];
     headers := [("User-Agent", USER_AGENT)] |}.

Section ReverseGeocode.
Variable fetch : Request -> result Response.

(** [reverseGeocode]; as for [geocodeAddress], the wait for the rate limiter
    is left to the timed model.  [!data || !data.display_name] reads
    [display_name] only when [data] is truthy. *)
Definition reverseGeocode (lat lng : number) : result value :=
  try_catch
    (response <- fetch (reverseRequest lat lng) ;;
     if negb (ok response)
     then Throw (new_Error ("Reverse geocoding failed: " ++ statusText response))
     else
       data <- json response ;;
       missing <- (if negb (ToBoolean data) then Ok true
                   else display_name <- Get data "display_name" ;;
                        Ok (negb (ToBoolean display_name))) ;;
       if missing : bool
       then Throw (new_Error NO_ADDRESS)
       else Get data "display_name")
    (fun error =>
       if instanceof_Error error
       then Throw (new_Error ("Reverse geocoding error: " ++ error_message error))
       else Throw (new_Error "Failed to reverse geocode coordinates")).
End ReverseGeocode.

(* ===================================================================== *)
(** * geocoding: the rate limiter under any callers *)
(* ===================================================================== *)

(** The callers of a run, in the order of their calls. *)
Fixpoint callers (events : list event) : list nat :=
  match events with
  | [] => []
  | Call caller :: rest => caller :: callers rest
  | Elapse _ :: rest => callers rest
  end.

(** Time does not go backwards. *)
Definition forward (events : list event) : Prop :=
  Forall (fun e => match e with Elapse d => 0 <= d | Call _ => True end) events.

(** What holds of the gateway whatever the callers do: [lastRequestTime] is
    not in the future, and every suspended caller resumes at most the
    minimum interval after it. *)
Definition resumes_by (last : Z) (pending : list (Z * nat)) : Prop :=
  Forall (fun tm => fst tm <= last + MIN_REQUEST_INTERVAL) pending.

Definition gateway_live (g : Gateway) : Prop :=
  lastRequestTime g <= now g /\ resumes_by (lastRequestTime g) (timers g).

(** Who has been served and who is waiting. *)
Definition served (g : Gateway) : list nat := map snd (requests g).
Definition waiting (g : Gateway) : list nat := map snd (timers g).

(* ===================================================================== *)
(** * Itinerary helpers: generateId *)
(* ===================================================================== *)

(** [s.substr(start, length)] for a start within the string or at its end:
    the at most [length] characters from index [start] on. *)
Definition substr (start length : nat) (s : string) : string :=
  String.substring start length s.

(** [generateId]: the template literal
    [`${Date.now()}-${Math.random().toString(36).substr(2, 9)}`].  The clock
    and the random source are the environment: [timestamp] is what
    [Date.now()] returns and [random36] is the text that
    [Math.random().toString(36)] returns (["0."] followed by digits in base
    36, or ["0"]). *)
Definition generateId (timestamp : Z) (random36 : string) : string :=
  Number_toString timestamp ++ "-" ++ substr 2 9 random36.

(* ===================================================================== *)
(** * A trip with an Invalid Date *)
(* ===================================================================== *)

(** The trip [t] as a runtime value, its [startDate] being the Invalid Date
    (what [new Date(text)] gives for a text that is not a date). *)
Definition Trip_value_undated (t : Trip) : value :=
  VObject [("id", VString (trip_id t)); ("name", VString (trip_name t));
           ("startDate", VDate None);
           ("endDate", Date_value (trip_endDate t));
           ("items", VArray (map Item_value (items t)));
           ("createdAt", Date_value (createdAt t));
           ("updatedAt", Date_value (updatedAt t))].


(* ===================================================================== *)
(** * Facts about Array.prototype.sort *)
(* ===================================================================== *)

Section ArraySortFacts.
Context {A : Type} (key : A -> Z).

Local Abbreviation by_key := (by_key key).
Local Abbreviation key_le := (key_le key).

Lemma sort_insert_perm (cmp : A -> A -> Z) x l :
  Permutation (sort_insert cmp x l) (x :: l).
Proof.
  induction l as [|y l IH]; simpl.
  - reflexivity.
  - destruct (cmp x y <=? 0).
    + reflexivity.
    + rewrite IH. apply perm_swap.
Qed.

Lemma Array_sort_perm (cmp : A -> A -> Z) l :
  Permutation (Array_sort cmp l) l.
Proof.
  induction l as [|x l IH]; simpl.
  - reflexivity.
  - rewrite sort_insert_perm. now constructor.
Qed.

Lemma Array_sort_length (cmp : A -> A -> Z) l :
  length (Array_sort cmp l) = length l.
Proof. apply Permutation_length, Array_sort_perm. Qed.

Lemma sort_insert_In (cmp : A -> A -> Z) x l a :
  In a (sort_insert cmp x l) <-> a = x \/ In a l.
Proof.
  split; intros H.
  - apply (Permutation_in _ (sort_insert_perm cmp x l)) in H.
    destruct H; auto.
  - apply (Permutation_in _ (Permutation_sym (sort_insert_perm cmp x l))).
    destruct H; [left; congruence | right; assumption].
Qed.

Lemma sort_insert_sorted x l :
  StronglySorted key_le l -> StronglySorted key_le (sort_insert by_key x l).
Proof.
  induction 1 as [|y l Hl IH Hy]; simpl.
  - repeat constructor.
  - unfold by_key at 1. destruct (Z.leb_spec (key x - key y) 0) as [Hle|Hgt].
    + constructor; [constructor; assumption|].
      constructor; [unfold key_le; lia|].
      rewrite Forall_forall in Hy |- *. intros z Hz.
      specialize (Hy z Hz). unfold key_le in *. lia.
    + constructor; [assumption|].
      rewrite Forall_forall in Hy |- *. intros z Hz.
      apply sort_insert_In in Hz. destruct Hz as [->|Hz].
      * unfold key_le. lia.
      * now apply Hy.
Qed.

Lemma Array_sort_sorted l : StronglySorted key_le (Array_sort by_key l).
Proof.
  induction l as [|x l IH]; simpl.
  - constructor.
  - now apply sort_insert_sorted.
Qed.

(** Stability: elements with equal keys keep their relative order. *)
Lemma sort_insert_stable k x l :
  List.filter (fun a => key a =? k) (sort_insert by_key x l)
  = List.filter (fun a => key a =? k) (x :: l).
Proof.
  induction l as [|y l IH]; [reflexivity|].
  cbn [sort_insert]. unfold by_key at 1.
  destruct (Z.leb_spec (key x - key y) 0) as [Hle|Hgt]; [reflexivity|].
  cbn [List.filter] in *. rewrite IH.
  destruct (Z.eqb_spec (key x) k), (Z.eqb_spec (key y) k); try reflexivity; lia.
Qed.

Lemma Array_sort_stable k l :
  List.filter (fun a => key a =? k) (Array_sort by_key l)
  = List.filter (fun a => key a =? k) l.
Proof.
  induction l as [|x l IH]; [reflexivity|].
  cbn [Array_sort fold_right]. fold (Array_sort by_key l).
  rewrite sort_insert_stable. cbn [List.filter]. now rewrite IH.
Qed.

(** Inserting in front of a list whose keys are all at least [key x]. *)
Lemma sort_insert_front x l :
  Forall (key_le x) l -> sort_insert by_key x l = x :: l.
Proof.
  destruct l as [|y l]; [reflexivity|].
  intros H. inversion H as [|? ? Hy _]; subst. simpl. unfold by_key, key_le in *.
  destruct (Z.leb_spec (key x - key y) 0); [reflexivity | lia].
Qed.

(** Filtering commutes with the stable sort. *)
Lemma sort_insert_filter (p : A -> bool) x l :
  StronglySorted key_le l ->
  List.filter p (sort_insert by_key x l)
  = if p x then sort_insert by_key x (List.filter p l) else List.filter p l.
Proof.
  induction 1 as [|y l Hl IH Hy].
  - simpl. now destruct (p x).
  - cbn [sort_insert]. unfold by_key at 1.
    destruct (Z.leb_spec (key x - key y) 0) as [Hle|Hgt].
    + destruct (p x) eqn:Hx.
      * rewrite sort_insert_front.
        -- cbn [List.filter]. now rewrite Hx.
        -- rewrite Forall_forall in Hy |- *. intros z Hz.
           apply filter_In in Hz. destruct Hz as [[->|Hz] _].
           ++ unfold key_le. lia.
           ++ specialize (Hy z Hz). unfold key_le in *. lia.
      * cbn [List.filter]. now rewrite Hx.
    + cbn [List.filter]. rewrite IH.
      destruct (p x), (p y); try reflexivity.
      cbn [sort_insert]. unfold by_key at 2.
      destruct (Z.leb_spec (key x - key y) 0); [lia | reflexivity].
Qed.

Lemma Array_sort_filter (p : A -> bool) l :
  List.filter p (Array_sort by_key l) = Array_sort by_key (List.filter p l).
Proof.
  induction l as [|x l IH]; [reflexivity|].
  cbn [Array_sort fold_right]. fold (Array_sort by_key l).
  rewrite sort_insert_filter by apply Array_sort_sorted.
  cbn [List.filter]. destruct (p x); [|assumption].
  cbn [Array_sort fold_right]. fold (Array_sort by_key (List.filter p l)).
  now rewrite IH.
Qed.
End ArraySortFacts.

(* ===================================================================== *)
(** * Itinerary helpers: locations, bounds, route *)
(* ===================================================================== *)

Lemma fold_push_flat_map {A B} (f : A -> list B) (step : list B -> A -> list B)
    (Hstep : forall acc a, step acc a = acc ++ f a) (l : list A) (acc : list B) :
  fold_left step l acc = acc ++ flat_map f l.
Proof.
  revert acc. induction l as [|a l IH]; intros acc; simpl.
  - now rewrite app_nil_r.
  - rewrite IH, Hstep. now rewrite <- app_assoc.
Qed.

Lemma getAllLocations_flat_map items :
  getAllLocations items = flat_map locationsOf items.
Proof.
  unfold getAllLocations.
  rewrite (fold_push_flat_map locationsOf); [reflexivity|].
  intros acc [f|a|a]; unfold push; simpl; now rewrite <- ?app_assoc.
Qed.

Lemma count_type_cons type item items :
  count_type type (item :: items)
  = ((if ItemType_eqb (item_type item) type then 1 else 0) + count_type type items)%nat.
Proof.
  unfold count_type, filterItemsByType. simpl.
  now destruct (ItemType_eqb (item_type item) type).
Qed.

(** C6 — [getAllLocations] yields, in input item order, the origin then the
    destination of each Flight and the one Location of each Accommodation and
    each Activity; its length is twice the number of flights plus the number
    of accommodations plus the number of activities. *)
Theorem getAllLocations_spec (items : list ItineraryItem) :
  getAllLocations items = flat_map locationsOf items /\
  (forall f, locationsOf (IFlight f) = [origin f; destination f]) /\
  (forall a, locationsOf (IAccommodation a) = [accommodation_location a]) /\
  (forall a, locationsOf (IActivity a) = [activity_location a]) /\
  length (getAllLocations items)
  = (2 * count_type flight items + count_type accommodation items
     + count_type activity items)%nat.
Proof.
  split; [apply getAllLocations_flat_map|].
  repeat (split; [reflexivity|]).
  rewrite getAllLocations_flat_map.
  induction items as [|item items IH]; [reflexivity|].
  cbn [flat_map]. rewrite length_app, IH, !count_type_cons.
  destruct item; simpl; lia.
Qed.

(** ** Bounds *)

Lemma fold_extend_covers (locs : list Location) (b : LatLngBounds) :
  let r := fold_left (fun bounds loc => extend bounds (lat loc, lng loc)) locs b in
  inside b r /\ forall loc, In loc locs -> covers r loc.
Proof.
  revert b. induction locs as [|l locs IH]; intros b; cbn [fold_left].
  - split; [unfold inside; lia | intros ? []].
  - destruct (IH (extend b (lat l, lng l))) as [Hin Hcov]. split.
    + unfold inside, extend in *; simpl in *. lia.
    + intros loc [<-|Hloc]; [|now apply Hcov].
      unfold covers, inside, extend in *; simpl in *. lia.
Qed.

Lemma fold_extend_least (locs : list Location) (b b' : LatLngBounds) :
  inside b b' -> (forall loc, In loc locs -> covers b' loc) ->
  inside (fold_left (fun bounds loc => extend bounds (lat loc, lng loc)) locs b) b'.
Proof.
  revert b. induction locs as [|l locs IH]; intros b Hb Hcov; cbn [fold_left].
  - assumption.
  - apply IH; [|intros; apply Hcov; now right].
    specialize (Hcov l (or_introl eq_refl)).
    unfold covers, inside, extend in *; simpl in *. lia.
Qed.

(** C7 — [calculateTripBounds] is absent exactly when [getAllLocations] is
    empty; otherwise it is the least latitude/longitude rectangle covering
    every yielded location (it covers them all and lies inside every
    rectangle that does); for a single location [loc] it is the degenerate
    box with min = max = [loc]. *)
Theorem calculateTripBounds_spec (items : list ItineraryItem) :
  (calculateTripBounds items = None <-> getAllLocations items = []) /\
  (forall b, calculateTripBounds items = Some b ->
     (forall loc, In loc (getAllLocations items) -> covers b loc) /\
     (forall b', (forall loc, In loc (getAllLocations items) -> covers b' loc) ->
                 inside b b')) /\
  (forall loc, getAllLocations items = [loc] ->
     calculateTripBounds items
     = Some {| south := lat loc; west := lng loc; north := lat loc; east := lng loc |}).
Proof.
  unfold calculateTripBounds.
  destruct (getAllLocations items) as [|loc0 locs] eqn:Hlocs.
  - split; [tauto|]. split; [discriminate|]. discriminate.
  - split; [split; discriminate|]. split.
    + intros b [= <-]. split.
      * apply (fold_extend_covers (loc0 :: locs)).
      * intros b' Hcov. apply (fold_extend_least (loc0 :: locs)); [|exact Hcov].
        specialize (Hcov loc0 (or_introl eq_refl)).
        unfold covers, inside, new_LatLngBounds, extend in *; simpl in *. lia.
    + intros loc [= -> ->]. cbn [fold_left]. f_equal.
      unfold new_LatLngBounds, extend; simpl. f_equal; lia.
Qed.

(** ** Route *)

Lemma getRouteLocations_flat_map items :
  getRouteLocations items = flat_map routeContribution (Array_sort byStartDate items).
Proof.
  unfold getRouteLocations.
  rewrite (fold_push_flat_map routeContribution); [reflexivity|].
  intros acc [f|a|a]; unfold push; simpl; now rewrite <- ?app_assoc, ?app_nil_r.
Qed.

Lemma flat_map_route_drop (l : list ItineraryItem) :
  flat_map routeContribution (List.filter (fun i => negb (is_accommodation i)) l)
  = flat_map routeContribution l.
Proof.
  induction l as [|[f|a|a] l IH]; simpl; now rewrite ?IH.
Qed.

Lemma flat_map_route_length (l : list ItineraryItem) :
  length (flat_map routeContribution l)
  = (2 * count_type flight l + count_type activity l)%nat.
Proof.
  induction l as [|item l IH]; [reflexivity|].
  cbn [flat_map]. rewrite length_app, IH, !count_type_cons.
  destruct item; simpl; lia.
Qed.

Lemma count_type_perm type (l l' : list ItineraryItem) :
  Permutation l l' -> count_type type l = count_type type l'.
Proof.
  induction 1; rewrite ?count_type_cons; lia.
Qed.

(** C4 — [getRouteLocations] sorts the items ascending by primary start
    timestamp with a stable sort (the sorted list is a permutation of the
    input, non-decreasing in start time, and items with the same start time
    keep their input order); each sorted item then contributes its origin and
    destination (Flight), its Location (Activity) or nothing (Accommodation).
    So every location of the output was contributed by a Flight or an
    Activity of the input, removing the Accommodations from the input does not
    change the output, and the length of the output is twice the number of
    flights plus the number of activities. *)
Theorem getRouteLocations_spec (items : list ItineraryItem) :
  (Permutation (Array_sort byStartDate items) items /\
   StronglySorted startsBefore (Array_sort byStartDate items) /\
   (forall t, List.filter (startsAt t) (Array_sort byStartDate items)
              = List.filter (startsAt t) items)) /\
  getRouteLocations items = flat_map routeContribution (Array_sort byStartDate items) /\
  (forall f, routeContribution (IFlight f) = [origin f; destination f]) /\
  (forall a, routeContribution (IActivity a) = [activity_location a]) /\
  (forall a, routeContribution (IAccommodation a) = []) /\
  (forall loc, In loc (getRouteLocations items) ->
     exists item, In item items /\ is_accommodation item = false /\
                  In loc (routeContribution item)) /\
  getRouteLocations items
  = getRouteLocations (List.filter (fun i => negb (is_accommodation i)) items) /\
  length (getRouteLocations items)
  = (2 * count_type flight items + count_type activity items)%nat.
Proof.
  split.
  { split; [apply Array_sort_perm|].
    split; [apply (Array_sort_sorted startKey)|].
    intros t. apply (Array_sort_stable startKey). }
  split; [apply getRouteLocations_flat_map|].
  repeat (split; [reflexivity|]).
  split.
  { intros loc Hloc. rewrite getRouteLocations_flat_map in Hloc.
    apply in_flat_map in Hloc. destruct Hloc as (item & Hitem & Hloc).
    exists item. split.
    - eapply Permutation_in; [apply Array_sort_perm | exact Hitem].
    - split; [|assumption]. destruct item; simpl in *; tauto. }
  split.
  { rewrite !getRouteLocations_flat_map.
    change byStartDate with (by_key startKey).
    rewrite <- Array_sort_filter. now rewrite flat_map_route_drop. }
  rewrite getRouteLocations_flat_map, flat_map_route_length.
  rewrite (count_type_perm flight _ _ (Array_sort_perm byStartDate items)).
  rewrite (count_type_perm activity _ _ (Array_sort_perm byStartDate items)).
  reflexivity.
Qed.

(* ===================================================================== *)
(** * Day grouping *)
(* ===================================================================== *)

Lemma group_add_perm d x (G : list (Z * list ItineraryItem)) :
  Permutation (concat (map snd (group_add d x G))) (x :: concat (map snd G)).
Proof.
  induction G as [|[d' g] G IH]; cbn [group_add].
  - reflexivity.
  - destruct (d =? d'); cbn [map concat snd].
    + unfold push. rewrite <- app_assoc. symmetry. apply Permutation_middle.
    + rewrite IH. symmetry. apply Permutation_middle.
Qed.

Lemma group_add_keys d x (G : list (Z * list ItineraryItem)) :
  (In d (map fst G) /\ map fst (group_add d x G) = map fst G) \/
  (~ In d (map fst G) /\ map fst (group_add d x G) = map fst G ++ [d]).
Proof.
  induction G as [|[d' g] G IH]; cbn [group_add map fst].
  - right. split; [intros []|reflexivity].
  - destruct (Z.eqb_spec d d') as [->|Hne]; cbn [map fst].
    + left. split; [now left|reflexivity].
    + destruct IH as [[Hin Heq]|[Hnin Heq]]; rewrite Heq.
      * left. split; [now right|reflexivity].
      * right. split; [|reflexivity]. intros [Hd|Hd]; [congruence|contradiction].
Qed.

Lemma group_add_In d x (G : list (Z * list ItineraryItem)) d' g' :
  NoDup (map fst G) ->
  In (d', g') (group_add d x G) ->
  (d' <> d /\ In (d', g') G) \/
  (d' = d /\ ((exists g, In (d, g) G /\ g' = g ++ [x]) \/
              (~ In d (map fst G) /\ g' = [x]))).
Proof.
  induction G as [|[d0 g0] G IH]; cbn [group_add map fst].
  - intros _ [[= <- <-]|[]]. right. split; [reflexivity|].
    right. split; [intros []|reflexivity].
  - intros Hnd. inversion Hnd as [|? ? Hd0 HndG]; subst.
    destruct (Z.eqb_spec d d0) as [->|Hne].
    + intros [[= <- <-]|Hin].
      * right. split; [reflexivity|]. left. exists g0. split; [now left|reflexivity].
      * left. split; [|now right].
        intros ->. apply Hd0. apply (in_map fst) in Hin. exact Hin.
    + intros [[= <- <-]|Hin].
      * left. split; [congruence|now left].
      * destruct (IH HndG Hin) as [[Hd Hg]|[-> [(g & Hg & ->)|[Hnin ->]]]].
        -- left. split; [assumption|now right].
        -- right. split; [reflexivity|]. left. exists g. split; [now right|reflexivity].
        -- right. split; [reflexivity|]. right. split; [|reflexivity].
           intros [Hd|Hd]; [congruence|contradiction].
Qed.

Lemma itemsOfDay_app tz d l1 l2 :
  itemsOfDay tz d (l1 ++ l2) = itemsOfDay tz d l1 ++ itemsOfDay tz d l2.
Proof. apply filter_app. Qed.

Lemma itemsOfDay_nil tz d items :
  (forall item, In item items -> itemDay tz item <> d) -> itemsOfDay tz d items = [].
Proof.
  induction items as [|x items IH]; intros H; [reflexivity|].
  unfold itemsOfDay in *. cbn [List.filter].
  destruct (Z.eqb_spec (itemDay tz x) d) as [Hd|_].
  - exfalso. apply (H x); [now left|assumption].
  - apply IH. intros item Hitem. apply H. now right.
Qed.

Lemma groups_of_step tz items G x :
  groups_of tz items G ->
  groups_of tz (items ++ [x]) (group_add (itemDay tz x) x G).
Proof.
  intros (Hnd & Hgr & Hall).
  destruct (group_add_keys (itemDay tz x) x G) as [[Hin Hk]|[Hnin Hk]].
  - split; [now rewrite Hk|]. split.
    + intros d g Hdg. apply group_add_In in Hdg; [|assumption].
      rewrite itemsOfDay_app. unfold itemsOfDay at 2. cbn [List.filter].
      destruct Hdg as [[Hd Hg]|[-> [(g0 & Hg0 & ->)|[Hnin _]]]].
      * destruct (Z.eqb_spec (itemDay tz x) d); [congruence|].
        rewrite app_nil_r. now apply Hgr.
      * rewrite Z.eqb_refl. destruct (Hgr _ _ Hg0) as [<- _].
        split; [reflexivity|]. now destruct g0.
      * contradiction.
    + intros item Hitem. rewrite Hk. apply in_app_or in Hitem.
      destruct Hitem as [Hitem|[<-|[]]]; [now apply Hall|assumption].
  - split.
    { rewrite Hk. apply NoDup_app.
      - assumption.
      - repeat constructor. intros [].
      - intros d Hd [<-|[]]. contradiction. }
    split.
    + intros d g Hdg. apply group_add_In in Hdg; [|assumption].
      rewrite itemsOfDay_app. unfold itemsOfDay at 2. cbn [List.filter].
      destruct Hdg as [[Hd Hg]|[-> [(g0 & Hg0 & ->)|[_ ->]]]].
      * destruct (Z.eqb_spec (itemDay tz x) d); [congruence|].
        rewrite app_nil_r. now apply Hgr.
      * exfalso. apply Hnin. apply (in_map fst) in Hg0. exact Hg0.
      * rewrite Z.eqb_refl. rewrite itemsOfDay_nil; [split; [reflexivity|discriminate]|].
        intros item Hitem Hd. apply Hnin. rewrite <- Hd. now apply Hall.
    + intros item Hitem. rewrite Hk. apply in_or_app. apply in_app_or in Hitem.
      destruct Hitem as [Hitem|[<-|[]]]; [left; now apply Hall|right; now left].
Qed.

Lemma groupItems_fold tz (l items : list ItineraryItem) G :
  groups_of tz items G ->
  groups_of tz (items ++ l)
    (fold_left (fun groups item => group_add (itemDay tz item) item groups) l G).
Proof.
  revert items G. induction l as [|x l IH]; intros items G HG; cbn [fold_left].
  - now rewrite app_nil_r.
  - replace (items ++ x :: l) with ((items ++ [x]) ++ l) by now rewrite <- app_assoc.
    apply IH. now apply groups_of_step.
Qed.

Lemma groupItems_groups tz items : groups_of tz items (groupItems tz items).
Proof.
  apply (groupItems_fold tz items [] []).
  split; [constructor|]. split; intros; contradiction.
Qed.

Lemma groupItems_perm tz items :
  Permutation (concat (map snd (groupItems tz items))) items.
Proof.
  unfold groupItems.
  enough (H : forall l G,
    Permutation
      (concat (map snd (fold_left (fun groups item => group_add (itemDay tz item) item groups) l G)))
      (concat (map snd G) ++ l)) by apply (H items []).
  induction l as [|x l IH]; intros G; cbn [fold_left].
  - now rewrite app_nil_r.
  - rewrite IH, group_add_perm. apply Permutation_middle.
Qed.

Lemma concat_snd_perm (G G' : list (Z * list ItineraryItem)) :
  Permutation G G' -> Permutation (concat (map snd G)) (concat (map snd G')).
Proof.
  induction 1 as [|g G G' _ IH|g g' G|G1 G2 G3 _ IH1 _ IH2]; cbn [map concat].
  - reflexivity.
  - now apply Permutation_app_head.
  - rewrite !app_assoc. apply Permutation_app_tail, Permutation_app_comm.
  - now transitivity (concat (map snd G2)).
Qed.

Lemma concat_sorted_groups_perm (G : list (Z * list ItineraryItem)) :
  Permutation
    (concat (map snd (map (fun g => (fst g, Array_sort byStartDate (snd g))) G)))
    (concat (map snd G)).
Proof.
  induction G as [|g G IH]; cbn [map concat snd]; [reflexivity|].
  apply Permutation_app; [apply Array_sort_perm | exact IH].
Qed.

Lemma sorted_nodup_strict (l : list Z) :
  StronglySorted Z.le l -> NoDup l -> StronglySorted Z.lt l.
Proof.
  induction 1 as [|x l Hl IH Hx]; intros Hnd; constructor.
  - apply IH. now inversion Hnd.
  - inversion Hnd as [|? ? Hnin _]; subst.
    rewrite Forall_forall in Hx |- *. intros y Hy. specialize (Hx y Hy).
    destruct (Z.eq_dec x y) as [->|]; [contradiction | lia].
Qed.

Lemma sorted_map_fst (G : list (Z * list ItineraryItem)) :
  StronglySorted (key_le fst) G -> StronglySorted Z.le (map fst G).
Proof.
  induction 1 as [|g G HG IH Hg]; cbn [map]; constructor; [assumption|].
  rewrite Forall_forall in Hg |- *. intros d Hd.
  apply in_map_iff in Hd. destruct Hd as (g' & <- & Hg'). now apply Hg.
Qed.

Lemma groupByDay_days tz items :
  map fst (groupByDay tz items) = map fst (Array_sort byDay (groupItems tz items)).
Proof. unfold groupByDay. rewrite map_map. reflexivity. Qed.

Lemma groupByDay_In tz items d g :
  In (d, g) (groupByDay tz items) ->
  g = Array_sort byStartDate (itemsOfDay tz d items) /\ itemsOfDay tz d items <> [].
Proof.
  unfold groupByDay. intros H. apply in_map_iff in H.
  destruct H as ([d0 g0] & [= <- <-] & Hin). cbn [fst snd].
  apply (Permutation_in _ (Array_sort_perm byDay (groupItems tz items))) in Hin.
  destruct (groupItems_groups tz items) as (_ & Hgr & _).
  destruct (Hgr _ _ Hin) as [-> Hne]. split; [reflexivity | assumption].
Qed.

(** C5 — [groupByDay] partitions the input without loss or duplication: the
    concatenation of all groups is a permutation of the input; the days are
    distinct and ascending; each group is not empty and holds exactly the
    items of its calendar day, sorted by start time ascending, items with
    the same start time keeping their input order. *)
Theorem groupByDay_spec (tz : Z) (items : list ItineraryItem) :
  Permutation (concat (map snd (groupByDay tz items))) items /\
  StronglySorted Z.lt (map fst (groupByDay tz items)) /\
  (forall d g, In (d, g) (groupByDay tz items) ->
     g <> [] /\
     Permutation g (itemsOfDay tz d items) /\
     (forall item, In item g -> dayOf tz (startDate (item_base item)) = d) /\
     StronglySorted startsBefore g /\
     (forall t, List.filter (startsAt t) g
                = List.filter (startsAt t) (itemsOfDay tz d items))).
Proof.
  split.
  { unfold groupByDay. rewrite concat_sorted_groups_perm.
    rewrite (concat_snd_perm _ _ (Array_sort_perm byDay (groupItems tz items))).
    apply groupItems_perm. }
  split.
  { rewrite groupByDay_days. apply sorted_nodup_strict.
    - apply sorted_map_fst. apply (Array_sort_sorted fst).
    - destruct (groupItems_groups tz items) as (Hnd & _ & _).
      eapply Permutation_NoDup; [|exact Hnd].
      apply Permutation_map, Permutation_sym, Array_sort_perm. }
  intros d g Hdg. apply groupByDay_In in Hdg. destruct Hdg as [-> Hne].
  assert (Hperm : Permutation (Array_sort byStartDate (itemsOfDay tz d items))
                              (itemsOfDay tz d items)) by apply Array_sort_perm.
  split.
  { intros Hnil. rewrite Hnil in Hperm. apply Permutation_nil in Hperm. contradiction. }
  split; [exact Hperm|]. split.
  { intros item Hitem. apply (Permutation_in _ Hperm) in Hitem.
    apply filter_In in Hitem. destruct Hitem as [_ Hd]. now apply Z.eqb_eq in Hd. }
  split; [apply (Array_sort_sorted startKey)|].
  intros t. apply (Array_sort_stable startKey).
Qed.

(** The scenario of the specification: the flight on 2024-04-01 and the
    activity on 2024-04-02 fall in two groups, in this order, and the route
    goes from the origin to the destination and on to Shibuya; the hotel adds
    nothing to the route. *)
Example groupByDay_japan2024 :
  groupByDay 0 [sampleActivity; sampleFlight]
  = [(19814, [sampleFlight]); (19815, [sampleActivity])].
Proof. vm_compute. reflexivity. Qed.

Example getRouteLocations_japan2024 :
  getRouteLocations [sampleHotel; sampleActivity; sampleFlight] = [NRT; HND; Shibuya].
Proof. vm_compute. reflexivity. Qed.

Example calculateTripBounds_japan2024 :
  calculateTripBounds [sampleFlight; sampleActivity]
  = Some {| south := lat HND; west := lng Shibuya; north := lat NRT; east := lng NRT |}.
Proof. vm_compute. reflexivity. Qed.

(* ===================================================================== *)
(** * Dates as text: [Date.parse] inverts [toISOString] *)
(* ===================================================================== *)

Lemma digit_char_spec d :
  0 <= d <= 9 ->
  is_digit (digit_char d) = true /\ digit_val (digit_char d) = d /\
  Ascii.eqb (digit_char d) "+" = false /\ Ascii.eqb (digit_char d) "-" = false.
Proof.
  intros H.
  assert (Hd : d = 0 \/ d = 1 \/ d = 2 \/ d = 3 \/ d = 4 \/ d = 5 \/ d = 6 \/
               d = 7 \/ d = 8 \/ d = 9) by lia.
  repeat (destruct Hd as [->|Hd]; [repeat split; reflexivity|]).
  subst d. repeat split; reflexivity.
Qed.

(** Reading [w] digits of a number written with [w] digits. *)
Lemma read_pad_digits (w k : nat) (n acc : Z) (s : string) :
  0 <= n < 10 ^ Z.of_nat w ->
  read_digits (w + k) acc (pad_digits w n s)
  = read_digits k (acc * 10 ^ Z.of_nat w + n) s.
Proof.
  revert k n acc s. induction w as [|w IH]; intros k n acc s Hn.
  - cbn [pad_digits Nat.add]. f_equal. simpl in Hn. lia.
  - cbn [pad_digits]. replace (S w + k)%nat with (w + S k)%nat by lia.
    rewrite Nat2Z.inj_succ, Z.pow_succ_r in Hn by lia.
    rewrite IH by (Z.div_mod_to_equations; lia).
    cbn [read_digits].
    destruct (digit_char_spec (n mod 10)) as (-> & -> & _).
    { pose proof (Z.mod_pos_bound n 10). lia. }
    f_equal. rewrite Nat2Z.inj_succ, Z.pow_succ_r by lia.
    pose proof (Z.div_mod n 10). lia.
Qed.

Lemma read_pad (w : nat) (n : Z) (s : string) :
  0 <= n < 10 ^ Z.of_nat w ->
  read_digits w 0 (pad_digits w n s) = Some (n, s).
Proof.
  intros Hn. replace w with (w + 0)%nat at 1 by lia.
  rewrite read_pad_digits by assumption. reflexivity.
Qed.

Lemma pad_digits_cons (w : nat) (n : Z) (s : string) :
  0 <= n ->
  pad_digits (S w) n s
  = String (digit_char ((n / 10 ^ Z.of_nat w) mod 10)) (pad_digits w n s).
Proof.
  revert n s. induction w as [|w IH]; intros n s Hn.
  - cbn [pad_digits]. now rewrite Z.div_1_r.
  - change (pad_digits (S (S w)) n s)
      with (pad_digits (S w) (n / 10) (String (digit_char (n mod 10)) s)).
    rewrite IH by (Z.div_mod_to_equations; lia).
    cbn [pad_digits]. do 2 f_equal.
    rewrite Nat2Z.inj_succ, Z.pow_succ_r by lia.
    rewrite Z.div_div by lia. reflexivity.
Qed.

Lemma parse_year_text (y : Z) (s : string) :
  - 999999 <= y <= 999999 ->
  parse_year (year_text y s) = Some (y, s).
Proof.
  intros Hy. unfold year_text.
  destruct (Z.leb_spec 0 y) as [H0|H0]; cbn [andb].
  - destruct (Z.leb_spec y 9999) as [H1|H1].
    + rewrite <- (read_pad 4 y s) by (simpl; lia).
      rewrite (pad_digits_cons 3) by lia. unfold parse_year.
      destruct (digit_char_spec ((y / 10 ^ Z.of_nat 3) mod 10)) as (_ & _ & Hp & Hm).
      { pose proof (Z.mod_pos_bound (y / 10 ^ Z.of_nat 3) 10). lia. }
      destruct (digit_char _) as [[] [] [] [] [] [] [] []]; try reflexivity; discriminate.
    + destruct (Z.ltb_spec y 0); [lia|]. unfold parse_year.
      rewrite read_pad by (simpl; lia).
      f_equal. f_equal. lia.
  - destruct (Z.ltb_spec y 0); [|lia]. unfold parse_year.
    rewrite read_pad by (simpl; lia).
    destruct (Z.eqb_spec (Z.abs y) 0); [lia|]. do 2 f_equal. lia.
Qed.

(** ** The calendar *)

Lemma civil_from_days_valid z :
  let '(y, m, d) := civil_from_days z in
  1 <= m <= 12 /\ 1 <= d <= DaysInMonth y m.
Proof.
  unfold civil_from_days, DaysInMonth, InLeapYear.
  set (era := (z + 719468) / 146097).
  set (doe := (z + 719468) mod 146097).
  assert (Hdoe : 0 <= doe <= 146096)
    by (subst doe; pose proof (Z.mod_pos_bound (z + 719468) 146097); lia).
  clearbody era doe. clear z.
  set (yoe := (doe - doe / 1460 + doe / 36524 - doe / 146096) / 365).
  assert (Hy : 0 <= yoe <= 399 /\
               0 <= doe - (365 * yoe + yoe / 4 - yoe / 100) <= 365 /\
               (doe - (365 * yoe + yoe / 4 - yoe / 100) = 365 ->
                (yoe + 1) mod 4 = 0 /\
                ((yoe + 1) mod 100 <> 0 \/ (yoe + 1) mod 400 = 0))).
  { subst yoe. Z.div_mod_to_equations; lia. }
  clearbody yoe.
  set (doy := doe - (365 * yoe + yoe / 4 - yoe / 100)) in *.
  clearbody doy. destruct Hy as (Hyoe & Hdoy & Hleap).
  set (mp := (5 * doy + 2) / 153).
  assert (Hmp : 0 <= mp <= 11) by (subst mp; Z.div_mod_to_equations; lia).
  assert (Hd : (153 * mp + 2) / 5 <= doy < (153 * (mp + 1) + 2) / 5)
    by (subst mp; Z.div_mod_to_equations; lia).
  clearbody mp.
  destruct (Z.ltb_spec mp 10) as [Hlt|Hge].
  - (* March to December *)
    destruct (Z.eqb_spec (mp + 3) 2) as [|_]; [lia|].
    split; [lia|].
    repeat match goal with
           | |- context [?a =? ?b] => destruct (Z.eqb_spec a b)
           end; cbn [orb]; Z.div_mod_to_equations; lia.
  - destruct (Z.leb_spec (mp - 9) 2) as [_|]; [|lia].
    destruct (Z.eqb_spec (mp - 9) 2) as [Hfeb|Hjan].
    + (* February *)
      split; [lia|].
      replace ((yoe + era * 400 + 1) mod 4) with ((yoe + 1) mod 4)
        by (Z.div_mod_to_equations; lia).
      replace ((yoe + era * 400 + 1) mod 100) with ((yoe + 1) mod 100)
        by (Z.div_mod_to_equations; lia).
      replace ((yoe + era * 400 + 1) mod 400) with ((yoe + 1) mod 400)
        by (Z.div_mod_to_equations; lia).
      destruct (Z.eq_dec doy 365) as [H365|H365].
      * destruct (Hleap H365) as [H4 H100]. rewrite H4. cbn [Z.eqb andb].
        destruct H100 as [H100|H400].
        -- destruct (Z.eqb_spec ((yoe + 1) mod 100) 0); [contradiction|].
           cbn [negb orb]. Z.div_mod_to_equations; lia.
        -- rewrite H400. rewrite orb_true_r. Z.div_mod_to_equations; lia.
      * destruct (_ && _); Z.div_mod_to_equations; lia.
    + (* January *)
      split; [lia|].
      repeat match goal with
             | |- context [?a =? ?b] => destruct (Z.eqb_spec a b)
             end; cbn [orb]; Z.div_mod_to_equations; lia.
Qed.

Lemma days_from_civil_from_days z y m d :
  civil_from_days z = (y, m, d) -> days_from_civil y m d = z.
Proof.
  unfold civil_from_days, days_from_civil.
  pose proof (Z.div_mod (z + 719468) 146097) as Hz.
  set (era := (z + 719468) / 146097) in *.
  set (doe := (z + 719468) mod 146097) in *.
  assert (Hdoe : 0 <= doe <= 146096)
    by (subst doe; pose proof (Z.mod_pos_bound (z + 719468) 146097); lia).
  clearbody era doe.
  set (yoe := (doe - doe / 1460 + doe / 36524 - doe / 146096) / 365).
  assert (Hy : 0 <= yoe <= 399 /\
               0 <= doe - (365 * yoe + yoe / 4 - yoe / 100) <= 365)
    by (subst yoe; Z.div_mod_to_equations; lia).
  clearbody yoe.
  set (doy := doe - (365 * yoe + yoe / 4 - yoe / 100)) in *.
  assert (Hdoe' : doe = yoe * 365 + yoe / 4 - yoe / 100 + doy) by (subst doy; lia).
  clearbody doy. destruct Hy as (Hyoe & Hdoy).
  set (mp := (5 * doy + 2) / 153).
  assert (Hmp : 0 <= mp <= 11) by (subst mp; Z.div_mod_to_equations; lia).
  clearbody mp.
  intros [= <- <- <-].
  set (m := if mp <? 10 then mp + 3 else mp - 9).
  assert (Hm : (if m <=? 2 then 1 else 0) = (if mp <? 10 then 0 else 1) /\
               (if 2 <? m then m - 3 else m + 9) = mp).
  { subst m. destruct (Z.ltb_spec mp 10).
    - destruct (Z.leb_spec (mp + 3) 2), (Z.ltb_spec 2 (mp + 3)); lia.
    - destruct (Z.leb_spec (mp - 9) 2), (Z.ltb_spec 2 (mp - 9)); lia. }
  destruct Hm as [Hadj ->]. rewrite Hadj. clearbody m.
  replace (yoe + era * 400 + (if mp <? 10 then 0 else 1) - (if mp <? 10 then 0 else 1))
    with (yoe + era * 400) by lia.
  replace ((yoe + era * 400) / 400) with era by (Z.div_mod_to_equations; lia).
  replace ((yoe + era * 400) mod 400) with yoe by (Z.div_mod_to_equations; lia).
  lia.
Qed.

Lemma civil_from_days_year z y m d :
  civil_from_days z = (y, m, d) ->
  - 100000000 <= z <= 100000000 -> - 999999 <= y <= 999999.
Proof.
  unfold civil_from_days. intros [= <- _ _] Hz.
  set (era := (z + 719468) / 146097).
  set (doe := (z + 719468) mod 146097).
  assert (Hdoe : 0 <= doe <= 146096 /\ - 700 <= era <= 700).
  { subst doe era. Z.div_mod_to_equations. lia. }
  clearbody era doe.
  set (yoe := (doe - doe / 1460 + doe / 36524 - doe / 146096) / 365).
  assert (Hy : 0 <= yoe <= 399) by (subst yoe; Z.div_mod_to_equations; lia).
  clearbody yoe. destruct (_ <=? 2); lia.
Qed.

Lemma TimeClip_valid tv : validTime tv -> TimeClip tv = Some tv.
Proof.
  unfold validTime, TimeClip. intros H.
  destruct (Z.leb_spec (Z.abs tv) maxTime); [reflexivity | lia].
Qed.

(** [new Date(d.toISOString())] is the instant of [d], to the millisecond. *)
Lemma Date_parse_toISOString (tv : Z) :
  validTime tv -> Date_parse (toISOString tv) = Some tv.
Proof.
  intros Hv. unfold toISOString, Date_parse.
  pose proof (civil_from_days_valid (tv / msPerDay)) as Hvalid.
  pose proof (days_from_civil_from_days (tv / msPerDay)) as Hround.
  pose proof (civil_from_days_year (tv / msPerDay)) as Hyear.
  destruct (civil_from_days (tv / msPerDay)) as [[y m] d].
  specialize (Hround _ _ _ eq_refl). specialize (Hyear _ _ _ eq_refl).
  assert (Hday : - 100000000 <= tv / msPerDay <= 100000000).
  { unfold validTime, maxTime, msPerDay in *. Z.div_mod_to_equations. lia. }
  specialize (Hyear Hday). destruct Hvalid as [Hm Hd].
  assert (Hd31 : DaysInMonth y m <= 31).
  { unfold DaysInMonth. repeat destruct (_ : bool); lia. }
  pose proof (Z.div_mod tv msPerDay) as Htv.
  set (t := tv mod msPerDay) in *.
  assert (Ht : 0 <= t < 86400000) by (subst t; apply Z.mod_pos_bound; reflexivity).
  clearbody t.
  rewrite parse_year_text by assumption. cbn [mbind option_bind expect_char].
  repeat first
    [ rewrite read_pad by (simpl; Z.div_mod_to_equations; lia)
    | progress cbn [mbind option_bind expect_char Ascii.eqb Bool.eqb] ].
  destruct (Z.leb_spec 1 m); [|lia]. destruct (Z.leb_spec m 12); [|lia].
  destruct (Z.leb_spec 1 d); [|lia]. destruct (Z.leb_spec d (DaysInMonth y m)); [|lia].
  destruct (Z.leb_spec (t / 3600000) 23); [|Z.div_mod_to_equations; lia].
  destruct (Z.leb_spec ((t / 60000) mod 60) 59); [|Z.div_mod_to_equations; lia].
  destruct (Z.leb_spec ((t / 1000) mod 60) 59); [|Z.div_mod_to_equations; lia].
  cbn [andb]. rewrite Hround.
  replace (MakeDate (tv / msPerDay) _) with tv; [now apply TimeClip_valid|].
  unfold MakeDate, MakeTime, msPerDay in *. Z.div_mod_to_equations. lia.
Qed.

Lemma toISOString_nonempty (tv : Z) : exists c r, toISOString tv = String c r.
Proof.
  unfold toISOString. destruct (civil_from_days _) as [[y m] d].
  unfold year_text. destruct (_ && _); cbn [pad_digits]; eauto.
Qed.

(* ===================================================================== *)
(** * JSON: [JSON.parse] inverts the text of a JSON value *)
(* ===================================================================== *)

Lemma value_nested_ind (P : value -> Prop) :
  P VUndefined -> P VNull -> (forall b, P (VBool b)) -> (forall n, P (VNumber n)) ->
  (forall s, P (VString s)) -> (forall tv, P (VDate tv)) ->
  (forall elems, Forall P elems -> P (VArray elems)) ->
  (forall props, Forall (fun kv => P (snd kv)) props -> P (VObject props)) ->
  forall v, P v.
Proof.
  intros Hu Hn Hb Hz Hs Hd Ha Ho. fix IH 1.
  intros [ | | b | n | s | tv | elems | props];
    [exact Hu | exact Hn | apply Hb | apply Hz | apply Hs | apply Hd | | ].
  - apply Ha. induction elems as [|e elems IHelems]; constructor.
    + apply IH.
    + exact IHelems.
  - apply Ho. induction props as [|[k e] props IHprops]; constructor.
    + apply IH.
    + exact IHprops.
Qed.

Lemma append_assoc (s1 s2 s3 : string) :
  ((s1 ++ s2) ++ s3)%string = (s1 ++ (s2 ++ s3))%string.
Proof. induction s1 as [|c s1 IH]; simpl; [reflexivity | now rewrite IH]. Qed.

Lemma append_nil_r (s : string) : (s ++ "")%string = s.
Proof. induction s as [|c s IH]; simpl; [reflexivity | now rewrite IH]. Qed.

Lemma length_append (s1 s2 : string) :
  String.length (s1 ++ s2) = (String.length s1 + String.length s2)%nat.
Proof. induction s1 as [|c s1 IH]; simpl; [reflexivity | now rewrite IH]. Qed.

(** ** String literals *)

Lemma parse_chars_escape_char (c : ascii) (t : string) :
  parse_chars (escape_char c t) = cons_char c (parse_chars t).
Proof.
  destruct c as [[] [] [] [] [] [] [] []]; reflexivity.
Qed.

Lemma parse_chars_escape (s rest : string) :
  parse_chars (escape s (String "034" rest)) = Some (s, rest).
Proof.
  induction s as [|c s IH]; [reflexivity|].
  cbn [escape]. rewrite parse_chars_escape_char, IH. reflexivity.
Qed.

Lemma escape_append (s rest rest' : string) :
  (escape s rest ++ rest')%string = escape s (rest ++ rest')%string.
Proof.
  induction s as [|c s IH]; [reflexivity|].
  cbn [escape]. rewrite <- IH.
  destruct c as [[] [] [] [] [] [] [] []]; reflexivity.
Qed.

Lemma QuoteJSONString_append (s rest rest' : string) :
  (QuoteJSONString s rest ++ rest')%string = QuoteJSONString s (rest ++ rest')%string.
Proof. unfold QuoteJSONString. simpl. now rewrite escape_append. Qed.

(** ** Numbers *)

Lemma Z_of_digits_uint (d : Decimal.uint) :
  d <> Decimal.Nil ->
  Z_of_digits (DecimalString.NilEmpty.string_of_uint d) = Some (Z.of_N (N.of_uint d)).
Proof.
  intros Hd. unfold Z_of_digits.
  pose proof (DecimalString.NilZero.usu d Hd) as H.
  destruct d; try contradiction; cbn [DecimalString.NilZero.string_of_uint] in H;
    rewrite H; reflexivity.
Qed.

Lemma count_digits_spec (fuel : nat) (n : Z) :
  0 < n < 2 ^ (Z.of_nat fuel + 1) ->
  1 <= count_digits fuel n /\
  10 ^ (count_digits fuel n - 1) <= n < 10 ^ count_digits fuel n.
Proof.
  revert n. induction fuel as [|fuel IH]; intros n Hn.
  - cbn [count_digits]. change (2 ^ (Z.of_nat 0 + 1)) with 2 in Hn.
    change (10 ^ (1 - 1)) with 1. change (10 ^ 1) with 10. lia.
  - cbn [count_digits]. destruct (Z.ltb_spec n 10) as [Hlt|Hge].
    + change (10 ^ (1 - 1)) with 1. change (10 ^ 1) with 10. lia.
    + rewrite Nat2Z.inj_succ in Hn.
      replace (Z.succ (Z.of_nat fuel) + 1) with (Z.succ (Z.of_nat fuel + 1)) in Hn by lia.
      rewrite Z.pow_succ_r in Hn by lia.
      destruct (IH (n / 10)) as (H1 & H2 & H3).
      { split; [apply Z.div_str_pos; lia|].
        apply Z.div_lt_upper_bound; lia. }
      split; [lia|].
      replace (1 + count_digits fuel (n / 10) - 1)
        with (Z.succ (count_digits fuel (n / 10) - 1)) by lia.
      replace (1 + count_digits fuel (n / 10))
        with (Z.succ (count_digits fuel (n / 10))) by lia.
      rewrite !Z.pow_succ_r by lia.
      pose proof (Z.div_mod n 10). pose proof (Z.mod_pos_bound n 10). lia.
Qed.

Lemma num_digits_spec (n : Z) :
  0 < n -> 1 <= num_digits n /\ 10 ^ (num_digits n - 1) <= n < 10 ^ num_digits n.
Proof.
  intros Hn. unfold num_digits. apply count_digits_spec.
  pose proof (Z.log2_spec n Hn) as H. pose proof (Z.log2_nonneg n).
  rewrite Z2Nat.id by assumption. unfold Z.succ in H. lia.
Qed.

Lemma pad_digits_append (w : nat) (n : Z) (rest : string) :
  pad_digits w n rest = (pad_digits w n "" ++ rest)%string.
Proof.
  revert n rest. induction w as [|w IH]; intros n rest; [reflexivity|].
  cbn [pad_digits]. rewrite IH. rewrite (IH _ (String _ "")).
  rewrite append_assoc. reflexivity.
Qed.

Lemma length_pad_digits (w : nat) (n : Z) : String.length (pad_digits w n "") = w.
Proof.
  revert n. induction w as [|w IH]; intros n; [reflexivity|].
  cbn [pad_digits]. rewrite pad_digits_append, length_append, IH. simpl. lia.
Qed.

Lemma digit_of_mod (n : Z) : 0 <= n mod 10 <= 9.
Proof. pose proof (Z.mod_pos_bound n 10). lia. Qed.

Lemma span_digits_pad (w : nat) (n : Z) (rest : string) :
  0 <= n -> span_digits rest = (EmptyString, rest) ->
  span_digits (pad_digits w n rest) = (pad_digits w n "", rest).
Proof.
  intros Hn Hrest. induction w as [|w IH]; [exact Hrest|].
  rewrite !pad_digits_cons by assumption. cbn [span_digits].
  destruct (digit_char_spec _ (digit_of_mod (n / 10 ^ Z.of_nat w))) as (-> & _).
  now rewrite IH.
Qed.

Lemma digits_value_pad (w : nat) (n acc : Z) (rest : string) :
  0 <= n < 10 ^ Z.of_nat w ->
  digits_value acc (pad_digits w n rest) = digits_value (acc * 10 ^ Z.of_nat w + n) rest.
Proof.
  revert n acc rest. induction w as [|w IH]; intros n acc rest Hn.
  - cbn [pad_digits]. f_equal. simpl in Hn. lia.
  - cbn [pad_digits].
    rewrite Nat2Z.inj_succ, Z.pow_succ_r in Hn by lia.
    rewrite IH by (Z.div_mod_to_equations; lia).
    cbn [digits_value].
    destruct (digit_char_spec _ (digit_of_mod n)) as (_ & -> & _).
    f_equal. rewrite Nat2Z.inj_succ, Z.pow_succ_r by lia.
    pose proof (Z.div_mod n 10). lia.
Qed.

(** The first digit of a number that has exactly [S w] digits. *)
Lemma pad_digits_lead (w : nat) (n : Z) (rest : string) :
  10 ^ Z.of_nat w <= n < 10 ^ Z.of_nat (S w) ->
  exists c, pad_digits (S w) n rest = String c (pad_digits w n rest) /\
            is_digit c = true /\ Ascii.eqb c "0" = false.
Proof.
  intros Hn. assert (H0 : 0 < 10 ^ Z.of_nat w) by (apply Z.pow_pos_nonneg; lia).
  rewrite pad_digits_cons by lia.
  rewrite Nat2Z.inj_succ, Z.pow_succ_r in Hn by lia.
  assert (Hq : 1 <= n / 10 ^ Z.of_nat w <= 9).
  { split.
    - apply Z.div_le_lower_bound; lia.
    - assert (n / 10 ^ Z.of_nat w < 10); [|lia].
      apply Z.div_lt_upper_bound; lia. }
  rewrite Z.mod_small by lia.
  eexists. split; [reflexivity|].
  assert (Hd : n / 10 ^ Z.of_nat w = 1 \/ n / 10 ^ Z.of_nat w = 2 \/
               n / 10 ^ Z.of_nat w = 3 \/ n / 10 ^ Z.of_nat w = 4 \/
               n / 10 ^ Z.of_nat w = 5 \/ n / 10 ^ Z.of_nat w = 6 \/
               n / 10 ^ Z.of_nat w = 7 \/ n / 10 ^ Z.of_nat w = 8 \/
               n / 10 ^ Z.of_nat w = 9) by lia.
  repeat (destruct Hd as [->|Hd]; [split; reflexivity|]).
  rewrite Hd. split; reflexivity.
Qed.

(** ** Reading a literal *)

Lemma delimited_ends_number (rest : string) :
  delimited rest ->
  span_digits rest = (EmptyString, rest) /\
  parse_fraction rest = Some (EmptyString, rest) /\
  parse_exponent rest = Some (0, rest).
Proof.
  destruct rest as [|c r]; [now repeat split|].
  intros [->|[->| ->]]; now repeat split.
Qed.

Lemma to_nat_succ (k : Z) :
  1 <= k -> exists w : nat, Z.to_nat k = S w /\ Z.of_nat w = k - 1.
Proof. intros Hk. exists (Z.to_nat (k - 1)). split; lia. Qed.

Lemma valid_int_lead (c : ascii) (r : string) :
  Ascii.eqb c "0" = false -> is_digit c = true -> valid_int (String c r) = true.
Proof.
  destruct c as [[] [] [] [] [] [] [] []]; try discriminate; reflexivity.
Qed.

Lemma digits_value_whole (w : nat) (n : Z) :
  0 <= n < 10 ^ Z.of_nat w -> digits_value 0 (pad_digits w n "") = n.
Proof. intros Hn. rewrite digits_value_pad by assumption. reflexivity. Qed.

Lemma some_triple {A B C : Type} (a a' : A) (b b' : B) (c : C) :
  a = a' -> b = b' -> Some (a, b, c) = Some (a', b', c).
Proof. now intros -> ->. Qed.

Lemma parse_exponent_text (x : Z) (rest : string) :
  x <> 0 -> span_digits rest = (EmptyString, rest) ->
  parse_exponent (exponent_text x rest) = Some (x, rest).
Proof.
  intros Hx Hrest. unfold exponent_text.
  destruct (num_digits_spec (Z.abs x)) as (Hk & Hlo & Hhi); [lia|].
  destruct (to_nat_succ _ Hk) as (w & Hw & Hw').
  assert (Hspan : span_digits (pad_digits (Z.to_nat (num_digits (Z.abs x))) (Z.abs x) rest)
                  = (pad_digits (Z.to_nat (num_digits (Z.abs x))) (Z.abs x) "", rest))
    by (apply span_digits_pad; [lia | assumption]).
  assert (Hval : digits_value 0 (pad_digits (Z.to_nat (num_digits (Z.abs x))) (Z.abs x) "")
                 = Z.abs x).
  { apply digits_value_whole. rewrite Z2Nat.id by lia. lia. }
  assert (Hne : exists c r,
             pad_digits (Z.to_nat (num_digits (Z.abs x))) (Z.abs x) "" = String c r).
  { rewrite Hw, pad_digits_cons by lia. eauto. }
  destruct Hne as (c & r & Hne).
  destruct (Z.ltb_spec x 0); cbn [parse_exponent parse_exponent_digits];
    rewrite Hspan, Hval, Hne; do 2 f_equal; lia.
Qed.

Lemma digits_value_parts (wi wf : nat) (a f : Z) :
  0 <= a < 10 ^ Z.of_nat wi -> 0 <= f < 10 ^ Z.of_nat wf ->
  digits_value 0 (pad_digits wi a "" ++ pad_digits wf f "")
  = a * 10 ^ Z.of_nat wf + f.
Proof.
  intros Ha Hf. rewrite <- pad_digits_append.
  rewrite digits_value_pad by assumption.
  rewrite digits_value_pad by assumption. cbn [digits_value]. lia.
Qed.

(** The integer digits of a literal, followed by something that is not a
    digit. *)
Lemma parse_decimal_int (w : nat) (a : Z) (tail : string) :
  (w = 0%nat /\ 0 <= a <= 9) \/ 10 ^ Z.of_nat w <= a < 10 ^ Z.of_nat (S w) ->
  span_digits tail = (EmptyString, tail) ->
  parse_decimal (pad_digits (S w) a tail)
  = match parse_fraction tail with
    | None => None
    | Some (frac, s3) =>
        match parse_exponent s3 with
        | None => None
        | Some (x, s4) =>
            Some (digits_value 0 (pad_digits (S w) a "" ++ frac),
                  x - Z.of_nat (String.length frac), s4)
        end
    end.
Proof.
  intros Ha Htail. unfold parse_decimal.
  assert (H0 : 0 <= a).
  { destruct Ha as [[_ ?]|[? _]]; [lia|].
    assert (0 < 10 ^ Z.of_nat w) by (apply Z.pow_pos_nonneg; lia). lia. }
  rewrite span_digits_pad by assumption.
  assert (Hv : valid_int (pad_digits (S w) a "") = true).
  { destruct Ha as [[-> Ha]|Ha].
    - cbn [pad_digits].
      destruct (digit_char (a mod 10)) as [[] [] [] [] [] [] [] []]; reflexivity.
    - destruct (pad_digits_lead w a "" Ha) as (c & -> & Hd & Hz).
      now apply valid_int_lead. }
  now rewrite Hv.
Qed.

Lemma parse_fraction_pad (w : nat) (f : Z) (tail : string) :
  0 <= f -> span_digits tail = (EmptyString, tail) ->
  parse_fraction (String "." (pad_digits (S w) f tail))
  = Some (pad_digits (S w) f "", tail).
Proof.
  intros Hf Htail. cbn [parse_fraction].
  rewrite span_digits_pad by assumption.
  rewrite (pad_digits_cons w f "") by assumption. reflexivity.
Qed.

Lemma pow10_pos (k : Z) : 0 <= k -> 0 < 10 ^ k.
Proof. intros. apply Z.pow_pos_nonneg; lia. Qed.

Lemma decimal_number_scaled (negative : bool) (s e : Z) :
  0 <= e -> decimal_number negative (s * 10 ^ e) 0 = decimal_number negative s e.
Proof.
  intros He. unfold decimal_number.
  replace (0 <=? e) with true by (symmetry; now apply Z.leb_le).
  change (0 <=? 0) with true. cbv iota.
  change (10 ^ 0) with 1. now rewrite Z.mul_1_r.
Qed.

(** The text of the decimal [s * 10 ^ e] reads as that decimal. *)
Lemma parse_decimal_text (s e : Z) (rest : string) :
  0 < s -> delimited rest ->
  exists M E, parse_decimal (decimal_text s e rest) = Some (M, E, rest) /\
    forall negative, decimal_number negative M E = decimal_number negative s e.
Proof.
  intros Hs Hrest.
  destruct (delimited_ends_number rest Hrest) as (Hspan & Hfrac & Hexp).
  destruct (num_digits_spec s Hs) as (Hk & Hlo & Hhi).
  unfold decimal_text. set (k := num_digits s) in *. cbv zeta.
  destruct ((k <=? e + k) && (e + k <=? 21)) eqn:HA;
    [apply andb_true_iff in HA as [H1 H2] | apply andb_false_iff in HA].
  { (* the digits, followed by zeros *)
    apply Z.leb_le in H1, H2.
    destruct (to_nat_succ (e + k)) as (w & Hw & Hw'); [lia|].
    exists (s * 10 ^ e), 0. split; [|intros; apply decimal_number_scaled; lia].
    replace (e + k - k) with e by lia. rewrite Hw.
    pose proof (pow10_pos e ltac:(lia)) as Hp.
    assert (Hrange : 10 ^ Z.of_nat w <= s * 10 ^ e < 10 ^ Z.of_nat (S w)).
    { replace (Z.of_nat w) with ((k - 1) + e) by lia.
      replace (Z.of_nat (S w)) with (k + e) by lia.
      rewrite !Z.pow_add_r by lia. nia. }
    rewrite parse_decimal_int by (auto; right; exact Hrange).
    rewrite Hfrac, Hexp. apply some_triple; [|reflexivity].
    rewrite append_nil_r. apply digits_value_whole. split; [nia | apply Hrange]. }
  destruct ((0 <? e + k) && (e + k <=? 21)) eqn:HB;
    [apply andb_true_iff in HB as [H1 H2] | apply andb_false_iff in HB].
  { (* a decimal point inside the digits *)
    apply Z.ltb_lt in H1. apply Z.leb_le in H2.
    assert (He : e < 0).
    { destruct (Z.leb_spec k (e + k)); [|lia].
      destruct HA as [HA|HA]; [discriminate|]. apply Z.leb_gt in HA. lia. }
    destruct (to_nat_succ (e + k)) as (w & Hw & Hw'); [lia|].
    destruct (to_nat_succ (k - (e + k))) as (v & Hv & Hv'); [lia|].
    exists s, e. split; [|reflexivity].
    rewrite Hw, Hv.
    pose proof (pow10_pos (- e) ltac:(lia)) as Hp.
    replace (k - (e + k)) with (- e) in * by lia.
    pose proof (Z.div_mod s (10 ^ (- e)) ltac:(lia)) as Hdm.
    pose proof (Z.mod_pos_bound s (10 ^ (- e)) Hp) as Hm.
    assert (Hrange : 10 ^ Z.of_nat w <= s / 10 ^ (- e) < 10 ^ Z.of_nat (S w)).
    { replace (Z.of_nat (S w)) with (e + k) by lia.
      replace k with ((e + k) + - e) in Hhi, Hlo by lia.
      replace (e + k + - e - 1) with (Z.of_nat w + - e) in Hlo by lia.
      rewrite Z.pow_add_r in Hhi, Hlo by lia.
      split.
      - apply Z.div_le_lower_bound; lia.
      - apply Z.div_lt_upper_bound; lia. }
    rewrite parse_decimal_int by (right; exact Hrange) || reflexivity.
    rewrite parse_fraction_pad by (assumption || lia).
    rewrite Hexp. apply some_triple.
    - rewrite digits_value_parts; [| |].
      + replace (Z.of_nat (S v)) with (- e) by lia. lia.
      + pose proof (pow10_pos (Z.of_nat w) ltac:(lia)). lia.
      + replace (Z.of_nat (S v)) with (- e) by lia. lia.
    - rewrite length_pad_digits. lia. }
  destruct ((-6 <? e + k) && (e + k <=? 0)) eqn:HC;
    [apply andb_true_iff in HC as [H1 H2] | apply andb_false_iff in HC].
  { (* zero, a decimal point, zeros and the digits *)
    apply Z.ltb_lt in H1. apply Z.leb_le in H2.
    destruct (to_nat_succ (k - (e + k))) as (v & Hv & Hv'); [lia|].
    exists s, e. split; [|reflexivity].
    rewrite Hv.
    change (String "0" (String "." (pad_digits (S v) s rest)))
      with (pad_digits 1 0 (String "." (pad_digits (S v) s rest))).
    rewrite parse_decimal_int by (reflexivity || (left; split; [reflexivity | lia])).
    rewrite parse_fraction_pad by (assumption || lia).
    rewrite Hexp. apply some_triple.
    - rewrite digits_value_parts; [lia| simpl; lia|].
      replace (Z.of_nat (S v)) with (k + (- e - k)) by lia.
      pose proof (pow10_pos (- e - k) ltac:(lia)).
      rewrite Z.pow_add_r by lia. nia.
    - rewrite length_pad_digits. lia. }
  assert (Hx : e + k - 1 <> 0).
  { intros Hx. destruct HB as [HB|HB].
    - apply Z.ltb_ge in HB. lia.
    - apply Z.leb_gt in HB. lia. }
  assert (Hxspan : span_digits (exponent_text (e + k - 1) rest)
                   = (EmptyString, exponent_text (e + k - 1) rest)) by reflexivity.
  assert (Hxfrac : parse_fraction (exponent_text (e + k - 1) rest)
                   = Some (EmptyString, exponent_text (e + k - 1) rest)) by reflexivity.
  destruct (Z.eqb_spec k 1) as [Hk1|Hk1].
  { (* one digit and an exponent *)
    exists s, e. split; [|reflexivity].
    rewrite Hk1 in Hhi. change (10 ^ 1) with 10 in Hhi.
    rewrite parse_decimal_int by (assumption || (left; split; [reflexivity | lia])).
    rewrite Hxfrac, parse_exponent_text by assumption.
    apply some_triple.
    - rewrite append_nil_r. apply digits_value_whole. simpl. lia.
    - simpl. lia. }
  { (* a digit, a decimal point, the other digits and an exponent *)
    destruct (to_nat_succ (k - 1)) as (v & Hv & Hv'); [lia|].
    exists s, e. split; [|reflexivity].
    rewrite Hv.
    pose proof (pow10_pos (k - 1) ltac:(lia)) as Hp.
    pose proof (Z.div_mod s (10 ^ (k - 1)) ltac:(lia)) as Hdm.
    pose proof (Z.mod_pos_bound s (10 ^ (k - 1)) Hp) as Hm.
    replace k with (Z.succ (k - 1)) in Hhi at 1 by lia.
    rewrite Z.pow_succ_r in Hhi by lia.
    assert (Hrange : 1 <= s / 10 ^ (k - 1) <= 9).
    { split.
      - apply Z.div_le_lower_bound; lia.
      - assert (s / 10 ^ (k - 1) < 10); [|lia].
        apply Z.div_lt_upper_bound; lia. }
    rewrite parse_decimal_int; [| left; split; [reflexivity | lia] | reflexivity].
    rewrite parse_fraction_pad by (assumption || lia).
    rewrite parse_exponent_text by assumption.
    apply some_triple.
    - rewrite digits_value_parts; [| simpl; lia |].
      + replace (Z.of_nat (S v)) with (k - 1) by lia. lia.
      + replace (Z.of_nat (S v)) with (k - 1) by lia. lia.
    - rewrite length_pad_digits. lia. }
Qed.

(** The text of a decimal starts with a digit. *)
Lemma decimal_text_start (s e : Z) (rest : string) :
  0 < s -> exists c r, decimal_text s e rest = String c r /\ is_digit c = true.
Proof.
  intros Hs. destruct (num_digits_spec s Hs) as (Hk & Hlo & Hhi).
  unfold decimal_text. set (k := num_digits s) in *. cbv zeta.
  assert (Hpad : forall (w : nat) (a : Z) (r : string), 0 <= a ->
             exists c r', pad_digits (S w) a r = String c r' /\ is_digit c = true).
  { intros w a r Ha. rewrite pad_digits_cons by assumption.
    eexists _, _. split; [reflexivity|].
    apply (digit_char_spec _ (digit_of_mod _)). }
  destruct ((k <=? e + k) && (e + k <=? 21)) eqn:HA;
    [apply andb_true_iff in HA as [H1 H2] | apply andb_false_iff in HA].
  { apply Z.leb_le in H1, H2.
    destruct (to_nat_succ (e + k)) as (w & -> & _); [lia|].
    apply Hpad. pose proof (pow10_pos (e + k - k) ltac:(lia)). nia. }
  destruct ((0 <? e + k) && (e + k <=? 21)) eqn:HB;
    [apply andb_true_iff in HB as [H1 H2] | apply andb_false_iff in HB].
  { apply Z.ltb_lt in H1.
    destruct (to_nat_succ (e + k)) as (w & -> & _); [lia|].
    apply Hpad. apply Z.div_pos; [lia|]. apply pow10_pos.
    destruct (Z.leb_spec k (e + k)); [|lia].
    destruct HA as [HA|HA]; [discriminate|]. apply Z.leb_gt in HA. lia. }
  destruct ((-6 <? e + k) && (e + k <=? 0)) eqn:HC;
    [apply andb_true_iff in HC as [H1 H2] | apply andb_false_iff in HC].
  { eexists _, _. split; reflexivity. }
  destruct (Z.eqb_spec k 1).
  - apply Hpad. lia.
  - apply Hpad. apply Z.div_pos; [lia|]. apply pow10_pos. lia.
Qed.

(** ** The digits that are printed read as the double *)

Lemma round_div_exact (c b : Z) : 0 < b -> round_div (c * b) b = c.
Proof.
  intros Hb. unfold round_div.
  rewrite Z.div_mul, Z.mod_mul by lia. cbv zeta.
  replace (2 * 0 <? b) with true by (symmetry; apply Z.ltb_lt; lia).
  reflexivity.
Qed.

Lemma is_double_spec (d : Z) :
  is_double d = true ->
  Z.abs d <= max_double /\
  (Z.abs d < 2 ^ 53 \/
   Z.abs d = Z.shiftr (Z.abs d) (Z.log2 (Z.abs d) - 52) * 2 ^ (Z.log2 (Z.abs d) - 52) /\
   2 ^ 53 <= Z.abs d).
Proof.
  unfold is_double. cbv zeta. intros H.
  apply andb_true_iff in H as [H1 H2]. apply Z.leb_le in H1. split; [exact H1|].
  destruct (Z.ltb_spec (Z.abs d) (2 ^ 53)) as [Hlt|Hge]; [now left|right].
  cbn [orb] in H2. apply Z.eqb_eq in H2.
  split; [|exact Hge].
  rewrite Z.shiftl_mul_pow2 in H2; [now symmetry|].
  assert (53 <= Z.log2 (Z.abs d)); [|lia].
  apply Z.log2_le_pow2; lia.
Qed.

Lemma pow10_split (k : Z) : 0 <= k -> 10 ^ k = 5 ^ k * 2 ^ k.
Proof. intros Hk. now rewrite <- Z.pow_mul_l. Qed.

(** A double is the nearest double of its own exact decimal expansion. *)
Lemma nearest_double_exact (d : Z) :
  0 < d -> is_double d = true ->
  nearest_double (5 ^ 1074 * d) (10 ^ 1074) = d.
Proof.
  intros Hd Hdbl. apply is_double_spec in Hdbl.
  rewrite Z.abs_eq in Hdbl by lia. destruct Hdbl as [Hmax Hdbl].
  unfold nearest_double.
  rewrite (pow10_split 1074) by lia.
  rewrite !Z.shiftl_mul_pow2 by lia.
  assert (H5 : 0 < 5 ^ 1074) by (apply Z.pow_pos_nonneg; lia).
  assert (H2 : 0 < 2 ^ 1074) by (apply Z.pow_pos_nonneg; lia).
  generalize dependent (5 ^ 1074). intros P5 H5.
  replace (P5 * d * 2 ^ 1074) with (d * (P5 * 2 ^ 1074)) by lia.
  rewrite Z.div_mul by lia. cbv zeta.
  destruct (Z.ltb_spec d (2 ^ 53)) as [Hlt|Hge].
  - apply round_div_exact. lia.
  - destruct Hdbl as [Hlt|[Heq _]]; [lia|].
    set (s := Z.log2 d - 52) in *.
    assert (Hs : 1 <= s).
    { assert (53 <= Z.log2 d); [|lia]. apply Z.log2_le_pow2; lia. }
    assert (H2s : 0 < 2 ^ s) by (apply Z.pow_pos_nonneg; lia).
    generalize dependent (Z.shiftr d s). intros d' Heq.
    destruct (Z.leb_spec s 1074) as [Hle|Hgt].
    + rewrite !Z.shiftl_mul_pow2 by lia.
      replace (P5 * d * 2 ^ (1074 - s)) with (d' * (P5 * 2 ^ 1074)).
      * rewrite round_div_exact by lia. lia.
      * assert (Hpow : 2 ^ 1074 = 2 ^ s * 2 ^ (1074 - s))
          by (rewrite <- Z.pow_add_r by lia; f_equal; lia).
        rewrite Hpow, Heq. ring.
    + rewrite !Z.shiftl_mul_pow2 by lia.
      replace (P5 * d) with (d' * (P5 * 2 ^ 1074 * 2 ^ (s - 1074))).
      * assert (0 < 2 ^ (s - 1074)) by (apply Z.pow_pos_nonneg; lia).
        rewrite round_div_exact by nia. lia.
      * assert (Hpow : 2 ^ s = 2 ^ 1074 * 2 ^ (s - 1074))
          by (rewrite <- Z.pow_add_r by lia; f_equal; lia).
        rewrite Heq, Hpow. ring.
Qed.

Lemma decimal_number_exact (d : Z) :
  0 < d -> is_double d = true ->
  decimal_number false (5 ^ 1074 * d) (- 1074) = Finite d.
Proof.
  intros Hd Hdbl. unfold decimal_number.
  change (0 <=? - 1074) with false. cbv iota.
  change (- - 1074) with 1074.
  rewrite nearest_double_exact by assumption. cbv zeta.
  apply is_double_spec in Hdbl. rewrite Z.abs_eq in Hdbl by lia.
  destruct Hdbl as [Hmax _].
  replace (d =? 0) with false by (symmetry; apply Z.eqb_neq; lia).
  replace (max_double <? d) with false by (symmetry; apply Z.ltb_ge; lia).
  reflexivity.
Qed.

Lemma reads_as_spec (d s e : Z) :
  reads_as d s e = true -> 0 < s /\ decimal_number false s e = Finite d.
Proof.
  unfold reads_as. intros H. apply andb_true_iff in H as [H1 H2].
  apply Z.ltb_lt in H1. split; [exact H1|].
  destruct (decimal_number false s e); try discriminate.
  apply Z.eqb_eq in H2. now subst.
Qed.

Lemma shortest_from_spec (fuel : nat) (d e s e' : Z) :
  0 < d -> is_double d = true ->
  shortest_from fuel d e = (s, e') ->
  0 < s /\ decimal_number false s e' = Finite d.
Proof.
  intros Hd Hdbl. revert e. induction fuel as [|fuel IH]; intros e.
  - cbn [shortest_from]. intros [= <- <-]. split.
    + assert (0 < 5 ^ 1074) by (apply Z.pow_pos_nonneg; lia). nia.
    + now apply decimal_number_exact.
  - cbn [shortest_from]. cbv zeta.
    set (lo := if 0 <=? e then _ else _).
    destruct (reads_as d lo e) eqn:Hlo, (reads_as d (lo + 1) e) eqn:Hhi.
    + destruct (_ =? lo); intros [= <- <-]; now apply reads_as_spec.
    + intros [= <- <-]. now apply reads_as_spec.
    + intros [= <- <-]. now apply reads_as_spec.
    + apply IH.
Qed.

Lemma decimal_number_negative (M E k : Z) :
  0 < k -> decimal_number false M E = Finite k ->
  decimal_number true M E = Finite (- k).
Proof.
  unfold decimal_number. cbv zeta. intros Hk.
  destruct (_ =? 0); [intros [= <-]; lia|].
  destruct (max_double <? _); [discriminate|].
  now intros [= ->].
Qed.

Lemma parse_literal_digit (c : ascii) (r : string) :
  is_digit c = true ->
  parse_literal (String c r)
  = match parse_decimal (String c r) with
    | Some (M, E, rest) => Some (decimal_number false M E, rest)
    | None => None
    end.
Proof.
  destruct c as [[] [] [] [] [] [] [] []]; try discriminate; reflexivity.
Qed.

Lemma is_double_opp (d : Z) : is_double (- d) = is_double d.
Proof. unfold is_double. now rewrite Z.abs_opp. Qed.

(** What [JSON.stringify] writes for a double is read back by [JSON.parse]
    as the same double. *)
Lemma parse_literal_double_text (d : Z) (rest : string) :
  is_double d = true -> delimited rest ->
  parse_literal (double_text d rest) = Some (Finite d, rest).
Proof.
  intros Hdbl Hrest. unfold double_text.
  destruct (Z.eqb_spec d 0) as [->|Hnz].
  - destruct (delimited_ends_number rest Hrest) as (Hspan & Hfrac & Hexp).
    cbv iota. rewrite parse_literal_digit by reflexivity.
    change (String "0" rest) with (pad_digits 1 0 rest).
    rewrite parse_decimal_int by (assumption || (left; split; [reflexivity | lia])).
    rewrite Hfrac, Hexp. reflexivity.
  - assert (Habs : is_double (Z.abs d) = true).
    { destruct (Z.abs_spec d) as [[_ ->]|[_ ->]]; [|rewrite is_double_opp]; assumption. }
    destruct (shortest (Z.abs d)) as [s e] eqn:Hshort.
    assert (Hpos0 : 0 < Z.abs d) by lia.
    destruct (shortest_from_spec _ _ _ _ _ Hpos0 Habs Hshort) as [Hs Hread].
    destruct (parse_decimal_text s e rest Hs Hrest) as (M & E & Hparse & Hsame).
    destruct (Z.ltb_spec d 0) as [Hneg|Hpos].
    + cbn [parse_literal]. rewrite Hparse, Hsame.
      rewrite (decimal_number_negative _ _ (Z.abs d)) by (lia || assumption).
      do 3 f_equal. lia.
    + destruct (decimal_text_start s e rest Hs) as (c & r & Htext & Hc).
      rewrite Htext, parse_literal_digit by assumption.
      rewrite <- Htext, Hparse, Hsame, Hread. do 3 f_equal. lia.
Qed.

(** The text of a double starts with a digit or a minus sign. *)
Lemma double_text_start (d : Z) (rest : string) :
  is_double d = true ->
  exists c r, double_text d rest = String c r /\
              (is_digit c = true \/ c = "-"%char).
Proof.
  intros Hdbl. unfold double_text.
  destruct (Z.eqb_spec d 0) as [->|Hnz];
    [eexists _, _; split; [reflexivity | now left]|].
  assert (Habs : is_double (Z.abs d) = true).
  { destruct (Z.abs_spec d) as [[_ ->]|[_ ->]]; [|rewrite is_double_opp]; assumption. }
  destruct (shortest (Z.abs d)) as [s e] eqn:Hshort.
  assert (Hpos0 : 0 < Z.abs d) by lia.
  destruct (shortest_from_spec _ _ _ _ _ Hpos0 Habs Hshort) as [Hs _].
  destruct (d <? 0); [eexists _, _; split; [reflexivity | now right]|].
  destruct (decimal_text_start s e rest Hs) as (c & r & -> & Hc).
  eexists _, _. split; [reflexivity | now left].
Qed.

Lemma pad_digits_append_r (w : nat) (n : Z) (r r' : string) :
  (pad_digits w n r ++ r')%string = pad_digits w n (r ++ r')%string.
Proof.
  rewrite (pad_digits_append w n r), (pad_digits_append w n (r ++ r')).
  apply append_assoc.
Qed.

Lemma exponent_text_append (x : Z) (r r' : string) :
  (exponent_text x r ++ r')%string = exponent_text x (r ++ r')%string.
Proof.
  unfold exponent_text. cbn [String.append]. now rewrite pad_digits_append_r.
Qed.

Lemma decimal_text_append (s e : Z) (r r' : string) :
  (decimal_text s e r ++ r')%string = decimal_text s e (r ++ r')%string.
Proof.
  unfold decimal_text. cbv zeta.
  repeat match goal with |- context [if ?b then _ else _] => destruct b end;
    cbn [String.append];
    rewrite ?pad_digits_append_r; cbn [String.append];
    rewrite ?pad_digits_append_r, ?exponent_text_append; reflexivity.
Qed.

Lemma double_text_append (d : Z) (r r' : string) :
  (double_text d r ++ r')%string = double_text d (r ++ r')%string.
Proof.
  unfold double_text. destruct (d =? 0); [reflexivity|].
  destruct (shortest (Z.abs d)) as [s e].
  destruct (d <? 0); cbn [String.append]; now rewrite decimal_text_append.
Qed.

(** A value that starts with a digit or a minus sign is a number. *)
Lemma parse_value_number_start (fuel : nat) (c : ascii) (r : string) :
  is_digit c = true \/ c = "-"%char ->
  parse_value (S fuel) (String c r) = parse_number (String c r) /\
  is_ws c = false /\ Ascii.eqb c "]" = false.
Proof.
  intros [Hc| ->]; [|repeat split; reflexivity].
  destruct c as [[] [] [] [] [] [] [] []]; try discriminate; repeat split; reflexivity.
Qed.

Lemma parse_value_number (fuel : nat) (d : Z) (rest : string) :
  is_double d = true -> delimited rest ->
  parse_value (S fuel) (JSON_text (VNumber (Finite d)) ++ rest)
  = Some (VNumber (Finite d), rest).
Proof.
  intros Hdbl Hrest. cbn [JSON_text isFinite Number_prototype_toString].
  rewrite double_text_append. cbn [String.append].
  destruct (double_text_start d rest Hdbl) as (c & r & Htext & Hc).
  rewrite Htext.
  destruct (parse_value_number_start fuel c r Hc) as (-> & _).
  rewrite <- Htext. unfold parse_number.
  now rewrite parse_literal_double_text.
Qed.

(** One half, one, the double nearest to one tenth; literals beyond the
    range of doubles; texts that are not number literals. *)
Example parse_literal_examples :
  parse_literal "0.5" = Some (Finite (2 ^ 1073), "") /\
  parse_literal "1" = Some (Finite (of_integer 1), "") /\
  parse_literal "0.1" = Some (Finite (3602879701896397 * 2 ^ 1019), "") /\
  parse_literal "-1.5e3" = Some (Finite (- of_integer 1500), "") /\
  parse_literal "1e400" = Some (Infinity false, "") /\
  parse_literal "-0" = Some (NegativeZero, "") /\
  parse_literal "1e-400" = Some (Finite 0, "") /\
  parse_literal "01" = None /\ parse_literal "1." = None /\
  parse_literal ".5" = None /\ parse_literal "1e" = None /\ parse_literal "+1" = None.
Proof. vm_compute. repeat split. Qed.

(** One tenth; the sum of one tenth and two tenths; where the exponent form
    begins and ends; the smallest and the largest double. *)
Example Number_prototype_toString_examples :
  map Number_prototype_toString
    [Finite (3602879701896397 * 2 ^ 1019); Finite (5404319552844596 * 2 ^ 1020);
     Finite (of_integer (10 ^ 21)); Finite (of_integer 123456789012345683968);
     Finite (- of_integer 1500); Finite 1; Finite max_double;
     NegativeZero; NaN; Infinity true]
  = ["0.1"; "0.30000000000000004"; "1e+21"; "123456789012345680000"; "-1500";
     "5e-324"; "1.7976931348623157e+308"; "0"; "NaN"; "-Infinity"].
Proof. vm_compute. reflexivity. Qed.

(** On integers the two printers agree. *)
Example Number_toString_integers :
  map (fun n => Number_prototype_toString (Finite (of_integer n)))
      [0; 7; 10; 1712052000000; -42]
  = map Number_toString [0; 7; 10; 1712052000000; -42].
Proof. vm_compute. reflexivity. Qed.

(** ** Values *)

Lemma skip_ws_start (c : ascii) (r : string) :
  is_ws c = false -> skip_ws (String c r) = String c r.
Proof. intros H. cbn [skip_ws]. now rewrite H. Qed.

(** The text of a JSON value starts with a character that is neither white
    space nor a closing bracket. *)
Lemma JSON_text_start (v : value) :
  is_json v = true ->
  exists c r, JSON_text v = String c r /\ is_ws c = false /\ Ascii.eqb c "]" = false.
Proof.
  destruct v as [ | | [] | [| | |d] | s | tv | elems | props]; try discriminate;
    intros Hjson; try (eexists _, _; repeat split; reflexivity).
  cbn [JSON_text isFinite Number_prototype_toString].
  destruct (double_text_start d "" Hjson) as (c & r & -> & Hc).
  exists c, r. split; [reflexivity|].
  apply (parse_value_number_start 0 c r Hc).
Qed.

Lemma obj_set_fresh (k : string) (v : value) (props : list (string * value)) :
  existsb (String.eqb k) (map fst props) = false ->
  obj_set k v props = props ++ [(k, v)].
Proof.
  induction props as [|[k' v'] props IH]; [reflexivity|].
  cbn [map fst existsb obj_set]. intros H. apply orb_false_elim in H.
  destruct H as [-> H]. cbn [app]. now rewrite IH.
Qed.

Lemma existsb_eqb_app (k : string) (l1 l2 : list string) :
  existsb (String.eqb k) (l1 ++ l2)
  = existsb (String.eqb k) l1 || existsb (String.eqb k) l2.
Proof. apply existsb_app. Qed.

Lemma obj_assign_distinct (base props : list (string * value)) :
  distinct (map fst (base ++ props)) = true ->
  obj_assign base props = base ++ props.
Proof.
  revert base. induction props as [|[k v] props IH]; intros base H.
  - now rewrite app_nil_r.
  - unfold obj_assign in *. cbn [fold_left fst snd].
    replace (base ++ (k, v) :: props) with ((base ++ [(k, v)]) ++ props) in *
      by now rewrite <- app_assoc.
    rewrite obj_set_fresh.
    + now apply IH.
    + clear IH. induction base as [|[k' v'] base IHb]; [reflexivity|].
      cbn [app map fst distinct existsb] in *.
      apply andb_prop in H. destruct H as [Hk' H].
      rewrite (IHb H), orb_false_r.
      rewrite !map_app, !existsb_eqb_app in Hk'. cbn [map fst existsb] in Hk'.
      apply negb_true_iff in Hk'.
      apply orb_false_elim in Hk'. destruct Hk' as [Hk' _].
      apply orb_false_elim in Hk'. destruct Hk' as [_ Hk'].
      rewrite orb_false_r in Hk'. rewrite String.eqb_sym. exact Hk'.
Qed.

Lemma delimited_comma (r : string) : delimited (String "," r).
Proof. now left. Qed.

Lemma delimited_bracket (r : string) : delimited (String "]" r).
Proof. right. now left. Qed.

Lemma delimited_brace (r : string) : delimited (String "}" r).
Proof. right. now right. Qed.

Lemma parse_elements_text (es : list value) :
  Forall parses_back es -> forallb is_json es = true -> es <> [] ->
  forall (fuel : nat) (rest : string),
    (fold_right (fun e n => S (parse_cost e + n)) 0 es <= fuel)%nat ->
    parse_elements fuel (join_comma (map JSON_text es) ++ String "]" rest)
    = Some (es, rest).
Proof.
  induction 1 as [|e0 es He0 _ IHes]; intros Hjson Hne fuel rest Hfuel; [contradiction|].
  cbn [forallb] in Hjson. apply andb_prop in Hjson. destruct Hjson as [Hj0 Hjs].
  cbn [fold_right] in Hfuel.
  destruct fuel as [|fuel]; [lia|]. cbn [parse_elements].
  destruct es as [|e1 es].
  - cbn [map join_comma].
    rewrite (He0 Hj0) by (try apply delimited_bracket; cbn [fold_right] in *; lia).
    reflexivity.
  - change (join_comma (map JSON_text (e0 :: e1 :: es)))
      with (JSON_text e0 ++ String "," (join_comma (map JSON_text (e1 :: es))))%string.
    rewrite append_assoc. simpl String.append at 2.
    rewrite (He0 Hj0) by (try apply delimited_comma; lia).
    cbn [mbind option_bind skip_ws is_ws].
    rewrite (IHes Hjs) by (try discriminate; lia). reflexivity.
Qed.

Lemma parse_members_text (ms : list (string * value)) :
  Forall (fun kv => parses_back (snd kv)) ms ->
  forallb (fun kv => is_json (snd kv)) ms = true -> ms <> [] ->
  forall (fuel : nat) (rest : string),
    (fold_right (fun kv n => S (parse_cost (snd kv) + n)) 0 ms <= fuel)%nat ->
    parse_members fuel (join_comma (map member_text ms) ++ String "}" rest)
    = Some (ms, rest).
Proof.
  induction 1 as [|[k0 e0] ms He0 _ IHms]; intros Hjson Hne fuel rest Hfuel; [contradiction|].
  cbn [forallb snd] in Hjson. apply andb_prop in Hjson. destruct Hjson as [Hj0 Hjs].
  cbn [fold_right snd] in Hfuel. cbn [snd] in He0.
  destruct fuel as [|fuel]; [lia|]. cbn [parse_members].
  destruct ms as [|m1 ms].
  - cbn [map join_comma]. unfold member_text at 1. cbn [fst snd].
    rewrite QuoteJSONString_append. unfold QuoteJSONString.
    cbn [skip_ws is_ws]. rewrite parse_chars_escape.
    cbn [mbind option_bind skip_ws is_ws]. simpl String.append.
    cbn [skip_ws is_ws].
    rewrite (He0 Hj0) by (try apply delimited_brace; cbn [fold_right] in *; lia).
    reflexivity.
  - change (join_comma (map member_text ((k0, e0) :: m1 :: ms)))
      with (member_text (k0, e0)
            ++ String "," (join_comma (map member_text (m1 :: ms))))%string.
    unfold member_text at 1. cbn [fst snd].
    rewrite append_assoc, QuoteJSONString_append. unfold QuoteJSONString.
    cbn [skip_ws is_ws]. rewrite parse_chars_escape.
    cbn [mbind option_bind skip_ws is_ws]. simpl String.append.
    cbn [skip_ws is_ws].
    rewrite (He0 Hj0) by (try apply delimited_comma; lia).
    cbn [mbind option_bind skip_ws is_ws].
    rewrite (IHms Hjs) by (try discriminate; lia). reflexivity.
Qed.

Lemma parse_value_JSON_text (v : value) : parses_back v.
Proof.
  induction v as [ | | b | n | s | tv | elems IH | props IH] using value_nested_ind;
    intros Hjson fuel rest Hfuel Hrest; try discriminate;
    (destruct fuel as [|fuel]; [cbn [parse_cost] in Hfuel; lia|]).
  - reflexivity.
  - destruct b; reflexivity.
  - destruct n; try discriminate. now apply parse_value_number.
  - cbn [JSON_text]. rewrite QuoteJSONString_append. unfold QuoteJSONString.
    cbn [parse_value skip_ws is_ws]. rewrite parse_chars_escape. reflexivity.
  - (* arrays *)
    cbn [JSON_text is_json parse_cost] in *. apply le_S_n in Hfuel.
    simpl String.append. rewrite append_assoc. simpl String.append.
    cbn [parse_value skip_ws is_ws].
    destruct elems as [|e elems]; [reflexivity|].
    pose proof (parse_elements_text _ IH Hjson ltac:(discriminate) fuel rest Hfuel)
      as Helems.
    cbn [forallb] in Hjson. apply andb_prop in Hjson. destruct Hjson as [Hj0 _].
    destruct (JSON_text_start e Hj0) as (c & r & Htext & Hws & Hc).
    assert (Hstart : skip_ws (join_comma (map JSON_text (e :: elems)) ++ String "]" rest)
                     = (join_comma (map JSON_text (e :: elems)) ++ String "]" rest)%string
                     /\ starts_with "]" (join_comma (map JSON_text (e :: elems))
                                         ++ String "]" rest) = false).
    { cbn [map join_comma]. destruct (map JSON_text elems); rewrite Htext;
        simpl String.append; rewrite skip_ws_start by assumption; split;
        try reflexivity; exact Hc. }
    destruct Hstart as [-> ->]. rewrite Helems. reflexivity.
  - (* objects *)
    cbn [JSON_text is_json parse_cost] in *. apply le_S_n in Hfuel.
    apply andb_prop in Hjson. destruct Hjson as [Hkeys Hjson].
    simpl String.append. rewrite append_assoc. simpl String.append.
    cbn [parse_value skip_ws is_ws].
    destruct props as [|[k e] props]; [reflexivity|].
    fold member_text.
    pose proof (parse_members_text _ IH Hjson ltac:(discriminate) fuel rest Hfuel)
      as Hmembers.
    assert (Hstart : skip_ws (join_comma (map member_text ((k, e) :: props))
                              ++ String "}" rest)
                     = (join_comma (map member_text ((k, e) :: props))
                        ++ String "}" rest)%string
                     /\ starts_with "}" (join_comma (map member_text ((k, e) :: props))
                                         ++ String "}" rest) = false).
    { cbn [map join_comma]. destruct (map member_text props); unfold member_text at 1;
        unfold QuoteJSONString; simpl String.append; split; reflexivity. }
    destruct Hstart as [-> ->]. rewrite Hmembers.
    cbn [mbind option_bind]. rewrite (obj_assign_distinct [] _ Hkeys). reflexivity.
Qed.

(** ** [JSON.parse] of the text of a JSON value *)

Lemma escape_char_append (c : ascii) (t : string) :
  escape_char c t = (escape_char c "" ++ t)%string.
Proof. destruct c as [[] [] [] [] [] [] [] []]; reflexivity. Qed.

Lemma length_escape (s rest : string) :
  (String.length rest <= String.length (escape s rest))%nat.
Proof.
  induction s as [|c s IH]; [reflexivity|].
  cbn [escape]. rewrite escape_char_append, length_append. lia.
Qed.

Lemma length_QuoteJSONString (s rest : string) :
  (2 + String.length rest <= String.length (QuoteJSONString s rest))%nat.
Proof.
  unfold QuoteJSONString. cbn [String.length].
  pose proof (length_escape s (String "034" rest)) as H. cbn [String.length] in H. lia.
Qed.

Lemma parse_cost_length (v : value) :
  is_json v = true -> (parse_cost v <= 2 * String.length (JSON_text v))%nat.
Proof.
  induction v as [ | | b | n | s | tv | elems IH | props IH] using value_nested_ind;
    intros Hjson; try discriminate.
  - cbn. lia.
  - destruct b; cbn; lia.
  - destruct (JSON_text_start (VNumber n) Hjson) as (c & r & -> & _). cbn. lia.
  - cbn [JSON_text parse_cost].
    pose proof (length_QuoteJSONString s ""). lia.
  - cbn [JSON_text parse_cost is_json String.length] in *. rewrite length_append.
    cbn [String.length].
    enough (fold_right (fun e n => S (parse_cost e + n)) 0 elems
            <= 2 * String.length (join_comma (map JSON_text elems)) + 1)%nat by lia.
    induction IH as [|e es He _ IHes]; [cbn; lia|].
    cbn [forallb] in Hjson. apply andb_prop in Hjson. destruct Hjson as [Hj Hjs].
    specialize (He Hj). specialize (IHes Hjs). cbn [fold_right map join_comma].
    destruct es as [|e1 es]; cbn [map].
    + cbn [fold_right]. lia.
    + rewrite length_append. cbn [String.length]. cbn [map] in IHes. lia.
  - cbn [JSON_text parse_cost is_json String.length] in *. rewrite length_append.
    cbn [String.length].
    apply andb_prop in Hjson. destruct Hjson as [_ Hjson]. fold member_text.
    enough (fold_right (fun kv n => S (parse_cost (snd kv) + n)) 0 props
            <= 2 * String.length (join_comma (map member_text props)) + 1)%nat by lia.
    induction IH as [|[k e] ms He _ IHms]; [cbn; lia|].
    cbn [forallb snd] in Hjson. apply andb_prop in Hjson. destruct Hjson as [Hj Hjs].
    cbn [snd] in He. specialize (He Hj). specialize (IHms Hjs).
    cbn [fold_right map join_comma snd].
    assert (Hm : (3 + String.length (JSON_text e) <= String.length (member_text (k, e)))%nat).
    { unfold member_text. cbn [fst snd].
      pose proof (length_QuoteJSONString k (String ":" (JSON_text e))) as H.
      cbn [String.length] in H. lia. }
    destruct ms as [|m1 ms]; cbn [map].
    + cbn [fold_right]. lia.
    + rewrite length_append. cbn [String.length]. cbn [map] in IHms. lia.
Qed.

(** [JSON.parse(text of v)] is [v]. *)
Lemma JSON_parse_JSON_text (v : value) :
  is_json v = true -> JSON_parse (JSON_text v) = Ok v.
Proof.
  intros Hjson. unfold JSON_parse.
  pose proof (parse_value_JSON_text v Hjson
                (2 * String.length (JSON_text v) + 2)%nat EmptyString) as H.
  rewrite append_nil_r in H. rewrite H; [reflexivity | | exact I].
  pose proof (parse_cost_length v Hjson). lia.
Qed.

(** Coordinates as they are written and read, with a fraction or with an
    exponent. *)
Example JSON_coordinates :
  JSON_text (VArray [VNumber (Finite (lat Shibuya)); VNumber (Finite (- lng Shibuya))])
  = "[35.6595,-139.7005]" /\
  JSON_parse "[35.6595,-139.7005]"
  = Ok (VArray [VNumber (Finite (lat Shibuya)); VNumber (Finite (- lng Shibuya))]) /\
  JSON_parse " [ 3.56595e1 , -1397005E-4 ] "
  = Ok (VArray [VNumber (Finite (lat Shibuya)); VNumber (Finite (- lng Shibuya))]).
Proof. vm_compute. repeat split. Qed.

(** ** [JSON.stringify] with the date replacer *)


(** ** [JSON.stringify] with the date replacer *)

Lemma serialize_elements (fuel : nat) (elems : list value) (i : nat) :
  Forall (fun e => forall key, SerializeJSONProperty fuel dateReplacer key e
                               = Ok (serialized e)) elems ->
  mapMi (fun i e =>
           r <- SerializeJSONProperty fuel dateReplacer (index_key i) e ;;
           Ok (match r with Some s => s | None => "null" end)) i elems
  = Ok (map (fun e => JSON_text (undefined_as_null e)) elems).
Proof.
  intros H. revert i. induction H as [|e es He _ IH]; intros i; [reflexivity|].
  cbn [mapMi map]. rewrite He. cbn [bind]. rewrite IH. cbn [bind].
  destruct e; reflexivity.
Qed.

Lemma serialize_members (fuel : nat) (props : list (string * value)) :
  Forall (fun kv => forall key, SerializeJSONProperty fuel dateReplacer key (snd kv)
                                = Ok (serialized (snd kv))) props ->
  mapM (fun kv =>
          r <- SerializeJSONProperty fuel dateReplacer (fst kv) (snd kv) ;;
          Ok (option_map (fun s => QuoteJSONString (fst kv) (String ":" s)) r)) props
  = Ok (map (fun kv => option_map (fun s => QuoteJSONString (fst kv) (String ":" s))
                                  (serialized (snd kv))) props).
Proof.
  induction 1 as [|kv ms He _ IH]; [reflexivity|].
  cbn [mapM map]. rewrite He. cbn [bind]. rewrite IH. reflexivity.
Qed.

Lemma cat_somes_members (props : list (string * value)) :
  cat_somes (map (fun kv => option_map (fun s => QuoteJSONString (fst kv) (String ":" s))
                                       (serialized (snd kv))) props)
  = map member_text
        (flat_map (fun kv => match snd kv with
                             | VUndefined => []
                             | _ => [(fst kv, dehydrate (snd kv))]
                             end) props).
Proof.
  induction props as [|[k e] props IH]; [reflexivity|].
  cbn [map flat_map fst snd]. destruct e; cbn [serialized option_map cat_somes app map];
    rewrite IH; reflexivity.
Qed.

Lemma depth_elements (f : nat) (elems : list value) :
  (fold_right (fun e d => Nat.max (value_depth e) d) 0 elems < f)%nat ->
  Forall (fun e => (value_depth e < f)%nat) elems.
Proof.
  induction elems as [|e es IH]; intros H; constructor; cbn [fold_right] in H.
  - lia.
  - apply IH. lia.
Qed.

Lemma depth_members (f : nat) (props : list (string * value)) :
  (fold_right (fun kv d => Nat.max (value_depth (snd kv)) d) 0 props < f)%nat ->
  Forall (fun kv => (value_depth (snd kv) < f)%nat) props.
Proof.
  induction props as [|e es IH]; intros H; constructor; cbn [fold_right] in H.
  - lia.
  - apply IH. lia.
Qed.

(** With the replacer of [serializeTrips], a value is written as the text of
    its dehydrated form, provided the call stack is deep enough for it. *)
Lemma SerializeJSONProperty_dateReplacer (v : value) :
  forall (fuel : nat) (key : string),
    (value_depth v < fuel)%nat ->
    SerializeJSONProperty fuel dateReplacer key v = Ok (serialized v).
Proof.
  induction v as [ | | b | n | s | tv | elems IH | props IH] using value_nested_ind;
    intros fuel key Hfuel; (destruct fuel as [|fuel]; [lia|]);
    try reflexivity.
  - destruct n as [|[]| |d]; reflexivity.
  - destruct tv; reflexivity.
  - cbn [value_depth] in Hfuel. apply Nat.succ_lt_mono in Hfuel.
    apply depth_elements in Hfuel.
    cbn [SerializeJSONProperty dateReplacer bind].
    rewrite serialize_elements.
    + cbn [bind serialized dehydrate JSON_text]. rewrite map_map. reflexivity.
    + rewrite Forall_forall in *. intros e He key'. apply IH; [assumption|].
      now apply Hfuel.
  - cbn [value_depth] in Hfuel. apply Nat.succ_lt_mono in Hfuel.
    apply depth_members in Hfuel.
    cbn [SerializeJSONProperty dateReplacer bind].
    rewrite serialize_members.
    + cbn [bind serialized dehydrate JSON_text]. rewrite cat_somes_members.
      reflexivity.
    + rewrite Forall_forall in *. intros e He key'. apply IH; [assumption|].
      now apply Hfuel.
Qed.

(* ===================================================================== *)
(** * The storage codec on typed trips *)
(* ===================================================================== *)

Lemma toISOString_truthy (t : Z) : ToBoolean (VString (toISOString t)) = true.
Proof. destruct (toISOString_nonempty t) as (c & r & ->). reflexivity. Qed.

(** Reviving a stored item gives back the item: the dates common to all
    items, and the dates of its own variant. *)
Lemma reviveItem_Item_value (item : ItineraryItem) :
  wf_Item item ->
  exists v, reviveItem (dehydrate (Item_value item)) = Ok v /\ as_Item v = Some item.
Proof.
  destruct item as [[[i t sd ed n] o d dt at_ al fn cn]
                   |[[i t sd ed n] nm l ci co br]
                   |[[i t sd ed n] nm l ty tm]];
    unfold wf_Item, wf_BaseItem; cbn [item_base flight_base accommodation_base activity_base
      startDate endDate departureTime arrivalTime checkIn checkOut].
  - intros [[Hsd Hed] (Hdt & Hat & _)].
    destruct ed as [ed|], n as [n|], al as [al|], fn as [fn|], cn as [cn|];
      cbn [validOptTime] in Hed; destruct o, d;
      (eexists; split;
       [ cbv -[toISOString Date_parse ToBoolean]; rewrite ?toISOString_truthy;
         cbv -[toISOString Date_parse ToBoolean];
         rewrite ?Date_parse_toISOString by assumption; reflexivity
       | cbv -[toISOString Date_parse]; reflexivity ]).
  - intros [[Hsd Hed] (Hci & Hco & _)].
    destruct ed as [ed|], n as [n|], br as [br|];
      cbn [validOptTime] in Hed; destruct l;
      (eexists; split;
       [ cbv -[toISOString Date_parse ToBoolean]; rewrite ?toISOString_truthy;
         cbv -[toISOString Date_parse ToBoolean];
         rewrite ?Date_parse_toISOString by assumption; reflexivity
       | cbv -[toISOString Date_parse]; reflexivity ]).
  - intros [[Hsd Hed] _].
    destruct ed as [ed|], n as [n|], tm as [tm|];
      cbn [validOptTime] in Hed; destruct l, ty;
      (eexists; split;
       [ cbv -[toISOString Date_parse ToBoolean]; rewrite ?toISOString_truthy;
         cbv -[toISOString Date_parse ToBoolean];
         rewrite ?Date_parse_toISOString by assumption; reflexivity
       | cbv -[toISOString Date_parse]; reflexivity ]).
Qed.

Lemma is_json_Item_value (item : ItineraryItem) :
  wf_Item item -> is_json (dehydrate (Item_value item)) = true.
Proof.
  destruct item as [[[i t sd ed n] o d dt at_ al fn cn]
                   |[[i t sd ed n] nm l ci co br]
                   |[[i t sd ed n] nm l ty tm]];
    unfold wf_Item, wf_Location;
    cbn [origin destination accommodation_location activity_location].
  - intros (_ & _ & _ & [Ho Ho'] & [Hd Hd']). destruct o, d. cbn [lat lng] in *.
    destruct ed, n, al, fn, cn; cbv -[is_double]; now rewrite Ho, Ho', Hd, Hd'.
  - intros (_ & _ & _ & [Hl Hl']). destruct l. cbn [lat lng] in *.
    destruct ed, n, br; cbv -[is_double]; now rewrite Hl, Hl'.
  - intros (_ & [Hl Hl']). destruct l. cbn [lat lng] in *.
    destruct ed, n, tm; cbv -[is_double]; now rewrite Hl, Hl'.
Qed.

Lemma value_depth_Item_value (item : ItineraryItem) :
  value_depth (Item_value item) = 2%nat.
Proof.
  destruct item as [[[i t sd ed n] o d dt at_ al fn cn]
                   |[[i t sd ed n] nm l ci co br]
                   |[[i t sd ed n] nm l ty tm]].
  - destruct ed, n, al, fn, cn; reflexivity.
  - destruct ed, n, br; reflexivity.
  - destruct ed, n, tm; reflexivity.
Qed.

Lemma undefined_as_null_Item_value (item : ItineraryItem) :
  undefined_as_null (Item_value item) = dehydrate (Item_value item).
Proof. destruct item; reflexivity. Qed.

Lemma dehydrate_items (l : list ItineraryItem) :
  map undefined_as_null (map Item_value l) = Items_json l.
Proof.
  unfold Items_json. rewrite map_map. apply map_ext.
  intros item. apply undefined_as_null_Item_value.
Qed.

Lemma reviveItem_items (l : list ItineraryItem) :
  Forall wf_Item l ->
  exists vs, mapM reviveItem (Items_json l) = Ok vs /\ as_all as_Item vs = Some l.
Proof.
  induction 1 as [|item l Hitem _ (vs & Hvs & Has)].
  - exists []. split; reflexivity.
  - destruct (reviveItem_Item_value item Hitem) as (v & Hv & Ha).
    exists (v :: vs). split.
    + cbn [Items_json map mapM]. rewrite Hv. cbn [bind].
      fold (Items_json l). rewrite Hvs. reflexivity.
    + cbn [as_all]. now rewrite Ha, Has.
Qed.

Lemma is_json_items (l : list ItineraryItem) :
  Forall wf_Item l -> forallb is_json (Items_json l) = true.
Proof.
  induction 1 as [|item l Hitem _ IH]; [reflexivity|].
  cbn [Items_json map forallb]. rewrite is_json_Item_value by assumption. exact IH.
Qed.

Lemma value_depth_items (l : list ItineraryItem) :
  (value_depth (VArray (map Item_value l)) <= 3)%nat.
Proof.
  cbn [value_depth]. apply le_n_S.
  induction l as [|item l IH]; cbn [map fold_right]; [lia|].
  rewrite value_depth_Item_value. lia.
Qed.

Lemma dehydrate_Trip_value (t : Trip) : dehydrate (Trip_value t) = Trip_json t.
Proof.
  unfold Trip_json. rewrite <- dehydrate_items. reflexivity.
Qed.

Lemma reviveTrip_Trip_json (t : Trip) :
  wf_Trip t ->
  exists v, reviveTrip (Trip_json t) = Ok v /\ as_Trip v = Some t.
Proof.
  intros (Hsd & Hed & Hca & Hua & Hitems).
  destruct (reviveItem_items (items t) Hitems) as (vs & Hvs & Has).
  destruct t as [i n sd ed its ca ua]. unfold Trip_json.
  cbn [trip_id trip_name trip_startDate trip_endDate items createdAt updatedAt] in *.
  generalize dependent (Items_json its). intros js Hvs.
  eexists. split.
  - cbv -[toISOString Date_parse mapM reviveItem]. rewrite Hvs.
    cbv -[toISOString Date_parse].
    rewrite !Date_parse_toISOString by assumption. reflexivity.
  - cbv -[as_all as_Item]. rewrite Has. reflexivity.
Qed.

Lemma is_json_Trip_json (t : Trip) : wf_Trip t -> is_json (Trip_json t) = true.
Proof.
  intros (_ & _ & _ & _ & Hitems). unfold Trip_json. cbn [is_json map fst snd forallb].
  rewrite is_json_items by assumption. reflexivity.
Qed.

Lemma value_depth_Trip_value (t : Trip) : (value_depth (Trip_value t) <= 4)%nat.
Proof.
  unfold Trip_value. cbn [value_depth fold_right snd Date_value].
  pose proof (value_depth_items (items t)) as H. cbn [value_depth] in H. lia.
Qed.

Lemma dehydrate_Trips_value (trips : list Trip) :
  dehydrate (Trips_value trips) = Trips_json trips.
Proof.
  unfold Trips_value, Trips_json. cbn [dehydrate]. f_equal.
  rewrite map_map. apply map_ext. intros t. apply dehydrate_Trip_value.
Qed.

Lemma is_json_Trips_json (trips : list Trip) :
  wf_Trips trips -> is_json (Trips_json trips) = true.
Proof.
  unfold Trips_json. cbn [is_json].
  induction 1 as [|t trips Ht _ IH]; [reflexivity|].
  cbn [map forallb]. rewrite is_json_Trip_json by assumption. exact IH.
Qed.

Lemma value_depth_Trips_value (trips : list Trip) :
  (value_depth (Trips_value trips) <= 5)%nat.
Proof.
  unfold Trips_value. cbn [value_depth]. apply le_n_S.
  induction trips as [|t trips IH]; cbn [map fold_right]; [lia|].
  pose proof (value_depth_Trip_value t). lia.
Qed.

Lemma reviveTrip_trips (trips : list Trip) :
  wf_Trips trips ->
  exists vs, mapM reviveTrip (map Trip_json trips) = Ok vs /\
             as_all as_Trip vs = Some trips.
Proof.
  induction 1 as [|t trips Ht _ (vs & Hvs & Has)].
  - exists []. split; reflexivity.
  - destruct (reviveTrip_Trip_json t Ht) as (v & Hv & Ha).
    exists (v :: vs). split.
    + cbn [map mapM]. rewrite Hv. cbn [bind]. rewrite Hvs. reflexivity.
    + cbn [as_all]. now rewrite Ha, Has.
Qed.

Lemma serializeTrips_text (trips : list Trip) :
  serializeTrips trips = Ok (VString (storedText trips)).
Proof.
  unfold serializeTrips, JSON_stringify.
  rewrite SerializeJSONProperty_dateReplacer.
  - unfold Trips_value at 1. cbn [serialized bind]. fold (Trips_value trips).
    now rewrite dehydrate_Trips_value.
  - pose proof (value_depth_Trips_value trips). unfold callStackLimit. lia.
Qed.

Lemma deserializeTrips_text (trips : list Trip) :
  wf_Trips trips ->
  exists v, deserializeTrips (storedText trips) = Ok v /\ as_Trips v = Some trips.
Proof.
  intros Hwf. destruct (reviveTrip_trips trips Hwf) as (vs & Hvs & Has).
  exists (VArray vs). unfold deserializeTrips, storedText.
  rewrite JSON_parse_JSON_text by now apply is_json_Trips_json.
  cbn [bind Trips_json Array_map]. rewrite Hvs. split; [reflexivity | exact Has].
Qed.

Lemma storedText_nonempty (trips : list Trip) : String.eqb (storedText trips) "" = false.
Proof. reflexivity. Qed.

(* ===================================================================== *)
(** * storage: saving and loading *)
(* ===================================================================== *)

Lemma console_grows {A} (l : list A) (x : A) : l ++ [x] <> l.
Proof.
  intros H. apply (f_equal (@length A)) in H. rewrite length_app in H.
  cbn [length] in H. lia.
Qed.

(** What [saveTrips] does, case by case. *)
Lemma saveTrips_cases (trips : list Trip) (w : World) :
  (saveTrips_try trips w
   = Ok {| localStorage := <[STORAGE_KEY := storedText trips]> (localStorage w);
           quota := quota w; console := console w; alerts := alerts w |}) \/
  (saveTrips_try trips w = Throw QuotaExceededError).
Proof.
  unfold saveTrips_try. rewrite serializeTrips_text.
  cbn [bind localStorage_setItem ToString].
  destruct (_ <=? _)%N; [left | right]; reflexivity.
Qed.

Lemma saveTrips_rejected (trips : list Trip) (w : World) :
  saveTrips_try trips w = Throw QuotaExceededError ->
  saveTrips trips w
  = alert "Storage quota exceeded. Please delete some trips to free up space."
      (console_error "Failed to save trips to localStorage:" QuotaExceededError w).
Proof. unfold saveTrips. intros ->. reflexivity. Qed.

Lemma saveTrips_accepted (trips : list Trip) (w w' : World) :
  saveTrips_try trips w = Ok w' -> saveTrips trips w = w'.
Proof. unfold saveTrips. intros ->. reflexivity. Qed.

Lemma loadTrips_stored (trips : list Trip) (w : World) :
  wf_Trips trips ->
  localStorage w !! STORAGE_KEY = Some (storedText trips) ->
  exists v, loadTrips w = (v, w) /\ as_Trips v = Some trips.
Proof.
  intros Hwf Hget. destruct (deserializeTrips_text trips Hwf) as (v & Hv & Ha).
  exists v. split; [|exact Ha].
  unfold loadTrips, loadTrips_try, localStorage_getItem. cbn [bind]. rewrite Hget.
  rewrite storedText_nonempty, Hv. reflexivity.
Qed.

(** C1 — Round trip.  For every well-formed trip set: [deserializeTrips]
    applied to the text written by [serializeTrips] gives values that read
    back as the same trips; and [loadTrips] applied to the store produced by a
    [saveTrips] that reported no failure returns the same trips: every
    timestamp field is the identical instant, to the millisecond, every
    coordinate is the same double, and every item is the variant that its
    discriminant names, with the fields of that variant.  Well formed means
    that the timestamps are valid time values and the coordinates are
    doubles: a latitude such as 35.6595 is written with the shortest digits
    that read back as the same double.  A [Trip] holds finite coordinates
    by its type: [NaN] and the infinities, which [geocodeAddress] can
    return, are numbers of runtime values only, and what the store does to
    them is stated on those values, further down. *)
Theorem loadTrips_saveTrips (trips : list Trip) :
  wf_Trips trips ->
  (exists text v,
     serializeTrips trips = Ok (VString text) /\
     deserializeTrips text = Ok v /\ as_Trips v = Some trips) /\
  (forall w : World,
     console (saveTrips trips w) = console w ->
     localStorage (saveTrips trips w) !! STORAGE_KEY = Some (storedText trips) /\
     as_Trips (fst (loadTrips (saveTrips trips w))) = Some trips).
Proof.
  intros Hwf. split.
  - destruct (deserializeTrips_text trips Hwf) as (v & Hv & Ha).
    exists (storedText trips), v. split; [apply serializeTrips_text | now split].
  - intros w Hok.
    destruct (saveTrips_cases trips w) as [Hsave | Hsave].
    + rewrite (saveTrips_accepted _ _ _ Hsave) in *.
      match goal with |- context [loadTrips ?x] => set (w' := x) in * end.
      assert (Hget : localStorage w' !! STORAGE_KEY = Some (storedText trips))
        by (subst w'; cbn [localStorage]; apply lookup_insert_eq).
      split; [exact Hget|].
      destruct (loadTrips_stored trips w' Hwf Hget) as (v & -> & Ha). exact Ha.
    + exfalso. rewrite (saveTrips_rejected _ _ Hsave) in Hok.
      cbn [alert console_error console] in Hok. now apply console_grows in Hok.
Qed.

Lemma wf_japan2024 : wf_Trips [japan2024].
Proof.
  repeat constructor; cbn; unfold validTime, maxTime; lia.
Qed.

Lemma loadTrips_saveTrips_witness :
  wf_Trips [japan2024] /\
  console (saveTrips [japan2024] emptyWorld) = console emptyWorld /\
  as_Trips (fst (loadTrips (saveTrips [japan2024] emptyWorld))) = Some [japan2024].
Proof.
  split; [exact wf_japan2024|].
  split; [vm_compute; reflexivity|].
  apply (loadTrips_saveTrips [japan2024] wf_japan2024).
  vm_compute. reflexivity.
Defined.

(** An unparsable store, for instance. *)
Example loadTrips_corrupt_store :
  loadTrips {| localStorage := {[ STORAGE_KEY := "[{oops" ]}; quota := 100;
               console := []; alerts := [] |}
  = (VArray [],
     {| localStorage := {[ STORAGE_KEY := "[{oops" ]}; quota := 100;
        console := [("Failed to load trips from localStorage:",
                     new_SyntaxError "Unexpected token in JSON")];
        alerts := [] |}).
Proof. vm_compute. reflexivity. Qed.

(** A text that is JSON but not an array of trips: [parsed.map] is not a
    function, or a trip has no [items]; the [TypeError] is caught as well. *)
Example deserializeTrips_wrong_shape :
  deserializeTrips "{}" = Throw (new_TypeError "map is not a function") /\
  deserializeTrips "[{}]" = Throw (new_TypeError "map is not a function") /\
  fst (loadTrips {| localStorage := {[ STORAGE_KEY := "[{}]" ]}; quota := 100;
                    console := []; alerts := [] |}) = VArray [].
Proof. repeat split; vm_compute; reflexivity. Qed.

(** C2 — [loadTrips] returns to its caller in every case: an exception of
    its [try] block is caught and logged, and the result is then the empty
    collection.  In particular it returns the empty collection when the
    persisted text is absent, and when it is present but [JSON.parse] rejects
    it. *)
Theorem loadTrips_never_raises (w : World) :
  (forall e, loadTrips_try w = Throw e ->
     loadTrips w
     = (VArray [], console_error "Failed to load trips from localStorage:" e w)) /\
  (forall v, loadTrips_try w = Ok v -> loadTrips w = (v, w)) /\
  (localStorage w !! STORAGE_KEY = None -> loadTrips w = (VArray [], w)) /\
  (forall text e,
     localStorage w !! STORAGE_KEY = Some text -> JSON_parse text = Throw e ->
     fst (loadTrips w) = VArray [] /\ localStorage (snd (loadTrips w)) = localStorage w).
Proof.
  unfold loadTrips. split; [|split; [|split]].
  - intros e ->. reflexivity.
  - intros v ->. reflexivity.
  - intros Hget. unfold loadTrips_try, localStorage_getItem. cbn [bind].
    rewrite Hget. reflexivity.
  - intros text e Hget Hparse.
    unfold loadTrips_try, localStorage_getItem, deserializeTrips. cbn [bind].
    rewrite Hget. destruct (String.eqb text ""); [split; reflexivity|].
    rewrite Hparse. split; reflexivity.
Qed.

Lemma loadTrips_try_store (w1 w2 : World) :
  localStorage w1 = localStorage w2 -> loadTrips_try w1 = loadTrips_try w2.
Proof.
  unfold loadTrips_try, localStorage_getItem. cbn [bind]. now intros ->.
Qed.

Lemma loadTrips_store (w1 w2 : World) :
  localStorage w1 = localStorage w2 -> fst (loadTrips w1) = fst (loadTrips w2).
Proof.
  intros H. unfold loadTrips. rewrite (loadTrips_try_store w1 w2 H).
  now destruct (loadTrips_try w2).
Qed.

(** C3 — When [saveTrips] fails, the failure is reported (an entry on the
    error console; the failure is the store's [QuotaExceededError], and the
    user is alerted) and the persisted store is exactly what it was: nothing
    is written, and [loadTrips] still returns what it returned before. *)
Theorem saveTrips_failure_keeps_store (trips : list Trip) (w : World) (e : thrown) :
  saveTrips_try trips w = Throw e ->
  e = QuotaExceededError /\
  localStorage (saveTrips trips w) = localStorage w /\
  console (saveTrips trips w) = console w ++ [("Failed to save trips to localStorage:", e)] /\
  alerts (saveTrips trips w)
  = alerts w ++ ["Storage quota exceeded. Please delete some trips to free up space."] /\
  fst (loadTrips (saveTrips trips w)) = fst (loadTrips w).
Proof.
  intros Hfail.
  destruct (saveTrips_cases trips w) as [Hsave | Hsave]; rewrite Hsave in Hfail;
    [discriminate|]. injection Hfail as <-.
  rewrite (saveTrips_rejected _ _ Hsave). split; [reflexivity|].
  split; [reflexivity|]. split; [reflexivity|]. split; [reflexivity|].
  now apply loadTrips_store.
Qed.

Lemma saveTrips_failure_keeps_store_witness :
  saveTrips_try [japan2024] fullWorld = Throw QuotaExceededError /\
  localStorage (saveTrips [japan2024] fullWorld) = localStorage fullWorld /\
  fst (loadTrips (saveTrips [japan2024] fullWorld)) = fst (loadTrips fullWorld).
Proof.
  assert (H : saveTrips_try [japan2024] fullWorld = Throw QuotaExceededError)
    by (vm_compute; reflexivity).
  split; [exact H|].
  destruct (saveTrips_failure_keeps_store [japan2024] fullWorld _ H)
    as (_ & Hstore & _ & _ & Hload).
  split; assumption.
Defined.

(* ===================================================================== *)
(** * storage: the current trip id *)
(* ===================================================================== *)

(** C10, as stated, fails on the empty string: it is a non-null string, but
    [if (tripId)] treats it like [null] and removes the key. *)
Lemma saveCurrentTripId_empty_string :
  fst (loadCurrentTripId (saveCurrentTripId (Some "") emptyWorld)) = None /\
  fst (loadCurrentTripId (saveCurrentTripId (Some "") emptyWorld)) <> Some "".
Proof. split; [vm_compute; reflexivity | vm_compute; discriminate]. Qed.

Lemma truthy_nonempty (s : string) : s <> "" -> truthy (Some s) = true.
Proof.
  intros H. unfold truthy. destruct (String.eqb_spec s ""); [contradiction | reflexivity].
Qed.

(** C10 (amended) — The current trip id round-trips through the store for
    every non-empty string whose write the store accepts (no failure is
    reported); [saveCurrentTripId(null)], and likewise the empty string,
    removes the stored key, so that [loadCurrentTripId] then returns [null]. *)
Theorem currentTripId_roundtrip (w : World) :
  (forall tripId : string,
     tripId <> "" ->
     console (saveCurrentTripId (Some tripId) w) = console w ->
     fst (loadCurrentTripId (saveCurrentTripId (Some tripId) w)) = Some tripId) /\
  (localStorage (saveCurrentTripId None w) !! "current-trip-id" = None /\
   fst (loadCurrentTripId (saveCurrentTripId None w)) = None) /\
  (localStorage (saveCurrentTripId (Some "") w) !! "current-trip-id" = None /\
   fst (loadCurrentTripId (saveCurrentTripId (Some "") w)) = None).
Proof.
  split; [|split].
  - intros tripId Hne Hok. unfold saveCurrentTripId in *.
    rewrite (truthy_nonempty tripId Hne) in *.
    unfold localStorage_setItem in *. cbn [ToString bind] in *.
    destruct (_ <=? _)%N.
    + unfold loadCurrentTripId, localStorage_getItem. cbn [fst localStorage].
      apply lookup_insert_eq.
    + exfalso. cbn [console_error console] in Hok. now apply console_grows in Hok.
  - unfold saveCurrentTripId, localStorage_removeItem, loadCurrentTripId,
      localStorage_getItem. cbn [fst localStorage].
    split; apply lookup_delete_eq.
  - unfold saveCurrentTripId, localStorage_removeItem, loadCurrentTripId,
      localStorage_getItem. cbn [truthy String.eqb negb fst localStorage].
    split; apply lookup_delete_eq.
Qed.

Example currentTripId_roundtrip_t1 :
  fst (loadCurrentTripId (saveCurrentTripId (Some "t1") emptyWorld)) = Some "t1".
Proof. vm_compute. reflexivity. Qed.

(* ===================================================================== *)
(** * geocoding: failure conditions *)
(* ===================================================================== *)

Lemma trimStart_whitespace (s : string) :
  whitespace_only s = true -> trimStart s = "".
Proof.
  induction s as [|c s IH]; [reflexivity|].
  cbn [whitespace_only trimStart]. intros H. apply andb_prop in H.
  destruct H as [-> H]. now apply IH.
Qed.

Lemma trimEnd_nonempty (s : string) :
  whitespace_only s = false -> trimEnd s <> "".
Proof.
  induction s as [|c s IH]; [discriminate|].
  cbn [whitespace_only trimEnd]. intros H.
  destruct (trimEnd s) eqn:Hs; [|discriminate].
  destruct (is_space c); [|discriminate].
  cbn [andb] in H. exfalso. now apply IH.
Qed.

Lemma trimStart_keeps (s : string) :
  whitespace_only s = false -> whitespace_only (trimStart s) = false.
Proof.
  induction s as [|c s IH]; [discriminate|].
  cbn [whitespace_only trimStart]. destruct (is_space c) eqn:Hc.
  - cbn [andb]. exact IH.
  - intros _. cbn [whitespace_only]. now rewrite Hc.
Qed.

(** [address.trim() === ''] exactly when the address is empty or white space
    only. *)
Lemma trim_blank (s : string) :
  String.eqb (trim s) "" = whitespace_only s.
Proof.
  unfold trim. destruct (whitespace_only s) eqn:Hs.
  - now rewrite trimStart_whitespace.
  - apply String.eqb_neq. apply trimEnd_nonempty. now apply trimStart_keeps.
Qed.

Lemma blank_check (s : string) :
  String.eqb s "" || String.eqb (trim s) "" = whitespace_only s.
Proof.
  rewrite trim_blank. destruct s; reflexivity.
Qed.

Lemma classify_wrapped (m : string) :
  m <> NOT_FOUND -> classify (new_Error ("Geocoding error: " ++ m)) = TransportFailure.
Proof.
  intros H. apply String.eqb_neq in H.
  unfold classify, new_Error, error_message, EMPTY_ADDRESS.
  simpl. unfold NOT_FOUND in *. now rewrite H.
Qed.

(** C9 — [geocodeAddress] fails with the "empty address" error when the
    address is blank (empty or white space only), whatever the network; for
    an address that is not blank, with the "not found" error when the
    provider's answer holds no match, and with an error that wraps the
    underlying message when the network fails, when the response is not a
    success, or when its body is not JSON.  A caller tells the three
    conditions apart from the message: [classify] names the condition of each
    of these errors (for a wrapped message other than the text of "not
    found" itself). *)
Theorem geocodeAddress_failures
    (parseFloat : value -> result number) (fetch : Request -> result Response)
    (address : string) :
  (whitespace_only address = true ->
     geocodeAddress parseFloat fetch address = Throw (new_Error EMPTY_ADDRESS)) /\
  (whitespace_only address = false ->
     (forall r data,
        fetch (searchRequest address) = Ok r -> ok r = true -> json r = Ok data ->
        ToBoolean data = false \/ Get_length data = VNumber (Finite 0) ->
        geocodeAddress parseFloat fetch address
        = Throw (new_Error ("Geocoding error: " ++ NOT_FOUND))) /\
     (forall kind name m,
        fetch (searchRequest address) = Throw (ErrorObject kind name m) ->
        geocodeAddress parseFloat fetch address
        = Throw (new_Error ("Geocoding error: " ++ m))) /\
     (forall r,
        fetch (searchRequest address) = Ok r -> ok r = false ->
        geocodeAddress parseFloat fetch address
        = Throw (new_Error ("Geocoding error: " ++ ("Geocoding failed: " ++ statusText r)))) /\
     (forall r kind name m,
        fetch (searchRequest address) = Ok r -> ok r = true ->
        json r = Throw (ErrorObject kind name m) ->
        geocodeAddress parseFloat fetch address
        = Throw (new_Error ("Geocoding error: " ++ m)))) /\
  classify (new_Error EMPTY_ADDRESS) = EmptyAddress /\
  classify (new_Error ("Geocoding error: " ++ NOT_FOUND)) = AddressNotFound /\
  (forall st, classify (new_Error ("Geocoding error: " ++ ("Geocoding failed: " ++ st)))
              = TransportFailure) /\
  (forall m, m <> NOT_FOUND ->
             classify (new_Error ("Geocoding error: " ++ m)) = TransportFailure).
Proof.
  unfold geocodeAddress. rewrite blank_check.
  split; [intros ->; reflexivity|].
  split.
  { intros ->. repeat split.
    - intros r data -> Hok Hjson Hnone. cbn [bind try_catch]. rewrite Hok, Hjson.
      cbn [negb bind].
      destruct Hnone as [-> | ->]; cbn [negb orb is_zero Z.eqb];
        rewrite ?orb_true_r; reflexivity.
    - intros kind name m ->. reflexivity.
    - intros r -> Hok. cbn [bind try_catch]. rewrite Hok. reflexivity.
    - intros r kind name m -> Hok Hjson. cbn [bind try_catch]. rewrite Hok, Hjson.
      reflexivity. }
  split; [reflexivity|]. split; [reflexivity|]. split.
  - intros st. apply classify_wrapped. discriminate.
  - apply classify_wrapped.
Qed.

(** The provider has no match for "Atlantis": an empty array. *)
Example geocodeAddress_not_found :
  geocodeAddress (fun _ => Ok (Finite 0))
    (fun _ => Ok {| ok := true; statusText := "OK"; json := Ok (VArray []) |})
    "Atlantis"
  = Throw (new_Error ("Geocoding error: " ++ NOT_FOUND)).
Proof. reflexivity. Qed.

(* ===================================================================== *)
(** * geocoding: the rate limiter *)
(* ===================================================================== *)

(** C8 — Three callers, the second and the third arriving 100 ms and 200 ms
    after the first request: both compute their wait from the same
    [lastRequestTime], resume at the same instant, and their two requests go
    out together, less than the minimum interval apart. *)
Theorem waitForRateLimit_concurrent_callers :
  requests (run threeCallers idleGateway)
  = [(5000, 1%nat); (6000, 2%nat); (6000, 3%nat)] /\
  ~ spaced (map fst (requests (run threeCallers idleGateway))).
Proof.
  split; [vm_compute; reflexivity|].
  vm_compute. intros (_ & H & _). apply H. reflexivity.
Qed.

(** ** One caller at a time *)

Lemma spaced_push (times : list Z) (t bound : Z) :
  spaced times -> Forall (fun t' => t' <= bound) times ->
  bound + MIN_REQUEST_INTERVAL <= t ->
  spaced (times ++ [t]).
Proof.
  induction times as [|t0 times IH]; intros Hsp Hle Ht; [exact I|].
  inversion Hle as [|? ? Ht0 Hrest]; subst.
  destruct times as [|t1 times].
  - cbn. split; [lia | exact I].
  - cbn [spaced app] in *. destruct Hsp as [H01 Hsp].
    split; [exact H01|]. apply IH; assumption.
Qed.

Lemma resume_ok (caller : nat) (g : Gateway) (t : Z) :
  gateway_ok g -> now g <= t -> lastRequestTime g + MIN_REQUEST_INTERVAL <= t ->
  gateway_ok (waitForRateLimit_resume caller
                {| now := t; lastRequestTime := lastRequestTime g;
                   timers := []; requests := requests g |}).
Proof.
  intros (Hnow & Hsp & Hreq & Hlen & Htm) Ht Hmin.
  unfold gateway_ok, waitForRateLimit_resume, push.
  cbn [now lastRequestTime timers requests]. repeat split.
  - lia.
  - rewrite map_app. cbn [map fst].
    apply (spaced_push _ _ (lastRequestTime g)); [assumption | | assumption].
    rewrite Forall_forall in *. intros t' Ht'. apply in_map_iff in Ht'.
    destruct Ht' as (r & <- & Hr). now apply Hreq.
  - apply Forall_app. split.
    + rewrite Forall_forall in *. intros r Hr. specialize (Hreq r Hr).
      unfold MIN_REQUEST_INTERVAL in *. lia.
    + repeat constructor. cbn [fst]. lia.
  - cbn. lia.
  - constructor.
Qed.

Lemma step_ok (g : Gateway) (e : event) :
  gateway_ok g ->
  match e with Call _ => timers g = [] | Elapse d => 0 <= d end ->
  gateway_ok (step g e).
Proof.
  intros Hok He. pose proof Hok as (Hnow & Hsp & Hreq & Hlen & Htm).
  destruct e as [caller | d]; cbn [step].
  - (* a call, nobody waiting *)
    unfold waitForRateLimit.
    destruct (Z.ltb_spec (now g - lastRequestTime g) MIN_REQUEST_INTERVAL) as [Hlt|Hge].
    + unfold gateway_ok, setTimeout, push. rewrite He.
      cbn [now lastRequestTime timers requests app Array_sort fold_right sort_insert length].
      repeat split; try assumption; [lia|].
      repeat constructor. cbn [fst]. lia.
    + destruct g as [n l tms rs]. cbn [timers] in He. subst tms.
      cbn [now lastRequestTime] in *.
      apply (resume_ok caller {| now := n; lastRequestTime := l; timers := [];
                                 requests := rs |} n);
        [assumption | cbn [now]; lia | cbn [lastRequestTime]; lia].
  - (* time passes *)
    unfold elapse. destruct (timers g) as [|[due c] tms] eqn:Htimers.
    + cbn [fire]. unfold gateway_ok. cbn [now lastRequestTime timers requests].
      rewrite Htimers. repeat split; try assumption; lia.
    + destruct tms as [|tm tms]; [|cbn [length] in Hlen; lia].
      inversion Htm as [|? ? Hdue _]; subst. cbn [fst] in Hdue.
      cbn [fire]. destruct (Z.leb_spec due (now g + d)) as [Hfire|Hwait].
      * cbn [fire].
        pose proof (resume_ok c g (Z.max (now g) due) Hok
                      ltac:(lia) ltac:(lia)) as Hres.
        destruct Hres as (Hnow' & Hsp' & Hreq' & Hlen' & Htm').
        unfold gateway_ok. cbn [now lastRequestTime timers requests] in *.
        repeat split; try assumption; lia.
      * unfold gateway_ok. cbn [now lastRequestTime timers requests].
        rewrite Htimers. repeat split; try assumption; lia.
Qed.

(** X21 — When callers come one at a time (a call arrives only when no
    earlier caller is still waiting), no two requests go out within the
    minimum interval of each other. *)
Lemma waitForRateLimit_sequential (events : list event) (g : Gateway) :
  gateway_ok g -> sequential events g ->
  spaced (map fst (requests (run events g))).
Proof.
  revert g. induction events as [|e events IH]; intros g Hok Hseq.
  - now destruct Hok as (_ & Hsp & _).
  - destruct Hseq as [He Hseq]. cbn [run fold_left].
    apply IH; [|exact Hseq]. now apply step_ok.
Qed.

(** A second caller that arrives before the interval has elapsed is not
    rejected: it resumes when the interval has elapsed and its request goes
    out then. *)
Example second_caller_is_delayed :
  requests (run [Call 1; Elapse 300; Call 2; Elapse 700] idleGateway)
  = [(5000, 1%nat); (6000, 2%nat)].
Proof. vm_compute. reflexivity. Qed.
(* ===================================================================== *)
(** * More on the itinerary helpers *)
(* ===================================================================== *)

(** ** Sorting a list that is sorted, or that has no ties *)

Section ArraySortOrder.
Context {A : Type} (key : A -> Z).

Lemma Array_sort_sorted_id (l : list A) :
  StronglySorted (key_le key) l -> Array_sort (by_key key) l = l.
Proof.
  induction 1 as [|x l Hl IH Hx]; [reflexivity|].
  cbn [Array_sort fold_right]. fold (Array_sort (by_key key) l).
  rewrite IH. now apply sort_insert_front.
Qed.

Lemma same_key_same_element (l : list A) (x y : A) :
  NoDup (map key l) -> In x l -> In y l -> key x = key y -> x = y.
Proof.
  induction l as [|a l IH]; intros Hnd Hx Hy Hk; [contradiction|].
  cbn [map] in Hnd. apply NoDup_cons_iff in Hnd. destruct Hnd as [Ha Hnd].
  destruct Hx as [<-|Hx], Hy as [<-|Hy].
  - reflexivity.
  - exfalso. apply Ha. rewrite Hk. now apply in_map.
  - exfalso. apply Ha. rewrite <- Hk. now apply in_map.
  - now apply IH.
Qed.

(** A list without ties has one sorted arrangement. *)
Lemma sorted_permutation_unique (l1 l2 : list A) :
  StronglySorted (key_le key) l1 -> StronglySorted (key_le key) l2 ->
  Permutation l1 l2 -> NoDup (map key l1) -> l1 = l2.
Proof.
  intros H1. revert l2. induction H1 as [|x l1 Hl1 IH Hx]; intros l2 H2 Hp Hnd.
  - apply Permutation_nil in Hp. now subst.
  - destruct H2 as [|y l2 Hl2 Hy].
    + apply Permutation_sym, Permutation_nil in Hp. discriminate.
    + assert (Hxy : x = y).
      { apply (same_key_same_element (x :: l1)); [assumption | now left | |].
        - apply (Permutation_in _ (Permutation_sym Hp)). now left.
        - assert (Hx2 : In x (y :: l2)) by (apply (Permutation_in _ Hp); now left).
          assert (Hy1 : In y (x :: l1))
            by (apply (Permutation_in _ (Permutation_sym Hp)); now left).
          rewrite Forall_forall in Hx, Hy. unfold key_le in *.
          destruct Hx2 as [->|Hx2]; [reflexivity|].
          destruct Hy1 as [->|Hy1]; [reflexivity|].
          specialize (Hx y Hy1). specialize (Hy x Hx2). lia. }
      subst y. f_equal. apply IH; [assumption | | ].
      * now apply Permutation_cons_inv in Hp.
      * cbn [map] in Hnd. now apply NoDup_cons_iff in Hnd.
Qed.

Lemma Array_sort_permutation (l l' : list A) :
  Permutation l l' -> NoDup (map key l) ->
  Array_sort (by_key key) l = Array_sort (by_key key) l'.
Proof.
  intros Hp Hnd. apply sorted_permutation_unique.
  - apply Array_sort_sorted.
  - apply Array_sort_sorted.
  - rewrite !Array_sort_perm. exact Hp.
  - apply (Permutation_NoDup (l := map key l)); [|exact Hnd].
    apply Permutation_map, Permutation_sym, Array_sort_perm.
Qed.
End ArraySortOrder.

(** ** filterItemsByType *)

Lemma ItemType_eqb_eq (a b : ItemType) : ItemType_eqb a b = true <-> a = b.
Proof. destruct a, b; split; intros H; try reflexivity; discriminate. Qed.

Lemma filter_sublist {A} (p : A -> bool) (l : list A) : sublist (List.filter p l) l.
Proof.
  induction l as [|a l IH]; cbn [List.filter]; [constructor|].
  destruct (p a); now constructor.
Qed.

Lemma filter_filter {A} (p q : A -> bool) (l : list A) :
  List.filter q (List.filter p l) = List.filter (fun a => p a && q a) l.
Proof.
  induction l as [|a l IH]; [reflexivity|].
  cbn [List.filter]. destruct (p a); cbn [List.filter andb]; now rewrite IH.
Qed.

Lemma filter_none {A} (p : A -> bool) (l : list A) :
  (forall a, In a l -> p a = false) -> List.filter p l = [].
Proof.
  induction l as [|a l IH]; intros H; [reflexivity|].
  cbn [List.filter]. rewrite (H a (or_introl eq_refl)). apply IH.
  intros b Hb. apply H. now right.
Qed.

(** X1 — [filterItemsByType] returns exactly the items of the requested type,
    in their input order (a subsequence of the input).  Filtering twice by
    the same type changes nothing, filtering by two different types leaves
    nothing, and the three filters split the input: together they hold every
    item once. *)
Theorem filterItemsByType_partition (items : list ItineraryItem) :
  (forall type item,
     In item (filterItemsByType items type) <-> In item items /\ item_type item = type) /\
  (forall type, sublist (filterItemsByType items type) items) /\
  (forall type,
     filterItemsByType (filterItemsByType items type) type = filterItemsByType items type) /\
  (forall t1 t2, t1 <> t2 -> filterItemsByType (filterItemsByType items t1) t2 = []) /\
  Permutation (filterItemsByType items flight ++ filterItemsByType items accommodation
               ++ filterItemsByType items activity) items.
Proof.
  unfold filterItemsByType. split; [|split; [|split; [|split]]].
  - intros type item. rewrite filter_In, ItemType_eqb_eq. reflexivity.
  - intros type. apply filter_sublist.
  - intros type. rewrite filter_filter. apply List.filter_ext.
    intros a. now destruct (ItemType_eqb (item_type a) type).
  - intros t1 t2 Hne. apply filter_none. intros a Ha. apply filter_In in Ha.
    destruct Ha as [_ Ha]. apply ItemType_eqb_eq in Ha. subst t1.
    destruct (ItemType_eqb (item_type a) t2) eqn:E; [|reflexivity].
    apply ItemType_eqb_eq in E. contradiction.
  - induction items as [|[f|a|a] items IH]; [reflexivity| | |];
      cbn [List.filter item_type ItemType_eqb app].
    + now constructor.
    + rewrite <- Permutation_middle. now constructor.
    + rewrite app_assoc, <- Permutation_middle, <- app_assoc. now constructor.
Qed.

(** ** getItemsByDateRange *)

(** X2 — [getItemsByDateRange] keeps exactly the items whose start lies in
    the closed range, both ends included; a range whose end is before its
    start selects nothing; selecting twice selects the intersection of the
    two ranges; and selecting a range commutes with [filterItemsByType]. *)
Theorem getItemsByDateRange_ranges (items : list ItineraryItem) :
  (forall a b item,
     In item (getItemsByDateRange items a b)
     <-> In item items /\ a <= startKey item <= b) /\
  (forall a b, b < a -> getItemsByDateRange items a b = []) /\
  (forall a b c d,
     getItemsByDateRange (getItemsByDateRange items a b) c d
     = getItemsByDateRange items (Z.max a c) (Z.min b d)) /\
  (forall a b type,
     filterItemsByType (getItemsByDateRange items a b) type
     = getItemsByDateRange (filterItemsByType items type) a b).
Proof.
  unfold getItemsByDateRange, filterItemsByType, startKey.
  split; [|split; [|split]].
  - intros a b item. rewrite filter_In, andb_true_iff, !Z.leb_le. reflexivity.
  - intros a b Hlt. apply filter_none. intros item _.
    destruct (Z.leb_spec a (startDate (item_base item))),
             (Z.leb_spec (startDate (item_base item)) b); try reflexivity; lia.
  - intros a b c d. rewrite filter_filter. apply List.filter_ext. intros item.
    destruct (Z.leb_spec a (startDate (item_base item))),
             (Z.leb_spec (startDate (item_base item)) b),
             (Z.leb_spec c (startDate (item_base item))),
             (Z.leb_spec (startDate (item_base item)) d),
             (Z.leb_spec (Z.max a c) (startDate (item_base item))),
             (Z.leb_spec (startDate (item_base item)) (Z.min b d));
      try reflexivity; lia.
  - intros a b type. rewrite !filter_filter. apply List.filter_ext. intros item.
    apply andb_comm.
Qed.

(** ** Markers, route and bounds together *)

Lemma byStartDate_by_key : byStartDate = by_key startKey.
Proof. reflexivity. Qed.

Lemma locations_route_hotels (l : list ItineraryItem) :
  Permutation (flat_map locationsOf l)
    (flat_map routeContribution l
     ++ flat_map locationsOf (List.filter is_accommodation l)).
Proof.
  induction l as [|[f|a|a] l IH]; [reflexivity| | |];
    cbn [flat_map locationsOf routeContribution List.filter is_accommodation
         item_type ItemType_eqb app].
  - now do 2 constructor.
  - rewrite <- Permutation_middle. now constructor.
  - now constructor.
Qed.

Lemma calculateTripBounds_least (items : list ItineraryItem) (b : LatLngBounds) :
  calculateTripBounds items = Some b ->
  (forall loc, In loc (getAllLocations items) -> covers b loc) /\
  (forall b', (forall loc, In loc (getAllLocations items) -> covers b' loc) ->
              inside b b').
Proof.
  unfold calculateTripBounds.
  destruct (getAllLocations items) as [|loc0 locs]; [discriminate|].
  intros [= <-]. split.
  - apply (fold_extend_covers (loc0 :: locs)).
  - intros b' Hcov. apply (fold_extend_least (loc0 :: locs)); [|exact Hcov].
    specialize (Hcov loc0 (or_introl eq_refl)).
    unfold covers, inside, new_LatLngBounds, extend in *; simpl in *. lia.
Qed.

(** X3 — The markers of the map are the points of the route together with
    the locations of the accommodations: [getAllLocations] holds, up to
    order, the locations of [getRouteLocations] and those of the
    accommodations, so every point of the route is a marker, and the box of
    [calculateTripBounds] covers the whole route. *)
Theorem getRouteLocations_within_markers (items : list ItineraryItem) :
  Permutation (getAllLocations items)
    (getRouteLocations items
     ++ getAllLocations (filterItemsByType items accommodation)) /\
  (forall loc, In loc (getRouteLocations items) -> In loc (getAllLocations items)) /\
  (forall b, calculateTripBounds items = Some b ->
     forall loc, In loc (getRouteLocations items) -> covers b loc).
Proof.
  assert (Hperm : Permutation (getAllLocations items)
            (getRouteLocations items
             ++ getAllLocations (filterItemsByType items accommodation))).
  { rewrite !getAllLocations_flat_map, getRouteLocations_flat_map.
    rewrite <- (Permutation_flat_map locationsOf (Array_sort_perm byStartDate items)).
    rewrite locations_route_hotels. apply Permutation_app_head.
    apply Permutation_flat_map. rewrite byStartDate_by_key, Array_sort_filter.
    apply Array_sort_perm. }
  assert (Hin : forall loc, In loc (getRouteLocations items) ->
                            In loc (getAllLocations items)).
  { intros loc Hloc. apply (Permutation_in _ (Permutation_sym Hperm)).
    apply in_or_app. now left. }
  split; [exact Hperm|]. split; [exact Hin|].
  intros b Hb loc Hloc. apply (calculateTripBounds_least items b Hb). now apply Hin.
Qed.

(** ** The route and the order of the input *)

(** X4 — When no two items start at the same instant, the route does not
    depend on the order in which the items were entered. *)
Theorem getRouteLocations_order_independent (items items' : list ItineraryItem) :
  Permutation items items' -> NoDup (map startKey items) ->
  getRouteLocations items = getRouteLocations items'.
Proof.
  intros Hp Hnd. rewrite !getRouteLocations_flat_map, byStartDate_by_key.
  now rewrite (Array_sort_permutation startKey items items' Hp Hnd).
Qed.

Lemma getRouteLocations_order_independent_witness :
  getRouteLocations [sampleActivity; sampleFlight]
  = getRouteLocations [sampleFlight; sampleActivity].
Proof.
  apply getRouteLocations_order_independent.
  - apply perm_swap.
  - repeat constructor; cbn; intuition discriminate.
Defined.

(** X5 — For items that are entered in chronological order, the route visits
    them in the order of the input: the sort moves nothing, ties included. *)
Theorem getRouteLocations_chronological_input (items : list ItineraryItem) :
  StronglySorted startsBefore items ->
  getRouteLocations items = flat_map routeContribution items.
Proof.
  intros Hs. rewrite getRouteLocations_flat_map, byStartDate_by_key.
  now rewrite (Array_sort_sorted_id startKey items Hs).
Qed.

Lemma getRouteLocations_chronological_input_witness :
  getRouteLocations [sampleFlight; sampleHotel; sampleActivity]
  = flat_map routeContribution [sampleFlight; sampleHotel; sampleActivity].
Proof.
  apply getRouteLocations_chronological_input.
  repeat constructor; unfold startsBefore; cbn; lia.
Defined.

(** ** The bounds and the set of locations *)

Lemma inside_antisym (b b' : LatLngBounds) : inside b b' -> inside b' b -> b = b'.
Proof.
  destruct b, b'. unfold inside. cbn. intros (? & ? & ? & ?) (? & ? & ? & ?).
  f_equal; lia.
Qed.

(** X6 — [calculateTripBounds] depends only on which locations there are,
    not on their order or on how often each occurs: two item lists with the
    same locations have the same bounds. *)
Theorem calculateTripBounds_same_locations (items items' : list ItineraryItem) :
  (forall loc, In loc (getAllLocations items) <-> In loc (getAllLocations items')) ->
  calculateTripBounds items = calculateTripBounds items'.
Proof.
  intros Hsame.
  destruct (calculateTripBounds items) as [b|] eqn:Hb,
           (calculateTripBounds items') as [b'|] eqn:Hb'.
  - f_equal.
    destruct (calculateTripBounds_least _ _ Hb) as [Hcov Hleast].
    destruct (calculateTripBounds_least _ _ Hb') as [Hcov' Hleast'].
    apply inside_antisym.
    + apply Hleast. intros loc Hloc. apply Hcov'. now apply Hsame.
    + apply Hleast'. intros loc Hloc. apply Hcov. now apply Hsame.
  - exfalso. unfold calculateTripBounds in Hb, Hb'.
    destruct (getAllLocations items) as [|loc locs]; [discriminate|].
    destruct (getAllLocations items'); [|discriminate].
    apply (Hsame loc). now left.
  - exfalso. unfold calculateTripBounds in Hb, Hb'.
    destruct (getAllLocations items') as [|loc locs]; [discriminate|].
    destruct (getAllLocations items); [|discriminate].
    apply (Hsame loc). now left.
  - reflexivity.
Qed.

Lemma calculateTripBounds_same_locations_witness :
  calculateTripBounds [sampleFlight; sampleActivity; sampleHotel]
  = calculateTripBounds [sampleActivity; sampleFlight].
Proof.
  apply calculateTripBounds_same_locations.
  intros loc. cbn. tauto.
Defined.

(** X7 — Adding items never shrinks the bounds: when every location of
    [items] is a location of [items'], the box of [items] lies inside the box
    of [items'] (and [items'] has one). *)
Theorem calculateTripBounds_monotone (items items' : list ItineraryItem) (b : LatLngBounds) :
  (forall loc, In loc (getAllLocations items) -> In loc (getAllLocations items')) ->
  calculateTripBounds items = Some b ->
  exists b', calculateTripBounds items' = Some b' /\ inside b b'.
Proof.
  intros Hsub Hb.
  destruct (calculateTripBounds items') as [b'|] eqn:Hb'.
  - exists b'. split; [reflexivity|].
    destruct (calculateTripBounds_least _ _ Hb) as [_ Hleast].
    destruct (calculateTripBounds_least _ _ Hb') as [Hcov' _].
    apply Hleast. intros loc Hloc. apply Hcov'. now apply Hsub.
  - exfalso. unfold calculateTripBounds in Hb, Hb'.
    destruct (getAllLocations items) as [|loc locs]; [discriminate|].
    destruct (getAllLocations items'); [|discriminate].
    apply (Hsub loc). now left.
Qed.

Lemma calculateTripBounds_monotone_witness :
  exists b', calculateTripBounds [sampleFlight; sampleActivity] = Some b' /\
             inside {| south := lat HND; west := lng HND; north := lat NRT; east := lng NRT |} b'.
Proof.
  apply (calculateTripBounds_monotone [sampleFlight]).
  - intros loc. cbn. tauto.
  - reflexivity.
Defined.

(* ===================================================================== *)
(** * More on the storage codec *)
(* ===================================================================== *)

(** ** The replacer of serializeTrips *)

Lemma mapMi_ext {A B} (f g : nat -> A -> result B) (l : list A) (i : nat) :
  (forall j a, f j a = g j a) -> mapMi f i l = mapMi g i l.
Proof.
  intros H. revert i. induction l as [|a l IH]; intros i; [reflexivity|].
  cbn [mapMi]. now rewrite H, IH.
Qed.

Lemma mapM_ext {A B} (f g : A -> result B) (l : list A) :
  (forall a, f a = g a) -> mapM f l = mapM g l.
Proof.
  intros H. induction l as [|a l IH]; [reflexivity|].
  cbn [mapM]. now rewrite H, IH.
Qed.

(** What [toJSON] leaves is never a [Date]. *)
Lemma dateReplacer_after_toJSON (key : string) (v : value) :
  dateReplacer key (match v with VDate tv => Date_toJSON tv | _ => v end)
  = Ok (match v with VDate tv => Date_toJSON tv | _ => v end).
Proof. destruct v as [ | | | | |[t|]| | ]; reflexivity. Qed.

(** X8 — The replacer of [serializeTrips] never converts anything: [JSON.stringify]
    calls [toJSON] on a [Date] before it calls the replacer, so the replacer
    is handed the ISO string (or [null] for the Invalid Date) and returns it
    as it is.  [serializeTrips] therefore writes what [JSON.stringify]
    writes without a replacer, and it returns a text for every trip set: the
    [RangeError] of [toISOString] cannot come out of it. *)
Theorem serializeTrips_replacer_is_identity :
  (forall fuel key v,
     SerializeJSONProperty fuel dateReplacer key v
     = SerializeJSONProperty fuel (fun _ v' => Ok v') key v) /\
  (forall trips,
     serializeTrips trips = JSON_stringify (Trips_value trips) (fun _ v' => Ok v')) /\
  (forall trips, exists text, serializeTrips trips = Ok (VString text)).
Proof.
  assert (H : forall fuel key v,
     SerializeJSONProperty fuel dateReplacer key v
     = SerializeJSONProperty fuel (fun _ v' => Ok v') key v).
  { induction fuel as [|fuel IH]; intros key v; [reflexivity|].
    cbn [SerializeJSONProperty]. rewrite dateReplacer_after_toJSON. cbn [bind].
    destruct (match v with VDate tv => Date_toJSON tv | _ => v end);
      try reflexivity.
    - erewrite mapMi_ext; [reflexivity|]. intros j a. now rewrite IH.
    - erewrite mapM_ext; [reflexivity|]. intros a. now rewrite IH. }
  split; [exact H|]. split.
  - intros trips. unfold serializeTrips, JSON_stringify. now rewrite H.
  - intros trips. exists (storedText trips). apply serializeTrips_text.
Qed.

(** ** What deserializeTrips does to the fields of an item and of a trip *)

Lemma obj_get_obj_set_eq (k : string) (v : value) (p : list (string * value)) :
  obj_get k (obj_set k v p) = v.
Proof.
  induction p as [|[k' v'] p IH]; cbn [obj_set obj_get].
  - now rewrite String.eqb_refl.
  - destruct (String.eqb k k') eqn:E; cbn [obj_get]; rewrite E; [reflexivity | exact IH].
Qed.

Lemma obj_get_obj_set_ne (k k0 : string) (v : value) (p : list (string * value)) :
  k <> k0 -> obj_get k (obj_set k0 v p) = obj_get k p.
Proof.
  intros Hne. induction p as [|[k' v'] p IH]; cbn [obj_set obj_get].
  - apply String.eqb_neq in Hne. now rewrite Hne.
  - destruct (String.eqb_spec k0 k') as [->|Hk0]; cbn [obj_get].
    + apply String.eqb_neq in Hne. now rewrite Hne.
    + destruct (String.eqb k k'); [reflexivity | exact IH].
Qed.

Lemma new_Date_is_Date (v d : value) : new_Date v = Ok d -> exists tv, d = VDate tv.
Proof.
  destruct v as [ | | b | [|[]| |x] | s | tv | elems | props]; cbn [new_Date];
    try (intros [= <-]; eexists; reflexivity).
  - destruct (ToString (VArray elems)); cbn [bind]; [|discriminate].
    intros [= <-]. eexists; reflexivity.
  - destruct (ToString (VObject props)); cbn [bind]; [|discriminate].
    intros [= <-]. eexists; reflexivity.
Qed.

Lemma new_Date_of_is_Date (obj : value) (k : string) (d : value) :
  new_Date_of obj k = Ok d -> exists tv, d = VDate tv.
Proof.
  unfold new_Date_of. destruct (Get obj k); cbn [bind]; [|discriminate].
  apply new_Date_is_Date.
Qed.

Lemma bind_Ok {A B} (m : result A) (k : A -> result B) (b : B) :
  bind m k = Ok b -> exists a, m = Ok a /\ k a = Ok b.
Proof. destruct m; cbn [bind]; [eauto | discriminate]. Qed.

(** Reading a property after an object literal [{...base, k1: v1, ...}]. *)
Create Rewrite HintDb obj_lookup.
#[local] Hint Rewrite obj_get_obj_set_eq : obj_lookup.
#[local] Hint Rewrite obj_get_obj_set_ne
  using (first [assumption | discriminate]) : obj_lookup.

(** X9 — What [deserializeTrips] does to an item.  When the callback
    returns, the result is an object in which [startDate] is a [Date],
    [endDate] is a [Date] or [undefined], the two dates of the item's own
    variant ([departureTime] and [arrivalTime] of a flight, [checkIn] and
    [checkOut] of an accommodation) are [Date]s, and every other property
    is the stored one, untouched: a date of another variant stays the string
    it was stored as. *)
Theorem reviveItem_fields (item v : value) :
  reviveItem item = Ok v ->
  exists q type,
    v = VObject q /\ Get item "type" = Ok type /\
    (exists tv, obj_get "startDate" q = VDate tv) /\
    (obj_get "endDate" q = VUndefined \/ exists tv, obj_get "endDate" q = VDate tv) /\
    (is_string type "flight" = true ->
       (exists tv, obj_get "departureTime" q = VDate tv) /\
       (exists tv, obj_get "arrivalTime" q = VDate tv)) /\
    (is_string type "accommodation" = true ->
       (exists tv, obj_get "checkIn" q = VDate tv) /\
       (exists tv, obj_get "checkOut" q = VDate tv)) /\
    (forall k,
       k <> "startDate" -> k <> "endDate" ->
       (is_string type "flight" = true -> k <> "departureTime" /\ k <> "arrivalTime") ->
       (is_string type "accommodation" = true -> k <> "checkIn" /\ k <> "checkOut") ->
       obj_get k q = obj_get k (spread item)).
Proof.
  unfold reviveItem. intros H.
  apply bind_Ok in H. destruct H as (sd & Hsd & H).
  apply bind_Ok in H. destruct H as (ed & Hed & H). cbv beta zeta in H.
  apply bind_Ok in H. destruct H as (type & Htype & H). cbv beta in H.
  destruct (new_Date_of_is_Date _ _ _ Hsd) as (tsd & ->).
  assert (Hed' : ed = VUndefined \/ exists tv, ed = VDate tv).
  { apply bind_Ok in Hed. destruct Hed as (e & _ & Hed).
    destruct (ToBoolean e).
    - right. now apply new_Date_of_is_Date in Hed.
    - left. now injection Hed. }
  destruct (is_string type "flight") eqn:Hf.
  - assert (Ha : is_string type "accommodation" = false).
    { destruct type; try discriminate. cbn [is_string] in *.
      apply String.eqb_eq in Hf. now subst. }
    apply bind_Ok in H. destruct H as (dt & Hdt & H).
    apply bind_Ok in H. destruct H as (at_ & Hat & H). cbv beta in H.
    destruct (new_Date_of_is_Date _ _ _ Hdt) as (tdt & ->).
    destruct (new_Date_of_is_Date _ _ _ Hat) as (tat & ->).
    revert H; intros [= <-]. eexists _, type. split; [reflexivity|]. split; [exact Htype|].
    unfold obj_assign. cbn [fold_left fst snd].
    split; [eexists; autorewrite with obj_lookup; reflexivity|].
    split; [destruct Hed' as [-> | (tv & ->)]; [left | right; exists tv];
            autorewrite with obj_lookup; reflexivity|].
    split; [intros _; split; eexists; autorewrite with obj_lookup; reflexivity|].
    split; [congruence|].
    intros k H1 H2 H3 _. destruct (H3 Hf) as [H4 H5].
    autorewrite with obj_lookup. reflexivity.
  - destruct (is_string type "accommodation") eqn:Ha.
    + apply bind_Ok in H. destruct H as (ci & Hci & H).
      apply bind_Ok in H. destruct H as (co & Hco & H). cbv beta in H.
      destruct (new_Date_of_is_Date _ _ _ Hci) as (tci & ->).
      destruct (new_Date_of_is_Date _ _ _ Hco) as (tco & ->).
      revert H; intros [= <-]. eexists _, type. split; [reflexivity|]. split; [exact Htype|].
      unfold obj_assign. cbn [fold_left fst snd].
      split; [eexists; autorewrite with obj_lookup; reflexivity|].
      split; [destruct Hed' as [-> | (tv & ->)]; [left | right; exists tv];
              autorewrite with obj_lookup; reflexivity|].
      split; [congruence|].
      split; [intros _; split; eexists; autorewrite with obj_lookup; reflexivity|].
      intros k H1 H2 _ H3. destruct (H3 Ha) as [H4 H5].
      autorewrite with obj_lookup. reflexivity.
    + revert H; intros [= <-]. eexists _, type. split; [reflexivity|]. split; [exact Htype|].
      unfold obj_assign. cbn [fold_left fst snd].
      split; [eexists; autorewrite with obj_lookup; reflexivity|].
      split; [destruct Hed' as [-> | (tv & ->)]; [left | right; exists tv];
              autorewrite with obj_lookup; reflexivity|].
      split; [congruence|]. split; [congruence|].
      intros k H1 H2 _ _. autorewrite with obj_lookup. reflexivity.
Qed.

Lemma reviveItem_fields_witness :
  exists q, reviveItem (dehydrate (Item_value sampleFlight)) = Ok (VObject q) /\
            obj_get "airline" q = VString "JAL".
Proof.
  destruct (reviveItem (dehydrate (Item_value sampleFlight))) as [v|e] eqn:E;
    [|vm_compute in E; discriminate].
  destruct (reviveItem_fields _ v E) as (q & type & -> & _ & _ & _ & _ & _ & Hkeep).
  exists q. split; [reflexivity|].
  rewrite Hkeep; [reflexivity | discriminate | discriminate
                 | intros _; split; discriminate | intros _; split; discriminate].
Defined.

Lemma mapM_length {A B} (f : A -> result B) (l : list A) (l' : list B) :
  mapM f l = Ok l' -> length l' = length l.
Proof.
  revert l'. induction l as [|a l IH]; intros l'; cbn [mapM].
  - now intros [= <-].
  - destruct (f a); cbn [bind]; [|discriminate].
    destruct (mapM f l) as [bs|]; cbn [bind]; [|discriminate].
    intros [= <-]. cbn [length]. now rewrite (IH bs).
Qed.

(** X10 — What [deserializeTrips] does to a trip.  When the callback
    returns, the stored [items] was an array, and the result is an object
    whose [items] holds the revived items, one for one; [startDate],
    [endDate], [createdAt] and [updatedAt] are [Date]s; and every other
    property is the stored one. *)
Theorem reviveTrip_fields (trip v : value) :
  reviveTrip trip = Ok v ->
  exists q elems elems',
    v = VObject q /\
    Get trip "items" = Ok (VArray elems) /\
    mapM reviveItem elems = Ok elems' /\
    obj_get "items" q = VArray elems' /\ length elems' = length elems /\
    (forall k, In k ["startDate"; "endDate"; "createdAt"; "updatedAt"] ->
       exists tv, obj_get k q = VDate tv) /\
    (forall k, ~ In k ["startDate"; "endDate"; "createdAt"; "updatedAt"; "items"] ->
       obj_get k q = obj_get k (spread trip)).
Proof.
  unfold reviveTrip. intros H.
  apply bind_Ok in H. destruct H as (sd & Hsd & H).
  apply bind_Ok in H. destruct H as (ed & Hed & H).
  apply bind_Ok in H. destruct H as (ca & Hca & H).
  apply bind_Ok in H. destruct H as (ua & Hua & H).
  apply bind_Ok in H. destruct H as (its & Hits & H). cbv beta in H.
  destruct (new_Date_of_is_Date _ _ _ Hsd) as (tsd & ->).
  destruct (new_Date_of_is_Date _ _ _ Hed) as (ted & ->).
  destruct (new_Date_of_is_Date _ _ _ Hca) as (tca & ->).
  destruct (new_Date_of_is_Date _ _ _ Hua) as (tua & ->).
  apply bind_Ok in Hits. destruct Hits as (stored & Hget & Hmap).
  destruct stored as [ | | | | | |elems| ]; try discriminate.
  cbn [Array_map] in Hmap. apply bind_Ok in Hmap. destruct Hmap as (elems' & Hmap & Hits).
  revert Hits; intros [= <-]. revert H; intros [= <-].
  eexists _, elems, elems'. split; [reflexivity|]. split; [exact Hget|].
  split; [exact Hmap|].
  unfold obj_assign. cbn [fold_left fst snd].
  split; [autorewrite with obj_lookup; reflexivity|].
  split; [now apply mapM_length in Hmap|]. split.
  - intros k [<-|[<-|[<-|[<-|[]]]]]; eexists; autorewrite with obj_lookup; reflexivity.
  - intros k Hk.
    assert (k <> "startDate") by (intros ->; apply Hk; cbn; tauto).
    assert (k <> "endDate") by (intros ->; apply Hk; cbn; tauto).
    assert (k <> "createdAt") by (intros ->; apply Hk; cbn; tauto).
    assert (k <> "updatedAt") by (intros ->; apply Hk; cbn; tauto).
    assert (k <> "items") by (intros ->; apply Hk; cbn; tauto).
    autorewrite with obj_lookup. reflexivity.
Qed.

Lemma reviveTrip_fields_witness :
  exists q, reviveTrip (Trip_json japan2024) = Ok (VObject q) /\
            obj_get "name" q = VString "Japan 2024".
Proof.
  destruct (reviveTrip (Trip_json japan2024)) as [v|e] eqn:E;
    [|vm_compute in E; discriminate].
  destruct (reviveTrip_fields _ v E) as (q & elems & elems' & -> & _ & _ & _ & _ & _ & Hkeep).
  exists q. split; [reflexivity|].
  rewrite Hkeep; [reflexivity|].
  cbn [In]. intros [H|[H|[H|[H|[H|[]]]]]]; discriminate.
Defined.

(** ** Saving what was loaded *)

Lemma reviveItem_Item_value_stable (item : ItineraryItem) :
  wf_Item item ->
  exists q, reviveItem (dehydrate (Item_value item)) = Ok (VObject q) /\
            dehydrate (VObject q) = dehydrate (Item_value item) /\
            value_depth (VObject q) = 2%nat.
Proof.
  destruct item as [[[i t sd ed n] o d dt at_ al fn cn]
                   |[[i t sd ed n] nm l ci co br]
                   |[[i t sd ed n] nm l ty tm]];
    unfold wf_Item, wf_BaseItem; cbn [item_base flight_base accommodation_base activity_base
      startDate endDate departureTime arrivalTime checkIn checkOut].
  - intros [[Hsd Hed] (Hdt & Hat & _)].
    destruct ed as [ed|], n as [n|], al as [al|], fn as [fn|], cn as [cn|];
      cbn [validOptTime] in Hed; destruct o, d;
      (eexists; split; [|split];
       [ cbv -[toISOString Date_parse ToBoolean]; rewrite ?toISOString_truthy;
         cbv -[toISOString Date_parse ToBoolean];
         rewrite ?Date_parse_toISOString by assumption; reflexivity
       | reflexivity | reflexivity ]).
  - intros [[Hsd Hed] (Hci & Hco & _)].
    destruct ed as [ed|], n as [n|], br as [br|];
      cbn [validOptTime] in Hed; destruct l;
      (eexists; split; [|split];
       [ cbv -[toISOString Date_parse ToBoolean]; rewrite ?toISOString_truthy;
         cbv -[toISOString Date_parse ToBoolean];
         rewrite ?Date_parse_toISOString by assumption; reflexivity
       | reflexivity | reflexivity ]).
  - intros [[Hsd Hed] _].
    destruct ed as [ed|], n as [n|], tm as [tm|];
      cbn [validOptTime] in Hed; destruct l, ty;
      (eexists; split; [|split];
       [ cbv -[toISOString Date_parse ToBoolean]; rewrite ?toISOString_truthy;
         cbv -[toISOString Date_parse ToBoolean];
         rewrite ?Date_parse_toISOString by assumption; reflexivity
       | reflexivity | reflexivity ]).
Qed.

Lemma reviveItem_items_stable (l : list ItineraryItem) :
  Forall wf_Item l ->
  exists vs, mapM reviveItem (Items_json l) = Ok vs /\
             map undefined_as_null vs = Items_json l /\
             Forall (fun v => value_depth v = 2%nat) vs.
Proof.
  induction 1 as [|item l Hitem _ (vs & Hvs & Hd & Hdepth)].
  - exists []. repeat split; constructor.
  - destruct (reviveItem_Item_value_stable item Hitem) as (q & Hq & Hdq & Hdepthq).
    exists (VObject q :: vs). split; [|split].
    + cbn [Items_json map mapM]. rewrite Hq. cbn [bind].
      fold (Items_json l). rewrite Hvs. reflexivity.
    + cbn [map Items_json]. fold (Items_json l). rewrite Hd. f_equal. exact Hdq.
    + now constructor.
Qed.

Lemma value_depth_revived_items (vs : list value) :
  Forall (fun v => value_depth v = 2%nat) vs -> (value_depth (VArray vs) <= 3)%nat.
Proof.
  intros H. cbn [value_depth]. apply le_n_S.
  induction H as [|v vs Hv _ IH]; cbn [fold_right]; [lia|]. rewrite Hv. lia.
Qed.

Lemma reviveTrip_Trip_json_stable (t : Trip) :
  wf_Trip t ->
  exists q, reviveTrip (Trip_json t) = Ok (VObject q) /\
            dehydrate (VObject q) = Trip_json t /\
            (value_depth (VObject q) <= 4)%nat.
Proof.
  intros (Hsd & Hed & Hca & Hua & Hitems).
  destruct (reviveItem_items_stable (items t) Hitems) as (vs & Hvs & Hd & Hdepth).
  apply value_depth_revived_items in Hdepth.
  destruct t as [i n sd ed its ca ua]. unfold Trip_json.
  cbn [trip_id trip_name trip_startDate trip_endDate items createdAt updatedAt] in *.
  generalize dependent (Items_json its). intros js Hvs Hd.
  eexists. split; [|split].
  - cbv -[toISOString Date_parse mapM reviveItem]. rewrite Hvs.
    cbv -[toISOString Date_parse].
    rewrite !Date_parse_toISOString by assumption. reflexivity.
  - cbn [dehydrate flat_map fst snd app Date_toJSON].
    change (map _ vs) with (map undefined_as_null vs). now rewrite Hd.
  - cbn [value_depth fold_right snd] in *. lia.
Qed.

Lemma reviveTrip_trips_stable (trips : list Trip) :
  wf_Trips trips ->
  exists vs, mapM reviveTrip (map Trip_json trips) = Ok vs /\
             map undefined_as_null vs = map Trip_json trips /\
             Forall (fun v => (value_depth v <= 4)%nat) vs.
Proof.
  induction 1 as [|t trips Ht _ (vs & Hvs & Hd & Hdepth)].
  - exists []. repeat split; constructor.
  - destruct (reviveTrip_Trip_json_stable t Ht) as (q & Hq & Hdq & Hdepthq).
    exists (VObject q :: vs). split; [|split].
    + cbn [map mapM]. rewrite Hq. cbn [bind]. rewrite Hvs. reflexivity.
    + cbn [map]. rewrite Hd. f_equal. exact Hdq.
    + now constructor.
Qed.

(** X11 — Saving what was loaded writes the same text.  For a well-formed
    trip set, the value that [deserializeTrips] builds from the stored text
    differs from the trips that were saved (an item without an end date now
    has an [endDate] property holding [undefined]), but [JSON.stringify]
    with the replacer of [serializeTrips] writes it as exactly the stored
    text again: the dates as the same ISO strings, the coordinates, which
    are doubles, with the same digits. *)
Theorem deserializeTrips_then_serialize (trips : list Trip) :
  wf_Trips trips ->
  exists v, deserializeTrips (storedText trips) = Ok v /\
            JSON_stringify v dateReplacer = Ok (VString (storedText trips)).
Proof.
  intros Hwf. destruct (reviveTrip_trips_stable trips Hwf) as (vs & Hvs & Hd & Hdepth).
  exists (VArray vs). split.
  - unfold deserializeTrips, storedText.
    rewrite JSON_parse_JSON_text by now apply is_json_Trips_json.
    cbn [bind Trips_json Array_map]. now rewrite Hvs.
  - unfold JSON_stringify. rewrite SerializeJSONProperty_dateReplacer.
    + cbn [serialized bind dehydrate].
      change (map _ vs) with (map undefined_as_null vs). now rewrite Hd.
    + cbn [value_depth]. unfold callStackLimit.
      assert (fold_right (fun e d => Nat.max (value_depth e) d) 0 vs <= 4)%nat; [|lia].
      clear Hvs Hd. induction Hdepth as [|v vs' Hv _ IH]; cbn [fold_right]; lia.
Qed.

Lemma deserializeTrips_then_serialize_witness :
  exists v, deserializeTrips (storedText [japan2024]) = Ok v /\
            JSON_stringify v dateReplacer = Ok (VString (storedText [japan2024])).
Proof. apply (deserializeTrips_then_serialize [japan2024]), wf_japan2024. Defined.

(** ** One trip that cannot be revived *)

Lemma mapM_Throw {A B} (f : A -> result B) (l : list A) (a : A) (e : thrown) :
  In a l -> f a = Throw e -> exists e', mapM f l = Throw e'.
Proof.
  induction l as [|a0 l IH]; intros Hin Hf; [contradiction|].
  cbn [mapM]. destruct (f a0) as [b|e0] eqn:E; cbn [bind]; [|eauto].
  destruct Hin as [->|Hin]; [congruence|].
  destruct (IH Hin Hf) as (e' & ->). cbn [bind]. eauto.
Qed.

(** X12 — Loading is all or nothing.  When the stored text is an array in
    which one element cannot be revived (its [items] is not an array, say,
    or one of its items is [null]), [loadTrips] returns the empty
    collection: the trips that could be revived are not returned either.
    The failure is logged and the store is left as it is. *)
Theorem loadTrips_one_bad_trip (w : World) (text : string) (elems : list value)
    (bad : value) (e : thrown) :
  localStorage w !! STORAGE_KEY = Some text ->
  JSON_parse text = Ok (VArray elems) ->
  In bad elems -> reviveTrip bad = Throw e ->
  exists e',
    loadTrips w
    = (VArray [], console_error "Failed to load trips from localStorage:" e' w).
Proof.
  intros Hget Hparse Hin Hbad.
  destruct (mapM_Throw reviveTrip elems bad e Hin Hbad) as (e' & He').
  exists e'. unfold loadTrips, loadTrips_try, localStorage_getItem. cbn [bind].
  rewrite Hget. destruct (String.eqb_spec text "") as [->|_].
  - vm_compute in Hparse. discriminate.
  - unfold deserializeTrips. rewrite Hparse. cbn [bind Array_map]. now rewrite He'.
Qed.

Lemma loadTrips_one_bad_trip_witness :
  exists e',
    loadTrips goodAndBadWorld
    = (VArray [], console_error "Failed to load trips from localStorage:" e' goodAndBadWorld).
Proof.
  apply (loadTrips_one_bad_trip goodAndBadWorld goodAndBadText
           [Trip_json japan2024; tripWithoutItems] tripWithoutItems
           (new_TypeError "map is not a function")).
  - vm_compute. reflexivity.
  - vm_compute. reflexivity.
  - right. left. reflexivity.
  - reflexivity.
Defined.

(* ===================================================================== *)
(** * More on the store *)
(* ===================================================================== *)

Lemma loadTrips_key (w1 w2 : World) :
  localStorage w1 !! STORAGE_KEY = localStorage w2 !! STORAGE_KEY ->
  fst (loadTrips w1) = fst (loadTrips w2).
Proof.
  intros H. unfold loadTrips, loadTrips_try, localStorage_getItem. cbn [bind].
  rewrite H. destruct (localStorage w2 !! STORAGE_KEY) as [text|]; [|reflexivity].
  destruct (String.eqb text ""); [reflexivity|].
  now destruct (deserializeTrips text).
Qed.

(** What [saveCurrentTripId] does, case by case. *)
Lemma saveCurrentTripId_cases (tripId : option string) (w : World) :
  (exists m, (m = delete "current-trip-id" (localStorage w) \/
              exists s, m = <["current-trip-id" := s]> (localStorage w)) /\
             saveCurrentTripId tripId w
             = {| localStorage := m; quota := quota w; console := console w;
                  alerts := alerts w |}) \/
  saveCurrentTripId tripId w
  = console_error "Failed to save current trip ID:" QuotaExceededError w.
Proof.
  unfold saveCurrentTripId. destruct tripId as [s|].
  - destruct (truthy (Some s)).
    + unfold localStorage_setItem. cbn [ToString bind].
      destruct (_ <=? _)%N; [left | right; reflexivity].
      eexists. split; [right; eexists; reflexivity | reflexivity].
    + left. eexists. split; [left; reflexivity | reflexivity].
  - left. eexists. split; [left; reflexivity | reflexivity].
Qed.

(** X13 — The two keys of the store are independent.  [saveTrips] writes
    under its own key only, whether it succeeds or fails: every other key
    keeps its value, so the current trip id is what it was; and
    [saveCurrentTripId] leaves every key other than its own as it was, so
    [loadTrips] returns what it returned before. *)
Theorem storage_keys_independent (w : World) :
  (forall trips k, k <> STORAGE_KEY ->
     localStorage (saveTrips trips w) !! k = localStorage w !! k) /\
  (forall trips,
     fst (loadCurrentTripId (saveTrips trips w)) = fst (loadCurrentTripId w)) /\
  (forall tripId k, k <> "current-trip-id" ->
     localStorage (saveCurrentTripId tripId w) !! k = localStorage w !! k) /\
  (forall tripId, fst (loadTrips (saveCurrentTripId tripId w)) = fst (loadTrips w)).
Proof.
  assert (Hsave : forall trips k, k <> STORAGE_KEY ->
            localStorage (saveTrips trips w) !! k = localStorage w !! k).
  { intros trips k Hk. destruct (saveTrips_cases trips w) as [Hok | Hfail].
    - rewrite (saveTrips_accepted _ _ _ Hok). cbn [localStorage].
      now apply lookup_insert_ne.
    - now rewrite (saveTrips_rejected _ _ Hfail). }
  assert (Hid : forall tripId k, k <> "current-trip-id" ->
            localStorage (saveCurrentTripId tripId w) !! k = localStorage w !! k).
  { intros tripId k Hk.
    destruct (saveCurrentTripId_cases tripId w) as [(m & [-> | (s & ->)] & ->) | ->];
      cbn [localStorage console_error].
    - now apply lookup_delete_ne.
    - now apply lookup_insert_ne.
    - reflexivity. }
  split; [exact Hsave|]. split; [|split; [exact Hid|]].
  - intros trips. unfold loadCurrentTripId, localStorage_getItem. cbn [fst].
    now apply Hsave.
  - intros tripId. apply loadTrips_key. now apply Hid.
Qed.

(** X14 — [clearStorage] removes the stored trips and nothing else: after
    it [loadTrips] returns the empty collection without logging anything,
    whatever the store held; every other key of the store, the current trip
    id among them, keeps its value; nothing is logged or alerted; and
    clearing twice is clearing once. *)
Theorem clearStorage_removes_trips_only (w : World) :
  loadTrips (clearStorage w) = (VArray [], clearStorage w) /\
  (forall k, k <> STORAGE_KEY ->
     localStorage (clearStorage w) !! k = localStorage w !! k) /\
  fst (loadCurrentTripId (clearStorage w)) = fst (loadCurrentTripId w) /\
  console (clearStorage w) = console w /\ alerts (clearStorage w) = alerts w /\
  clearStorage (clearStorage w) = clearStorage w.
Proof.
  unfold clearStorage, localStorage_removeItem. cbn [localStorage quota console alerts].
  split; [|split; [|split; [|split; [|split]]]]; try reflexivity.
  - unfold loadTrips, loadTrips_try, localStorage_getItem. cbn [bind localStorage].
    now rewrite lookup_delete_eq.
  - intros k Hk. now apply lookup_delete_ne.
  - unfold loadCurrentTripId, localStorage_getItem. cbn [fst localStorage].
    now apply lookup_delete_ne.
  - f_equal. apply delete_delete_eq.
Qed.

(** X15 — When the store rejects the write of a current trip id, the
    failure is logged and nothing else happens: the store is what it was,
    so the previous id is still the one that [loadCurrentTripId] returns,
    and, unlike [saveTrips], no alert is shown. *)
Theorem saveCurrentTripId_failure_keeps_id (tripId : string) (w : World) (e : thrown) :
  tripId <> "" ->
  localStorage_setItem "current-trip-id" (VString tripId) w = Throw e ->
  e = QuotaExceededError /\
  saveCurrentTripId (Some tripId) w
  = console_error "Failed to save current trip ID:" e w /\
  localStorage (saveCurrentTripId (Some tripId) w) = localStorage w /\
  alerts (saveCurrentTripId (Some tripId) w) = alerts w /\
  fst (loadCurrentTripId (saveCurrentTripId (Some tripId) w))
  = fst (loadCurrentTripId w).
Proof.
  intros Hne Hfail. unfold saveCurrentTripId. rewrite (truthy_nonempty tripId Hne), Hfail.
  split; [|repeat split].
  unfold localStorage_setItem in Hfail. cbn [ToString bind] in Hfail.
  destruct (_ <=? _)%N; [discriminate|]. now injection Hfail.
Qed.

Lemma saveCurrentTripId_failure_keeps_id_witness :
  localStorage (saveCurrentTripId (Some "t1") fullWorld) = localStorage fullWorld.
Proof.
  apply (saveCurrentTripId_failure_keeps_id "t1" fullWorld QuotaExceededError).
  - discriminate.
  - vm_compute. reflexivity.
Defined.

(** X16 — [loadTrips] only reads: the store, its quota and the alerts are
    what they were, whatever the store holds, and a second call returns what
    the first returned.  A store that cannot be loaded is therefore not
    repaired by loading it: the next call fails in the same way. *)
Theorem loadTrips_read_only (w : World) :
  localStorage (snd (loadTrips w)) = localStorage w /\
  quota (snd (loadTrips w)) = quota w /\
  alerts (snd (loadTrips w)) = alerts w /\
  fst (loadTrips (snd (loadTrips w))) = fst (loadTrips w) /\
  loadTrips_try (snd (loadTrips w)) = loadTrips_try w.
Proof.
  assert (H : localStorage (snd (loadTrips w)) = localStorage w).
  { unfold loadTrips. now destruct (loadTrips_try w). }
  split; [exact H|].
  split; [unfold loadTrips; now destruct (loadTrips_try w)|].
  split; [unfold loadTrips; now destruct (loadTrips_try w)|].
  split; [now apply loadTrips_store | now apply loadTrips_try_store].
Qed.

(* ===================================================================== *)
(** * More on the geocoding gateway *)
(* ===================================================================== *)

(** X17 — Every way in which [geocodeAddress] ends.  When it returns, the
    address was not blank, the one request it made was answered with a
    success whose body is truthy and not of length 0, and the result is an
    object with exactly [lat], [lng] and [address], the address being the
    [display_name] of the first match.  When it throws, it throws a plain
    [Error] whose message is the text for a blank address, or starts with
    ["Geocoding error: "], or is ["Failed to geocode address"]: no other
    exception, of the network or of the code itself, reaches the caller. *)
Theorem geocodeAddress_outcome
    (parseFloat : value -> result number) (fetch : Request -> result Response)
    (address : string) :
  match geocodeAddress parseFloat fetch address with
  | Ok v =>
      whitespace_only address = false /\
      exists r data la ln ad,
        fetch (searchRequest address) = Ok r /\ ok r = true /\ json r = Ok data /\
        ToBoolean data = true /\ is_zero (Get_length data) = false /\
        Get (Get_first data) "display_name" = Ok ad /\
        v = VObject [("lat", VNumber la); ("lng", VNumber ln); ("address", ad)]
  | Throw e =>
      exists m, e = new_Error m /\
        (m = EMPTY_ADDRESS \/ (exists m', m = ("Geocoding error: " ++ m')%string) \/
         m = "Failed to geocode address")
  end.
Proof.
  unfold geocodeAddress. rewrite blank_check.
  destruct (whitespace_only address) eqn:Hb.
  { exists EMPTY_ADDRESS. split; [reflexivity | now left]. }
  match goal with
  | |- match try_catch ?b _ with _ => _ end => destruct b as [v|e0] eqn:Hbody
  end; cbn [try_catch].
  - split; [reflexivity|].
    apply bind_Ok in Hbody. destruct Hbody as (r & Hf & H).
    destruct (ok r) eqn:Hok; cbn [negb] in H; [|discriminate].
    apply bind_Ok in H. destruct H as (data & Hj & H).
    destruct (ToBoolean data) eqn:Ht; cbn [negb orb] in H; [|discriminate].
    destruct (is_zero (Get_length data)) eqn:Hz; [discriminate|].
    apply bind_Ok in H. destruct H as (la & Hla & H).
    apply bind_Ok in H. destruct H as (ln & Hln & H).
    apply bind_Ok in H. destruct H as (ad & Had & H).
    revert H; intros [= <-]. exists r, data, la, ln, ad. repeat split; assumption.
  - destruct e0 as [kind name m|v]; cbn [instanceof_Error error_message];
      eexists; (split; [reflexivity|]).
    + right. left. eexists. reflexivity.
    + right. right. reflexivity.
Qed.

(** X18 — [reverseGeocode].  It returns the [display_name] of the answer,
    and only when that is truthy: it never returns an empty address.  When
    the answer is falsy or has no usable [display_name] it throws the "unable
    to find address" error; a response that is not a success throws an error
    with its status text; a failure of the network or of the body's JSON
    throws an error with the underlying message.  Every one of these is a
    plain [Error] whose message starts with ["Reverse geocoding error: "];
    anything thrown that is not an [Error] becomes ["Failed to reverse
    geocode coordinates"]. *)
Theorem reverseGeocode_outcome (fetch : Request -> result Response) (lat lng : number) :
  (forall v, reverseGeocode fetch lat lng = Ok v ->
     ToBoolean v = true /\
     exists r data,
       fetch (reverseRequest lat lng) = Ok r /\ ok r = true /\ json r = Ok data /\
       ToBoolean data = true /\ Get data "display_name" = Ok v) /\
  (forall r data,
     fetch (reverseRequest lat lng) = Ok r -> ok r = true -> json r = Ok data ->
     ToBoolean data = false \/
     (exists dn, Get data "display_name" = Ok dn /\ ToBoolean dn = false) ->
     reverseGeocode fetch lat lng
     = Throw (new_Error ("Reverse geocoding error: " ++ NO_ADDRESS))) /\
  (forall r,
     fetch (reverseRequest lat lng) = Ok r -> ok r = false ->
     reverseGeocode fetch lat lng
     = Throw (new_Error ("Reverse geocoding error: "
                         ++ ("Reverse geocoding failed: " ++ statusText r)))) /\
  (forall kind name m,
     fetch (reverseRequest lat lng) = Throw (ErrorObject kind name m) \/
     (exists r, fetch (reverseRequest lat lng) = Ok r /\ ok r = true /\
                json r = Throw (ErrorObject kind name m)) ->
     reverseGeocode fetch lat lng
     = Throw (new_Error ("Reverse geocoding error: " ++ m))) /\
  (forall e, reverseGeocode fetch lat lng = Throw e ->
     exists m, e = new_Error m /\
       ((exists m', m = ("Reverse geocoding error: " ++ m')%string) \/
        m = "Failed to reverse geocode coordinates")).
Proof.
  unfold reverseGeocode. split; [|split; [|split; [|split]]].
  - intros v H.
    match type of H with
    | try_catch ?b _ = _ => destruct b as [v0|e0] eqn:Hbody
    end; cbn [try_catch] in H;
      [|destruct (instanceof_Error e0); discriminate].
    revert H; intros [= ->].
    apply bind_Ok in Hbody. destruct Hbody as (r & Hf & H).
    destruct (ok r) eqn:Hok; cbn [negb] in H; [|discriminate].
    apply bind_Ok in H. destruct H as (data & Hj & H).
    apply bind_Ok in H. destruct H as (missing & Hm & H).
    destruct missing; [discriminate|].
    destruct (ToBoolean data) eqn:Ht; cbn [negb] in Hm; [|discriminate].
    apply bind_Ok in Hm. destruct Hm as (dn & Hdn & Hm).
    rewrite Hdn in H. revert H; intros [= ->].
    revert Hm; intros [= Hm]. apply negb_false_iff in Hm.
    split; [exact Hm|]. exists r, data. repeat split; assumption.
  - intros r data -> Hok Hj Hnone. cbn [bind try_catch]. rewrite Hok, Hj.
    cbn [negb bind]. destruct Hnone as [-> | (dn & Hdn & Hfalse)]; [reflexivity|].
    destruct (ToBoolean data); cbn [negb]; [|reflexivity].
    rewrite Hdn. cbn [bind]. rewrite Hfalse. reflexivity.
  - intros r -> Hok. cbn [bind try_catch]. rewrite Hok. reflexivity.
  - intros kind name m [-> | (r & -> & Hok & Hj)]; [reflexivity|].
    cbn [bind try_catch]. rewrite Hok, Hj. reflexivity.
  - intros e H.
    match type of H with
    | try_catch ?b _ = _ => destruct b as [v0|e0]
    end; cbn [try_catch] in H; [discriminate|].
    destruct e0 as [kind name m|v]; cbn [instanceof_Error error_message] in H;
      revert H; intros [= <-]; eexists; (split; [reflexivity|]).
    + left. eexists. reflexivity.
    + right. reflexivity.
Qed.

(* ===================================================================== *)
(** * More on the rate limiter *)
(* ===================================================================== *)

Lemma waitForRateLimit_sequential_witness :
  spaced (map fst (requests
    (run [Call 1; Elapse 300; Call 2; Elapse 700; Call 3; Elapse 1000]%nat idleGateway))).
Proof.
  apply waitForRateLimit_sequential.
  - unfold gateway_ok, idleGateway. cbn. repeat split; try constructor; lia.
  - cbn. repeat split; lia.
Defined.

(** ** No caller is lost *)

Lemma fire_callers (t : Z) (pending : list (Z * nat)) (g : Gateway) :
  timers g = pending ->
  Permutation (served (fire t pending g) ++ waiting (fire t pending g))
              (served g ++ map snd pending).
Proof.
  revert g. induction pending as [|[due caller] rest IH]; intros g Hg; cbn [fire].
  - unfold waiting. now rewrite Hg.
  - destruct (due <=? t).
    + rewrite IH by reflexivity.
      unfold served, waitForRateLimit_resume, push. cbn [requests map snd].
      rewrite map_app, <- app_assoc. reflexivity.
    + unfold waiting. now rewrite Hg.
Qed.

Lemma step_callers (g : Gateway) (e : event) :
  Permutation (served (step g e) ++ waiting (step g e))
              (served g ++ waiting g ++ callers [e]).
Proof.
  destruct e as [caller | d]; cbn [step callers].
  - unfold waitForRateLimit.
    destruct (now g - lastRequestTime g <? MIN_REQUEST_INTERVAL).
    + unfold served, waiting, setTimeout, push. cbn [requests timers].
      apply Permutation_app_head.
      rewrite (Permutation_map snd (Array_sort_perm _ _)), map_app. reflexivity.
    + unfold served, waiting, waitForRateLimit_resume, push. cbn [requests timers].
      rewrite map_app, <- app_assoc. apply Permutation_app_head.
      apply Permutation_app_comm.
  - rewrite app_nil_r. unfold elapse.
    change (Permutation
              (served (fire (now g + d) (timers g) g)
               ++ waiting (fire (now g + d) (timers g) g))
              (served g ++ waiting g)).
    now apply fire_callers.
Qed.

Lemma callers_app (events events' : list event) :
  callers (events ++ events') = callers events ++ callers events'.
Proof.
  induction events as [|[c|d] events IH]; cbn [app callers]; [reflexivity| |assumption].
  now rewrite IH.
Qed.

Lemma run_callers (events : list event) (g : Gateway) :
  Permutation (served (run events g) ++ waiting (run events g))
              (served g ++ waiting g ++ callers events).
Proof.
  revert g. induction events as [|e events IH]; intros g.
  - cbn [run fold_left callers]. now rewrite app_nil_r.
  - cbn [run fold_left]. fold (run events (step g e)).
    rewrite IH, app_assoc, step_callers.
    destruct e; cbn [callers app]; rewrite <- !app_assoc, ?app_nil_r; reflexivity.
Qed.

Lemma fire_requests (t : Z) (pending : list (Z * nat)) (g : Gateway) :
  exists more, requests (fire t pending g) = requests g ++ more.
Proof.
  revert g. induction pending as [|[due caller] rest IH]; intros g; cbn [fire].
  - exists []. now rewrite app_nil_r.
  - destruct (due <=? t).
    + edestruct IH as (more & ->). unfold waitForRateLimit_resume, push.
      cbn [requests]. rewrite <- app_assoc. eauto.
    + exists []. now rewrite app_nil_r.
Qed.

Lemma step_requests (g : Gateway) (e : event) :
  exists more, requests (step g e) = requests g ++ more.
Proof.
  destruct e as [caller | d]; cbn [step].
  - unfold waitForRateLimit, setTimeout, waitForRateLimit_resume, push.
    destruct (_ <? _); cbn [requests]; [exists []; now rewrite app_nil_r | eauto].
  - unfold elapse. cbn [requests]. apply fire_requests.
Qed.

(** X19 — No caller is rejected or lost, and none is served twice, whatever
    the timing of the calls: at every moment the callers that have issued
    their request together with the callers that are suspended in the timer
    are exactly the callers so far.  A request that was issued stays issued:
    the log of requests only grows at its end. *)
Theorem waitForRateLimit_no_caller_lost (events : list event) (g : Gateway) :
  Permutation (served (run events g) ++ waiting (run events g))
              (served g ++ waiting g ++ callers events) /\
  exists more, requests (run events g) = requests g ++ more.
Proof.
  split; [apply run_callers|].
  revert g. induction events as [|e events IH]; intros g.
  - exists []. cbn [run fold_left]. now rewrite app_nil_r.
  - cbn [run fold_left]. fold (run events (step g e)).
    destruct (IH (step g e)) as (more & ->).
    destruct (step_requests g e) as (more0 & ->).
    rewrite <- app_assoc. eauto.
Qed.

(** ** Every caller is served *)

Lemma resumes_by_later (last last' : Z) (pending : list (Z * nat)) :
  last <= last' -> resumes_by last pending -> resumes_by last' pending.
Proof.
  intros Hle H. unfold resumes_by in *. rewrite Forall_forall in *.
  intros tm Htm. specialize (H tm Htm). lia.
Qed.

Lemma fire_live (t : Z) (pending : list (Z * nat)) (g : Gateway) :
  timers g = pending -> gateway_live g -> gateway_live (fire t pending g).
Proof.
  revert g. induction pending as [|[due caller] rest IH]; intros g Hg Hlive; cbn [fire].
  - exact Hlive.
  - destruct (due <=? t); [|exact Hlive].
    apply IH; [reflexivity|]. destruct Hlive as [Hnow Hres]. rewrite Hg in Hres.
    unfold gateway_live, waitForRateLimit_resume. cbn [now lastRequestTime timers].
    split; [lia|]. apply (resumes_by_later (lastRequestTime g)); [lia|].
    unfold resumes_by in *. now inversion Hres.
Qed.

Lemma step_live (g : Gateway) (e : event) :
  gateway_live g ->
  match e with Elapse d => 0 <= d | Call _ => True end ->
  gateway_live (step g e).
Proof.
  intros [Hnow Hres] He. destruct e as [caller | d]; cbn [step].
  - unfold waitForRateLimit.
    destruct (Z.ltb_spec (now g - lastRequestTime g) MIN_REQUEST_INTERVAL).
    + unfold gateway_live, setTimeout, push, resumes_by.
      cbn [now lastRequestTime timers]. split; [exact Hnow|].
      apply (Permutation_Forall (Permutation_sym (Array_sort_perm _ _))).
      apply Forall_app. split; [exact Hres|]. repeat constructor. cbn [fst]. lia.
    + unfold gateway_live, waitForRateLimit_resume. cbn [now lastRequestTime timers].
      split; [lia|]. now apply (resumes_by_later (lastRequestTime g)).
  - unfold elapse.
    destruct (fire_live (now g + d) (timers g) g eq_refl (conj Hnow Hres)) as [Hnow' Hres'].
    unfold gateway_live. cbn [now lastRequestTime timers]. split; [lia | exact Hres'].
Qed.

Lemma run_live (events : list event) (g : Gateway) :
  gateway_live g -> forward events -> gateway_live (run events g).
Proof.
  revert g. induction events as [|e events IH]; intros g Hlive Hfw; [exact Hlive|].
  inversion Hfw as [|? ? He Hrest]; subst. cbn [run fold_left].
  apply IH; [|exact Hrest]. now apply step_live.
Qed.

Lemma fire_all (t : Z) (pending : list (Z * nat)) (g : Gateway) :
  timers g = pending -> Forall (fun tm => fst tm <= t) pending ->
  timers (fire t pending g) = [].
Proof.
  revert g. induction pending as [|[due caller] rest IH]; intros g Hg Hdue; cbn [fire].
  - exact Hg.
  - inversion Hdue as [|? ? Hd Hrest]; subst. cbn [fst] in Hd.
    destruct (Z.leb_spec due t); [|lia]. now apply IH.
Qed.

Lemma run_app (events events' : list event) (g : Gateway) :
  run (events ++ events') g = run events' (run events g).
Proof. unfold run. apply fold_left_app. Qed.

(** X20 — A caller is delayed, never parked for good: once the minimum
    interval has passed without a new call, nobody is waiting any more, and
    the callers that have issued their request are exactly the callers of the
    run, whatever the timing of their calls was. *)
Theorem waitForRateLimit_every_caller_served (events : list event) (g : Gateway) (d : Z) :
  gateway_live g -> forward events -> MIN_REQUEST_INTERVAL <= d ->
  waiting (run (events ++ [Elapse d]) g) = [] /\
  Permutation (served (run (events ++ [Elapse d]) g))
              (served g ++ waiting g ++ callers events).
Proof.
  intros Hlive Hfw Hd.
  assert (Hw : waiting (run (events ++ [Elapse d]) g) = []).
  { rewrite run_app. cbn [run fold_left step]. unfold waiting, elapse. cbn [timers].
    destruct (run_live events g Hlive Hfw) as [Hnow Hres].
    rewrite fire_all; [reflexivity | reflexivity |].
    unfold resumes_by in Hres. rewrite Forall_forall in *.
    intros tm Htm. specialize (Hres tm Htm). lia. }
  split; [exact Hw|].
  pose proof (run_callers (events ++ [Elapse d]) g) as H.
  rewrite Hw, app_nil_r, callers_app in H. cbn [callers] in H.
  now rewrite app_nil_r in H.
Qed.

Lemma waitForRateLimit_every_caller_served_witness :
  waiting (run threeCallers idleGateway) = [] /\
  Permutation (served (run threeCallers idleGateway)) [1; 2; 3]%nat.
Proof.
  apply (waitForRateLimit_every_caller_served
           [Call 1; Elapse 100; Call 2; Elapse 100; Call 3] idleGateway 1000).
  - unfold gateway_live, resumes_by, idleGateway. cbn. split; [lia | constructor].
  - unfold forward. repeat constructor; lia.
  - unfold MIN_REQUEST_INTERVAL. lia.
Defined.

(** ** One caller *)

(** X22 — What the limiter does to one caller, nobody else waiting.  When
    the last request is at least the minimum interval old, the request goes
    out at once.  Otherwise nothing goes out at the call; the request goes
    out exactly the minimum interval after the last request, as soon as time
    has reached that instant, and not before. *)
Theorem waitForRateLimit_delay (caller : nat) (g : Gateway) :
  timers g = [] -> lastRequestTime g <= now g ->
  (MIN_REQUEST_INTERVAL <= now g - lastRequestTime g ->
     requests (run [Call caller] g) = requests g ++ [(now g, caller)]) /\
  (now g - lastRequestTime g < MIN_REQUEST_INTERVAL ->
     requests (run [Call caller] g) = requests g /\
     forall d, 0 <= d ->
       requests (run [Call caller; Elapse d] g)
       = if lastRequestTime g + MIN_REQUEST_INTERVAL <=? now g + d
         then requests g ++ [(lastRequestTime g + MIN_REQUEST_INTERVAL, caller)]
         else requests g).
Proof.
  intros Htimers Hnow. cbn [run fold_left step]. unfold waitForRateLimit. split.
  - intros Hold. destruct (Z.ltb_spec (now g - lastRequestTime g) MIN_REQUEST_INTERVAL);
      [lia | reflexivity].
  - intros Hrecent.
    destruct (Z.ltb_spec (now g - lastRequestTime g) MIN_REQUEST_INTERVAL); [|lia].
    split; [reflexivity|]. intros d Hd.
    unfold elapse, setTimeout, push. rewrite Htimers.
    cbn [app Array_sort fold_right sort_insert now lastRequestTime timers requests fire].
    destruct (Z.leb_spec (now g + (MIN_REQUEST_INTERVAL - (now g - lastRequestTime g)))
                         (now g + d)),
             (Z.leb_spec (lastRequestTime g + MIN_REQUEST_INTERVAL) (now g + d));
      try lia; [|reflexivity].
    cbn [fire waitForRateLimit_resume requests now]. unfold push.
    do 3 f_equal. lia.
Qed.

Lemma waitForRateLimit_delay_witness :
  requests (run [Call 2; Elapse 700]%nat (run [Call 1; Elapse 300]%nat idleGateway))
  = [(5000, 1%nat); (6000, 2%nat)].
Proof.
  destruct (waitForRateLimit_delay 2 (run [Call 1; Elapse 300]%nat idleGateway))
    as [_ Hdelayed].
  - reflexivity.
  - vm_compute. discriminate.
  - destruct Hdelayed as [_ H]; [vm_compute; reflexivity|].
    rewrite (H 700); [|lia]. reflexivity.
Defined.

(* ===================================================================== *)
(** * generateId *)
(* ===================================================================== *)

Lemma span_digits_uint_then (d : Decimal.uint) (rest : string) :
  span_digits rest = (EmptyString, rest) ->
  span_digits (DecimalString.NilEmpty.string_of_uint d ++ rest)
  = (DecimalString.NilEmpty.string_of_uint d, rest).
Proof.
  intros Hrest. induction d; cbn [DecimalString.NilEmpty.string_of_uint];
    simpl; rewrite ?IHd; try reflexivity.
  exact Hrest.
Qed.

Lemma span_digits_Number_toString (n : Z) (rest : string) :
  0 <= n -> span_digits rest = (EmptyString, rest) ->
  span_digits (Number_toString n ++ rest) = (Number_toString n, rest).
Proof.
  intros Hn Hrest. destruct n as [|p|p]; [| |lia]; unfold Number_toString.
  - simpl. now rewrite Hrest.
  - pose proof (DecimalPos.Unsigned.to_uint_nonnil p) as Hnil.
    pose proof (span_digits_uint_then (Pos.to_uint p) rest Hrest) as H.
    destruct (Pos.to_uint p); try contradiction; exact H.
Qed.

Lemma Z_of_digits_Number_toString (n : Z) :
  0 <= n -> Z_of_digits (Number_toString n) = Some n.
Proof.
  intros Hn. destruct n as [|p|p]; [reflexivity| |lia]. unfold Number_toString.
  pose proof (DecimalPos.Unsigned.to_uint_nonnil p) as Hnil.
  pose proof (Z_of_digits_uint (Pos.to_uint p) Hnil) as H.
  rewrite DecimalPos.Unsigned.of_to in H.
  destruct (Pos.to_uint p); try contradiction; exact H.
Qed.

Lemma generateId_span (t : Z) (r : string) :
  0 <= t ->
  span_digits (generateId t r) = (Number_toString t, String "-" (substr 2 9 r)).
Proof.
  intros Ht. unfold generateId.
  change ("-" ++ substr 2 9 r)%string with (String "-" (substr 2 9 r)).
  now apply span_digits_Number_toString.
Qed.

(** X23 — [generateId] never returns the empty string, so an id it made is
    never taken for [null] by [saveCurrentTripId]: the id round-trips through
    the store whenever the write is accepted.  Two ids are equal exactly when
    they were made in the same millisecond and the random texts agree on the
    nine characters that are kept: ids made at different times differ, ids
    made in the same millisecond differ only by chance. *)
Theorem generateId_collisions (t : Z) (r : string) :
  generateId t r <> "" /\
  (forall w : World,
     console (saveCurrentTripId (Some (generateId t r)) w) = console w ->
     fst (loadCurrentTripId (saveCurrentTripId (Some (generateId t r)) w))
     = Some (generateId t r)) /\
  (forall t' r', 0 <= t -> 0 <= t' ->
     (generateId t r = generateId t' r' <-> t = t' /\ substr 2 9 r = substr 2 9 r')).
Proof.
  assert (Hne : generateId t r <> "").
  { unfold generateId. destruct (Number_toString t); discriminate. }
  split; [exact Hne|]. split.
  - intros w Hok. unfold saveCurrentTripId in *.
    rewrite (truthy_nonempty _ Hne) in *.
    unfold localStorage_setItem in *. cbn [ToString bind] in *.
    destruct (_ <=? _)%N.
    + unfold loadCurrentTripId, localStorage_getItem. cbn [fst localStorage].
      apply lookup_insert_eq.
    + exfalso. cbn [console_error console] in Hok. now apply console_grows in Hok.
  - intros t' r' Ht Ht'. split.
    + intros H. pose proof (generateId_span t r Ht) as H1.
      pose proof (generateId_span t' r' Ht') as H2.
      rewrite H, H2 in H1. injection H1 as Hn Hs.
      split; [|now symmetry].
      pose proof (Z_of_digits_Number_toString t Ht) as Ha.
      pose proof (Z_of_digits_Number_toString t' Ht') as Hb.
      rewrite Hn in Hb. congruence.
    + intros [-> Hs]. unfold generateId. now rewrite Hs.
Qed.

(* ===================================================================== *)
(** * getAllLocations keeps duplicates *)
(* ===================================================================== *)

(** X24 — [getAllLocations] does not remove anything: the locations of two
    lists of items put together are the locations of the first followed by
    the locations of the second, so a location that two items share is
    listed once for each. *)
Theorem getAllLocations_app (items items' : list ItineraryItem) :
  getAllLocations (items ++ items') = getAllLocations items ++ getAllLocations items' /\
  length (getAllLocations (items ++ items))
  = (2 * length (getAllLocations items))%nat.
Proof.
  rewrite !getAllLocations_flat_map, !flat_map_app. split; [reflexivity|].
  rewrite length_app. lia.
Qed.

(* ===================================================================== *)
(** * An Invalid Date through the store *)
(* ===================================================================== *)

Lemma dehydrate_Trip_value_undated (t : Trip) :
  dehydrate (Trip_value_undated t)
  = VObject [("id", VString (trip_id t)); ("name", VString (trip_name t));
             ("startDate", VNull);
             ("endDate", VString (toISOString (trip_endDate t)));
             ("items", VArray (Items_json (items t)));
             ("createdAt", VString (toISOString (createdAt t)));
             ("updatedAt", VString (toISOString (updatedAt t)))].
Proof. rewrite <- dehydrate_items. reflexivity. Qed.

(** X25 — An Invalid Date does not survive the store, and nothing reports
    it.  For a trip whose [startDate] is the Invalid Date (its other dates
    and its items well formed), [JSON.stringify] with the replacer of
    [serializeTrips] returns a text, in which the date is [null];
    [deserializeTrips] accepts that text, and the trip it returns has the
    start date 1970-01-01T00:00:00.000Z, the time value 0. *)
Theorem invalid_date_becomes_epoch (t : Trip) :
  wf_Trip t ->
  exists text p q,
    JSON_stringify (VArray [Trip_value_undated t]) dateReplacer = Ok (VString text) /\
    JSON_parse text = Ok (VArray [VObject p]) /\ obj_get "startDate" p = VNull /\
    deserializeTrips text = Ok (VArray [VObject q]) /\
    obj_get "startDate" q = VDate (Some 0).
Proof.
  intros (Hsd & Hed & Hca & Hua & Hitems).
  destruct (reviveItem_items (items t) Hitems) as (vs & Hvs & _).
  assert (Hjson : is_json (VArray [dehydrate (Trip_value_undated t)]) = true).
  { rewrite dehydrate_Trip_value_undated.
    cbn [is_json map fst snd forallb distinct existsb].
    rewrite is_json_items by assumption.
    reflexivity. }
  assert (Hrevive : exists q,
            reviveTrip (dehydrate (Trip_value_undated t)) = Ok (VObject q) /\
            obj_get "startDate" q = VDate (Some 0)).
  { rewrite dehydrate_Trip_value_undated.
    destruct t as [i n sd ed its ca ua].
    cbn [trip_id trip_name trip_startDate trip_endDate items createdAt updatedAt] in *.
    generalize dependent (Items_json its). intros js Hvs.
    eexists. split.
    - cbv -[toISOString Date_parse mapM reviveItem]. rewrite Hvs.
      cbv -[toISOString Date_parse].
      rewrite !Date_parse_toISOString by assumption. reflexivity.
    - reflexivity. }
  destruct Hrevive as (q & Hq & Hstart).
  exists (JSON_text (VArray [dehydrate (Trip_value_undated t)])).
  eexists _, q. split; [|split; [|split; [|split; [|exact Hstart]]]].
  - unfold JSON_stringify. rewrite SerializeJSONProperty_dateReplacer.
    + reflexivity.
    + pose proof (value_depth_items (items t)) as H. unfold callStackLimit.
      unfold Trip_value_undated. cbn [value_depth fold_right snd Date_value] in *. lia.
  - rewrite (JSON_parse_JSON_text _ Hjson), dehydrate_Trip_value_undated. reflexivity.
  - reflexivity.
  - unfold deserializeTrips. rewrite (JSON_parse_JSON_text _ Hjson).
    cbn [bind Array_map mapM]. rewrite Hq. reflexivity.
Qed.

Lemma invalid_date_becomes_epoch_witness :
  exists text p q,
    JSON_stringify (VArray [Trip_value_undated japan2024]) dateReplacer
    = Ok (VString text) /\
    JSON_parse text = Ok (VArray [VObject p]) /\ obj_get "startDate" p = VNull /\
    deserializeTrips text = Ok (VArray [VObject q]) /\
    obj_get "startDate" q = VDate (Some 0).
Proof.
  apply invalid_date_becomes_epoch.
  exact (Forall_inv wf_japan2024).
Defined.

(* ===================================================================== *)
(** * A latitude that is not a finite number through the store *)
(* ===================================================================== *)



